(** * ComfyUI Toolkit Plus: browser-side helpers, embedded and verified

    The development follows the JavaScript sources:
    - [Web/JS/Shared/Node_Replacement_Core.js]: the node replacement flow
      (type-signature cache, compatibility search, in-place swap);
    - [Web/JS/ComfyUI_Sidebar_Extension.js]: alphabetic sidebar sorting;
    - the CivitAI library panel: [clamp], [getPreviewSize],
      [normalizeListWithAny].

    JavaScript strings are modelled as [string]: sequences of bytes, a
    character outside ASCII being the bytes of its UTF-8 encoding.  The
    engine's case and white-space primitives, which work on all of Unicode,
    are parameters ([Engine]).  [null], [undefined] and array holes are all
    represented by [None] wherever the source only tests them with
    [== null], [??] or [?.]. *)

From Stdlib Require Import Ascii String QArith.
From stdpp Require Import base option list strings gmap sorting.

Local Open Scope string_scope.
Local Open Scope list_scope.
Local Open Scope Z_scope.

(** ** JavaScript primitives used by the sources *)

Module JS.

(** The result of a call that may raise an exception. *)
Inductive outcome (A : Type) : Type :=
| Returned (a : A)
| Threw.
Arguments Returned {A} a.
Arguments Threw {A}.

(** A visible ASCII character: neither white space nor a control
    character, and not part of the encoding of a character outside ASCII. *)
Definition graphic (c : ascii) : bool :=
  let n := nat_of_ascii c in
  ((33 <=? n)%nat && (n <=? 126)%nat)%bool.

(** *** The engine's string primitives

    [s.toLowerCase()], [s.toLocaleLowerCase()], [s.trim()], the
    [TrimString(s, start)] with which [parseInt] begins, and
    [s.replace(/\s+/g, " ")].  The sources call them and do not define
    them; they know all of Unicode's letters and white space.  They are
    parameters of the development, with the three facts about them that
    the proofs use: trimming a trimmed string changes nothing, a string
    that starts with a visible ASCII character has no leading white space,
    and a string of visible ASCII characters has no white space to trim. *)
Fixpoint visible (s : string) : bool :=
  match s with
  | EmptyString => true
  | String c r => (graphic c && visible r)%bool
  end.

Class Engine : Type := {
  toLowerCase : string -> string;
  toLocaleLowerCase : string -> string;
  trim : string -> string;
  trimStart : string -> string;
  replace_white_space : string -> string;
  trim_trim : forall s, trim (trim s) = trim s;
  trimStart_graphic :
    forall c r, graphic c = true -> trimStart (String c r) = String c r;
  trim_visible : forall s, visible s = true -> trim s = s;
}.

(** Lower-casing of the letters A to Z only.  It agrees with the engine's
    on ASCII text; it is used where a text is compared with an ASCII
    constant none of whose letters is the lower case of a character outside
    ASCII, and in the example engine. *)
Definition lower_ascii (c : ascii) : ascii :=
  let n := nat_of_ascii c in
  if ((65 <=? n)%nat && (n <=? 90)%nat)%bool then ascii_of_nat (n + 32) else c.

Fixpoint ascii_toLowerCase (s : string) : string :=
  match s with
  | EmptyString => EmptyString
  | String c r => String (lower_ascii c) (ascii_toLowerCase r)
  end.

(** Truthiness of a string: only the empty string is falsy. *)
Definition nonempty (s : string) : bool :=
  match s with EmptyString => false | String _ _ => true end.

(** Reading [arr[i]] with a numeric index: anything out of range is
    [undefined]. *)
Definition index {A : Type} (arr : list A) (i : Z) : option A :=
  if 0 <=? i then arr !! Z.to_nat i else None.

(** [arr[idx] = v] on an array that may have holes: JavaScript extends the
    array, leaving holes below [idx]. *)
Fixpoint array_set {A : Type} (arr : list (option A)) (idx : nat) (v : option A)
  : list (option A) :=
  match idx, arr with
  | O, [] => [v]
  | O, _ :: t => v :: t
  | S i, [] => None :: array_set [] i v
  | S i, h :: t => h :: array_set t i v
  end.

(** [arr.forEach((x, idx) => ...)] threading an accumulator. *)
Fixpoint forEach_from {A S : Type} (f : S -> A -> nat -> S) (arr : list A)
  (idx : nat) (acc : S) : S :=
  match arr with
  | [] => acc
  | x :: t => forEach_from f t (Datatypes.S idx) (f acc x idx)
  end.

Definition forEach {A S : Type} (f : S -> A -> nat -> S) (arr : list A) (acc : S) : S :=
  forEach_from f arr O acc.

(** [Array.prototype.sort(cmp)]: a stable sort.  [x] precedes the sorted
    tail's first element [y] with [cmp x y <= 0]. *)
Section Sort.
Context {A : Type} (cmp : A -> A -> Z).

Fixpoint sort_insert (x : A) (l : list A) : list A :=
  match l with
  | [] => [x]
  | y :: t => if cmp x y <=? 0 then x :: y :: t else y :: sort_insert x t
  end.

Fixpoint sort (l : list A) : list A :=
  match l with
  | [] => []
  | x :: t => sort_insert x (sort t)
  end.

(** The order a comparator induces. *)
Definition ascending (x y : A) : Prop := cmp x y <= 0.
End Sort.

(** One step of a loop that fills a sparse array: the element either
    assigns [arr[idx]] or leaves the array alone. *)
Definition fill_step {X A : Type} (assign : X -> option (option A))
  (arr : list (option A)) (x : X) (idx : nat) : list (option A) :=
  match assign x with
  | None => arr
  | Some v => array_set arr idx v
  end.

(** JavaScript numbers: the three non-finite doubles and the finite ones,
    the latter carried by the rational they denote. *)
Inductive number : Type :=
| NaN
| Infinity (negative : bool)
| Finite (q : Q).

Definition isFinite (n : number) : bool :=
  match n with Finite _ => true | _ => false end.

(** JSON-shaped JavaScript values. *)
#[warnings="-register-all"]
Inductive value : Type :=
| VUndefined
| VNull
| VBool (b : bool)
| VNumber (n : number)
| VString (s : string)
| VArray (elems : list value)
| VObject (props : list (string * value)).

(** [v == null]. *)
Definition nullish (v : value) : bool :=
  match v with VUndefined | VNull => true | _ => false end.

(** [a ?? b]. *)
Definition coalesce (a b : value) : value := if nullish a then b else a.

(** [!!v]. *)
Definition truthy (v : value) : bool :=
  match v with
  | VUndefined | VNull => false
  | VBool b => b
  | VNumber NaN => false
  | VNumber (Infinity _) => true
  | VNumber (Finite q) => negb (Qeq_bool q 0)
  | VString s => nonempty s
  | VArray _ | VObject _ => true
  end.

(** [obj[k]] on an object's own properties. *)
Fixpoint props_get (props : list (string * value)) (k : string) : value :=
  match props with
  | [] => VUndefined
  | (k', v) :: rest => if String.eqb k' k then v else props_get rest k
  end.

(** [v?.k]: [undefined] on [null] and [undefined], and on primitives and
    arrays for a key they do not carry. *)
Definition optional_get (v : value) (k : string) : value :=
  match v with
  | VObject props => props_get props k
  | _ => VUndefined
  end.

(** A [Map]: entries in insertion order, one entry per key. *)
Fixpoint map_set {V : Type} (k : string) (v : V) (m : list (string * V))
  : list (string * V) :=
  match m with
  | [] => [(k, v)]
  | (k', v') :: rest =>
      if String.eqb k' k then (k, v) :: rest else (k', v') :: map_set k v rest
  end.

End JS.

Import JS.

(** ** Node replacement *)

Module NodeReplacement.

(** A slot type as kept in the signature index: [(string|null)]. *)
Definition slot_type := option string.

(** [!t] for a slot type. *)
Definition falsy (t : slot_type) : bool :=
  match t with
  | None => true
  | Some s => negb (nonempty s)
  end.

(** [String(t)] for a slot type. *)
Definition String_of (t : slot_type) : string :=
  match t with
  | Some s => s
  | None => "null"
  end.

Section Types.
Context `{!Engine}.

Definition typeCompatible (requiredType candidateType : slot_type) : bool :=
  if falsy requiredType then true
  else if falsy candidateType then false
  else
    let A := toLowerCase (String_of requiredType) in
    let B := toLowerCase (String_of candidateType) in
    if (String.eqb A "*" || String.eqb A "any")%bool then true
    else if (String.eqb B "*" || String.eqb B "any")%bool then true
    else String.eqb A B.

(** A wildcard type name, compared case-insensitively. *)
Definition wildcard (s : string) : Prop :=
  toLowerCase s = "*" \/ toLowerCase s = "any".
End Types.

(** *** The host's object graph

    Nodes are mutable objects referred to by identity; [ref] is that
    identity and [heap] holds the current fields of every object. *)

Definition ref := nat.

Record LLink : Type := {
  origin_id : Z;
  origin_slot : Z;
  target_id : Z;
  target_slot : Z;
}.

(** Slots are objects; [link] is [null] on an input nothing feeds, and
    [links] may be absent on an output. *)
Record InputSlot : Type := {
  in_name : string;
  in_type : slot_type;
  in_link : option Z;
}.

Record OutputSlot : Type := {
  out_name : string;
  out_type : slot_type;
  out_links : option (list Z);
}.

Record LGraphNode : Type := {
  type : string;
  pos : value;
  size : option (number * number);
  inputs : option (list InputSlot);
  outputs : option (list OutputSlot);
}.

#[global] Instance LGraphNode_inhabited : Inhabited LGraphNode :=
  populate {| type := ""; pos := VUndefined; size := None;
              inputs := None; outputs := None |}.

(** The live state: node objects, the graph's link table, and whatever
    else the host keeps (node membership, canvas selection). *)
Record World (Host : Type) : Type := {
  heap : gmap ref LGraphNode;
  links : gmap Z LLink;
  host : Host;
}.
Arguments heap {Host} _.
Arguments links {Host} _.
Arguments host {Host} _.

(** The methods of the host's graph, nodes and canvas that the replacement
    flow calls.  A method that may raise returns the world it left behind
    together with the outcome. *)
Class HostAPI (Host : Type) : Type := {
  getNodeById : World Host -> Z -> option ref;
  graph_add : ref -> World Host -> World Host;
  graph_remove : ref -> World Host -> World Host;
  connect : ref -> Z -> ref -> Z -> World Host -> outcome unit * World Host;
  selectNode : ref -> World Host -> outcome unit * World Host;
}.

(** [globalThis.LiteGraph]: the registry's type names in [Object.keys]
    order, and the node factory. *)
Record LiteGraphGlobal : Type := {
  registered_node_types : option (list string);
  createNode : option (string -> outcome (option LGraphNode));
}.

(** *** Global guards and caches *)

Record Signature : Type := {
  inTypes : list slot_type;
  outTypes : list slot_type;
}.

Definition IOCache := list (string * Signature).

Record TKP_STATE : Type := {
  isOpen : bool;
  ioCache : option IOCache;
  ioCacheBuilt : bool;
}.

Definition TKP_INITIAL : TKP_STATE :=
  {| isOpen := false; ioCache := None; ioCacheBuilt := false |}.

Definition safeCreateNode (LiteGraph : option LiteGraphGlobal) (typeName : string)
  : option LGraphNode :=
  match LiteGraph ≫= createNode with
  | None => None
  | Some create =>
      match create typeName with
      | Returned r => r
      | Threw => None
      end
  end.

(** *** Cache builder *)

Definition signature_of (node : LGraphNode) : Signature :=
  {| inTypes := map in_type (default [] (inputs node));
     outTypes := map out_type (default [] (outputs node)) |}.

Definition ensureIOCacheBuilt (LiteGraph : option LiteGraphGlobal) (st : TKP_STATE)
  : TKP_STATE :=
  if (ioCacheBuilt st && bool_decide (is_Some (ioCache st)))%bool then st
  else
    match LiteGraph ≫= registered_node_types with
    | None => {| isOpen := isOpen st; ioCache := Some []; ioCacheBuilt := true |}
    | Some reg =>
        let cache :=
          fold_left
            (fun cache typeName =>
               match safeCreateNode LiteGraph typeName with
               | None => cache
               | Some node => map_set typeName (signature_of node) cache
               end)
            reg [] in
        {| isOpen := isOpen st; ioCache := Some cache; ioCacheBuilt := true |}
    end.

(** *** Valid replacements based on the current connections *)

Definition highestRequiredIndex (arr : list (option string)) : Z :=
  forEach (fun hi x i => if bool_decide (is_Some x) then Z.of_nat i else hi) arr (-1).

Section Matching.
Context `{!Engine}.

Fixpoint matchRequired_from (required : list (option string))
  (candidate : list slot_type) (i : nat) : bool :=
  match required with
  | [] => true
  | r :: rest =>
      match r with
      | None => matchRequired_from rest candidate (S i)
      | Some _ =>
          let c := mjoin (candidate !! i) in
          if negb (typeCompatible r c) then false
          else matchRequired_from rest candidate (S i)
      end
  end.

Definition matchRequired (required : list (option string)) (candidate : list slot_type)
  : bool :=
  matchRequired_from required candidate O.
End Matching.

Section Search.
Context `{!Engine} {Host : Type} `{!HostAPI Host}.
Variable localeCompare : string -> string -> Z.

Definition requiredInputs (graph : World Host) (oldNode : LGraphNode)
  : list (option string) :=
  forEach
    (fun reqIn inp idx =>
       match in_link inp with
       | None => reqIn
       | Some linkId =>
           match links graph !! linkId with
           | None => reqIn
           | Some link =>
               let origin := getNodeById graph (origin_id link) ≫= (fun r => heap graph !! r) in
               let originOut :=
                 (origin ≫= outputs) ≫= (fun outs => index outs (origin_slot link)) in
               array_set reqIn idx
                 (match originOut ≫= out_type with
                  | Some t => Some t
                  | None => in_type inp
                  end)
           end
       end)
    (default [] (inputs oldNode)) [].

Definition requiredOutputs (oldNode : LGraphNode) : list (option string) :=
  forEach
    (fun reqOut out idx =>
       match out_links out with
       | Some (_ :: _) => array_set reqOut idx (out_type out)
       | _ => reqOut
       end)
    (default [] (outputs oldNode)) [].

Definition getValidReplacementsFromConnections (st : TKP_STATE)
  (graph : World Host) (oldNode : LGraphNode) : list string :=
  match ioCache st with
  | None => []
  | Some cache =>
      let reqIn := requiredInputs graph oldNode in
      let reqOut := requiredOutputs oldNode in
      let minInSlots := highestRequiredIndex reqIn + 1 in
      let minOutSlots := highestRequiredIndex reqOut + 1 in
      let results :=
        fold_left
          (fun results '(typeName, sig) =>
             if String.eqb typeName (type oldNode) then results
             else if Z.of_nat (length (inTypes sig)) <? minInSlots then results
             else if Z.of_nat (length (outTypes sig)) <? minOutSlots then results
             else if negb (matchRequired reqIn (inTypes sig)) then results
             else if negb (matchRequired reqOut (outTypes sig)) then results
             else (results ++ [typeName])%list)
          cache [] in
      sort localeCompare results
  end.
End Search.


(** *** The wiring of a node, in the words of the specification *)

Section Wiring.
Context `{!Engine} {Host : Type} `{!HostAPI Host}.

Definition inputs_of (node : LGraphNode) : list InputSlot := default [] (inputs node).
Definition outputs_of (node : LGraphNode) : list OutputSlot := default [] (outputs node).

(** An input slot is connected when it names a link that the graph holds. *)
Definition incoming_link (graph : World Host) (inp : InputSlot) : option LLink :=
  in_link inp ≫= (fun linkId => links graph !! linkId).

(** The type at the far end of a link: the origin node's output slot. *)
Definition origin_output_type (graph : World Host) (link : LLink) : slot_type :=
  (((getNodeById graph (origin_id link) ≫= (fun r => heap graph !! r)) ≫= outputs)
     ≫= (fun outs => index outs (origin_slot link))) ≫= out_type.

(** The type an incoming link requires: the origin output's type, falling
    back to the slot's own type. *)
Definition link_required_type (graph : World Host) (inp : InputSlot) (link : LLink)
  : slot_type :=
  match origin_output_type graph link with
  | Some t => Some t
  | None => in_type inp
  end.

(** An output slot is connected when its [links] array is non-empty. *)
Definition output_connected (out : OutputSlot) : Prop :=
  exists l ls, out_links out = Some (l :: ls).

(** What each loop of the search writes into [reqIn] and [reqOut]. *)
Definition input_assignment (graph : World Host) (inp : InputSlot)
  : option (option string) :=
  match incoming_link graph inp with
  | None => None
  | Some link => Some (link_required_type graph inp link)
  end.

Definition output_assignment (out : OutputSlot) : option (option string) :=
  match out_links out with
  | Some (_ :: _) => Some (out_type out)
  | _ => None
  end.

(** The test the search applies to one cache entry. *)
Definition accepts (reqIn reqOut : list (option string)) (own : string)
  (entry : string * Signature) : bool :=
  negb (String.eqb entry.1 own)
  && negb (Z.of_nat (length (inTypes entry.2)) <? highestRequiredIndex reqIn + 1)
  && negb (Z.of_nat (length (outTypes entry.2)) <? highestRequiredIndex reqOut + 1)
  && matchRequired reqIn (inTypes entry.2)
  && matchRequired reqOut (outTypes entry.2).

(** A signature fits the wiring as the search decides it: only connected
    slots whose required type is known (not null) constrain it. *)
Definition fits_wiring (graph : World Host) (oldNode : LGraphNode) (sig : Signature)
  : Prop :=
  (forall i inp link t,
      inputs_of oldNode !! i = Some inp ->
      incoming_link graph inp = Some link ->
      link_required_type graph inp link = Some t ->
      (i < length (inTypes sig))%nat
      /\ typeCompatible (Some t) (mjoin (inTypes sig !! i)) = true)
  /\ (forall j out t,
      outputs_of oldNode !! j = Some out ->
      output_connected out ->
      out_type out = Some t ->
      (j < length (outTypes sig))%nat
      /\ typeCompatible (Some t) (mjoin (outTypes sig !! j)) = true).

(** The same with every connected slot counted, whether or not a type is
    known for it. *)
Definition fits_wiring_every_connected_slot (graph : World Host)
  (oldNode : LGraphNode) (sig : Signature) : Prop :=
  (forall i inp link,
      inputs_of oldNode !! i = Some inp ->
      incoming_link graph inp = Some link ->
      (i < length (inTypes sig))%nat
      /\ typeCompatible (link_required_type graph inp link)
           (mjoin (inTypes sig !! i)) = true)
  /\ (forall j out,
      outputs_of oldNode !! j = Some out ->
      output_connected out ->
      (j < length (outTypes sig))%nat
      /\ typeCompatible (out_type out) (mjoin (outTypes sig !! j)) = true).

(** "Returns exactly the set of registered node types, other than the
    node's own, whose signature fits", for a given reading [fits] of
    fitting.  The signature of a registered type is that of the node the
    factory makes for it. *)
Definition returns_registered
  (fits : World Host -> LGraphNode -> Signature -> Prop)
  (LiteGraph : option LiteGraphGlobal) (registered : list string)
  (graph : World Host) (oldNode : LGraphNode) (result : list string) : Prop :=
  forall typeName,
    typeName ∈ result <->
    typeName ∈ registered
    /\ typeName <> type oldNode
    /\ exists node, safeCreateNode LiteGraph typeName = Some node
                    /\ fits graph oldNode (signature_of node).
End Wiring.


(** *** Replacing a node

    [StringToNumber] and [ToString] are the engine's conversions behind
    [Number(v)] for strings and for objects. *)

(** A call into the host, as the flow makes them. *)
Inductive HostCall : Type :=
| CallAdd (node : ref)
| CallConnect (origin : ref) (origin_slot : Z) (target : ref) (target_slot : Z)
| CallRemove (node : ref)
| CallSelect (node : ref).

(** The live state together with the host calls made so far. *)
Record Run (Host : Type) : Type := {
  world : World Host;
  calls : list HostCall;
}.
Arguments world {Host} _.
Arguments calls {Host} _.

Record InputLinkSnapshot : Type := {
  snap_origin_id : Z;
  snap_origin_slot : Z;
  snap_target_slot : Z;
  snap_in_name : string;
}.

Record OutputLinkSnapshot : Type := {
  snap_target_id : Z;
  snap_out_target_slot : Z;
  snap_out_origin_slot : Z;
  snap_out_name : string;
}.

Section Replace.
Context {Host : Type} `{!HostAPI Host}.
Variable StringToNumber : string -> number.
Variable ToString : value -> string.
Variable LiteGraph : option LiteGraphGlobal.

(** [Number(v)]. *)
Definition Number_of (v : value) : number :=
  match v with
  | VUndefined => NaN
  | VNull => Finite 0
  | VBool b => Finite (if b then 1 else 0)
  | VNumber n => n
  | VString s => StringToNumber s
  | VArray _ | VObject _ => StringToNumber (ToString v)
  end.

Definition finite_or_zero (n : number) : number :=
  if negb (isFinite n) then Finite 0 else n.

Definition normalizePos (pos : value) : value :=
  let '(x, y) :=
    match pos with
    | VArray elems =>
        (default VUndefined (elems !! 0%nat), default VUndefined (elems !! 1%nat))
    | VObject props =>
        (coalesce (props_get props "x") (props_get props "0"),
         coalesce (props_get props "y") (props_get props "1"))
    | _ => (VNumber (Finite 0), VNumber (Finite 0))
    end in
  let x := Number_of x in
  let y := Number_of y in
  let x := finite_or_zero x in
  let y := finite_or_zero y in
  VArray [VNumber x; VNumber y].

(** Field writes on a node object. *)
Definition set_pos (p : value) (n : LGraphNode) : LGraphNode :=
  {| type := type n; pos := p; size := size n; inputs := inputs n; outputs := outputs n |}.

Definition set_size (s : number * number) (n : LGraphNode) : LGraphNode :=
  {| type := type n; pos := pos n; size := Some s; inputs := inputs n;
     outputs := outputs n |}.

Definition update_node (r : ref) (f : LGraphNode -> LGraphNode) (g : Run Host) : Run Host :=
  {| world := {| heap := <[r := f (heap (world g) !!! r)]> (heap (world g));
                 links := links (world g);
                 host := host (world g) |};
     calls := calls g |}.

(** The object a successful [createNode] returns is new. *)
Definition allocate (created : LGraphNode) (g : Run Host) : ref * Run Host :=
  let r := fresh (dom (heap (world g))) in
  (r, {| world := {| heap := <[r := created]> (heap (world g));
                     links := links (world g);
                     host := host (world g) |};
         calls := calls g |}).

(** Host calls; what [connect] and [selectNode] raise is caught and dropped
    by the [try {} catch {}] around them. *)
Definition call_add (r : ref) (g : Run Host) : Run Host :=
  {| world := graph_add r (world g); calls := calls g ++ [CallAdd r] |}.

Definition call_remove (r : ref) (g : Run Host) : Run Host :=
  {| world := graph_remove r (world g); calls := calls g ++ [CallRemove r] |}.

Definition try_connect (origin : ref) (origin_slot : Z) (target : ref) (target_slot : Z)
  (g : Run Host) : Run Host :=
  {| world := (connect origin origin_slot target target_slot (world g)).2;
     calls := calls g ++ [CallConnect origin origin_slot target target_slot] |}.

Definition try_select (r : ref) (g : Run Host) : Run Host :=
  {| world := (selectNode r (world g)).2; calls := calls g ++ [CallSelect r] |}.

Definition snapshotInputs (graph : World Host) (node : LGraphNode)
  : list InputLinkSnapshot :=
  forEach
    (fun snaps inp index =>
       match in_link inp with
       | None => snaps
       | Some linkId =>
           match links graph !! linkId with
           | None => snaps
           | Some link =>
               snaps ++ [ {| snap_origin_id := origin_id link;
                             snap_origin_slot := origin_slot link;
                             snap_target_slot := Z.of_nat index;
                             snap_in_name := in_name inp |} ]
           end
       end)
    (default [] (inputs node)) [].

Definition snapshotOutputs (graph : World Host) (node : LGraphNode)
  : list OutputLinkSnapshot :=
  forEach
    (fun snaps out index =>
       fold_left
         (fun snaps linkId =>
            match links graph !! linkId with
            | None => snaps
            | Some link =>
                snaps ++ [ {| snap_target_id := target_id link;
                              snap_out_target_slot := target_slot link;
                              snap_out_origin_slot := Z.of_nat index;
                              snap_out_name := out_name out |} ]
            end)
         (default [] (out_links out)) snaps)
    (default [] (outputs node)) [].

(** [!slots || idx < 0 || idx >= slots.length]. *)
Definition outside {A : Type} (slots : option (list A)) (idx : Z) : bool :=
  match slots with
  | None => true
  | Some l => (idx <? 0) || (Z.of_nat (length l) <=? idx)
  end.

Definition reconnectInputs (newNode : ref) (snaps : list InputLinkSnapshot)
  (g : Run Host) : Run Host :=
  fold_left
    (fun g l =>
       match getNodeById (world g) (snap_origin_id l) with
       | None => g
       | Some origin =>
           let idx := snap_target_slot l in
           if outside (inputs (heap (world g) !!! newNode)) idx then g
           else try_connect origin (snap_origin_slot l) newNode idx g
       end)
    snaps g.

Definition reconnectOutputs (newNode : ref) (snaps : list OutputLinkSnapshot)
  (g : Run Host) : Run Host :=
  fold_left
    (fun g l =>
       match getNodeById (world g) (snap_target_id l) with
       | None => g
       | Some target =>
           let idx := snap_out_origin_slot l in
           if outside (outputs (heap (world g) !!! newNode)) idx then g
           else try_connect newNode idx target (snap_out_target_slot l) g
       end)
    snaps g.

Definition replaceNode (graph : Run Host) (oldNode : ref) (newType : string) : Run Host :=
  match safeCreateNode LiteGraph newType with
  | None => graph
  | Some created =>
      let '(newNode, g) := allocate created graph in
      let old := heap (world g) !!! oldNode in
      let pos := normalizePos (pos old) in
      let size := size old in
      let inputLinks := snapshotInputs (world g) old in
      let outputLinks := snapshotOutputs (world g) old in
      let g := call_add newNode g in
      let g := update_node newNode (set_pos (normalizePos pos)) g in
      let g :=
        match size, NodeReplacement.size (heap (world g) !!! newNode) with
        | Some s, Some _ => update_node newNode (set_size s) g
        | _, _ => g
        end in
      let g := reconnectInputs newNode inputLinks g in
      let g := reconnectOutputs newNode outputLinks g in
      let g := call_remove oldNode g in
      try_select newNode g
  end.
End Replace.


(** *** Relinking, in the words of the specification *)

Section Relinking.
Context {Host : Type} `{!HostAPI Host}.



(** The new node once added to the graph and given the old node's place. *)
Definition placed (place : value) (old_size : option (number * number)) (newNode : ref)
  (g : Run Host) : Run Host :=
  let g := update_node newNode (set_pos place) (call_add newNode g) in
  match old_size, size (heap (world g) !!! newNode) with
  | Some s, Some _ => update_node newNode (set_size s) g
  | _, _ => g
  end.

(** The index lies within the slot count. *)
Definition within {A : Type} (slots : option (list A)) (idx : Z) : Prop :=
  exists l, slots = Some l /\ 0 <= idx < Z.of_nat (length l).

(** A snapshotted input link can be preserved when its origin node still
    exists and its target slot lies within the new node's inputs. *)
Definition input_preservable (w : World Host) (newNode : ref) (l : InputLinkSnapshot)
  : Prop :=
  is_Some (getNodeById w (snap_origin_id l))
  /\ within (inputs (heap w !!! newNode)) (snap_target_slot l).

Definition output_preservable (w : World Host) (newNode : ref) (l : OutputLinkSnapshot)
  : Prop :=
  is_Some (getNodeById w (snap_target_id l))
  /\ within (outputs (heap w !!! newNode)) (snap_out_origin_slot l).

(** Best-effort relinking of the input links: each snapshot is taken in
    turn; one that cannot be preserved is skipped, for one that can a
    connection at the same slot indices is attempted, and the next snapshot
    is taken from the world that attempt left, whether it raised or not. *)
Inductive relinked_inputs (newNode : ref)
  : World Host -> list InputLinkSnapshot -> list HostCall -> World Host -> Prop :=
| relinked_inputs_done (w : World Host) :
    relinked_inputs newNode w [] [] w
| relinked_inputs_skip (w w' : World Host) (l : InputLinkSnapshot)
    (rest : list InputLinkSnapshot) (made : list HostCall) :
    ~ input_preservable w newNode l ->
    relinked_inputs newNode w rest made w' ->
    relinked_inputs newNode w (l :: rest) made w'
| relinked_inputs_attempt (w w' : World Host) (l : InputLinkSnapshot)
    (rest : list InputLinkSnapshot) (made : list HostCall) (origin : ref) :
    getNodeById w (snap_origin_id l) = Some origin ->
    within (inputs (heap w !!! newNode)) (snap_target_slot l) ->
    relinked_inputs newNode
      (connect origin (snap_origin_slot l) newNode (snap_target_slot l) w).2
      rest made w' ->
    relinked_inputs newNode w (l :: rest)
      (CallConnect origin (snap_origin_slot l) newNode (snap_target_slot l) :: made) w'.

Inductive relinked_outputs (newNode : ref)
  : World Host -> list OutputLinkSnapshot -> list HostCall -> World Host -> Prop :=
| relinked_outputs_done (w : World Host) :
    relinked_outputs newNode w [] [] w
| relinked_outputs_skip (w w' : World Host) (l : OutputLinkSnapshot)
    (rest : list OutputLinkSnapshot) (made : list HostCall) :
    ~ output_preservable w newNode l ->
    relinked_outputs newNode w rest made w' ->
    relinked_outputs newNode w (l :: rest) made w'
| relinked_outputs_attempt (w w' : World Host) (l : OutputLinkSnapshot)
    (rest : list OutputLinkSnapshot) (made : list HostCall) (target : ref) :
    getNodeById w (snap_target_id l) = Some target ->
    within (outputs (heap w !!! newNode)) (snap_out_origin_slot l) ->
    relinked_outputs newNode
      (connect newNode (snap_out_origin_slot l) target (snap_out_target_slot l) w).2
      rest made w' ->
    relinked_outputs newNode w (l :: rest)
      (CallConnect newNode (snap_out_origin_slot l) target (snap_out_target_slot l) :: made)
      w'.

(** A host method that leaves the slots of every node as they are, and one
    after which [getNodeById] answers as before. *)
Definition keeps_slots (method : World Host -> World Host) : Prop :=
  forall w r,
    inputs (heap (method w) !!! r) = inputs (heap w !!! r)
    /\ outputs (heap (method w) !!! r) = outputs (heap w !!! r).

Definition keeps_ids (method : World Host -> World Host) : Prop :=
  forall w id, getNodeById (method w) id = getNodeById w id.

(** [0 <= idx < slots.length], false without a slot array. *)
Definition inside {A : Type} (slots : option (list A)) (idx : Z) : bool :=
  match slots with
  | None => false
  | Some l => ((0 <=? idx) && (idx <? Z.of_nat (length l)))%bool
  end.

(** The connections to attempt for a list of snapshots, in their order: one
    for each snapshot whose far node [find] finds and whose slot index lies
    within the new node's slots. *)
Definition input_attempts (find : Z -> option ref) (newNode : ref)
  (slots : option (list InputSlot)) (snaps : list InputLinkSnapshot) : list HostCall :=
  omap (fun l =>
          match find (snap_origin_id l) with
          | Some origin =>
              if inside slots (snap_target_slot l)
              then Some (CallConnect origin (snap_origin_slot l) newNode (snap_target_slot l))
              else None
          | None => None
          end) snaps.

Definition output_attempts (find : Z -> option ref) (newNode : ref)
  (slots : option (list OutputSlot)) (snaps : list OutputLinkSnapshot) : list HostCall :=
  omap (fun l =>
          match find (snap_target_id l) with
          | Some target =>
              if inside slots (snap_out_origin_slot l)
              then Some (CallConnect newNode (snap_out_origin_slot l) target
                           (snap_out_target_slot l))
              else None
          | None => None
          end) snaps.

(** The links a node has: an input slot's link that the graph holds, and
    every link of an output slot's [links] array that the graph holds. *)
Definition has_input_link (graph : World Host) (node : LGraphNode)
  (l : InputLinkSnapshot) : Prop :=
  exists index inp link,
    inputs_of node !! index = Some inp
    /\ incoming_link graph inp = Some link
    /\ l = {| snap_origin_id := origin_id link;
              snap_origin_slot := origin_slot link;
              snap_target_slot := Z.of_nat index;
              snap_in_name := in_name inp |}.

Definition has_output_link (graph : World Host) (node : LGraphNode)
  (l : OutputLinkSnapshot) : Prop :=
  exists index out linkId link,
    outputs_of node !! index = Some out
    /\ linkId ∈ default [] (out_links out)
    /\ links graph !! linkId = Some link
    /\ l = {| snap_target_id := target_id link;
              snap_out_target_slot := target_slot link;
              snap_out_origin_slot := Z.of_nat index;
              snap_out_name := out_name out |}.
End Relinking.

End NodeReplacement.

Import NodeReplacement.

(** ** More JavaScript primitives: [parseInt], [Math.min/max] *)

Module JSText.

(** A non-empty string without white space at either end. *)
Definition trimmed `{!Engine} (s : string) : Prop := s <> "" /\ trim s = s.

Definition digit_of (c : ascii) : option Z :=
  let n := nat_of_ascii c in
  if ((48 <=? n)%nat && (n <=? 57)%nat)%bool then Some (Z.of_nat n - 48) else None.

(** The longest prefix of decimal digits. *)
Fixpoint take_digits (s : string) : list Z :=
  match s with
  | EmptyString => []
  | String c r =>
      match digit_of c with
      | Some d => d :: take_digits r
      | None => []
      end
  end.

Definition digits_value (ds : list Z) : Z :=
  fold_left (fun acc d => 10 * acc + d) ds 0.

(** The Number for a mathematical integer.  From [2^1024 - 2^970] on, the
    nearest double is an infinity; below [2^53] the double is the integer
    itself, and in between it is a neighbouring integer, which no comparison
    made here can tell from [z] (all bounds compared with are below
    [2^53]). *)
Definition number_of_integer (z : Z) : number :=
  if Z.abs z <? 2 ^ 1024 - 2 ^ 970 then Finite (inject_Z z)
  else Infinity (z <? 0).

(** [parseInt(s, 10)]: leading white space is skipped, then an optional
    sign and the longest run of decimal digits are read. *)
Definition parseInt10 `{!Engine} (s : string) : number :=
  let s1 := trimStart s in
  let '(negative, s2) :=
    match s1 with
    | String "-" r => (true, r)
    | String "+" r => (false, r)
    | _ => (false, s1)
    end in
  match take_digits s2 with
  | [] => NaN
  | ds => number_of_integer (if negative then - digits_value ds else digits_value ds)
  end.

(** [a <= b] on numbers other than NaN. *)
Definition number_le (a b : number) : bool :=
  match a, b with
  | Infinity true, _ => true
  | _, Infinity false => true
  | Finite p, Finite q => Qle_bool p q
  | _, _ => false
  end.

Definition Math_min (a b : number) : number :=
  match a, b with
  | NaN, _ | _, NaN => NaN
  | _, _ => if number_le a b then a else b
  end.

Definition Math_max (a b : number) : number :=
  match a, b with
  | NaN, _ | _, NaN => NaN
  | _, _ => if number_le a b then b else a
  end.

Definition number_of_Z (z : Z) : number := Finite (inject_Z z).

(** [String(n)] for an integer: its decimal digits, the most significant
    first. *)
Fixpoint decimal_digits (fuel : nat) (z : Z) (acc : string) : string :=
  match fuel with
  | O => acc
  | S fuel =>
      let acc := String (ascii_of_nat (48 + Z.to_nat (z mod 10))) acc in
      if z <? 10 then acc else decimal_digits fuel (z / 10) acc
  end.

Definition decimal (z : Z) : string :=
  if z <? 0 then "-" +:+ decimal_digits (S (Z.to_nat (Z.log2 (- z)))) (- z) ""
  else decimal_digits (S (Z.to_nat (Z.log2 z))) z "".

(** [k] zeros. *)
Fixpoint zeros (k : nat) : string :=
  match k with
  | O => EmptyString
  | S k => String "0" (zeros k)
  end.

(** The text does not begin with a decimal digit. *)
Definition no_leading_digit (s : string) : Prop :=
  forall c r, s = String c r -> (nat_of_ascii c < 48 \/ 57 < nat_of_ascii c)%nat.

(** The text begins with no integer: neither with a digit nor with a sign
    that a digit follows. *)
Definition no_integer (s : string) : Prop :=
  no_leading_digit s
  /\ forall c r, s = String c r -> c = "-"%char \/ c = "+"%char -> no_leading_digit r.

End JSText.

Import JSText.

(** ** The CivitAI library panel: generic helpers *)

Module CivitaiPanel.

Definition LS_KEY_SIZE : string := "civitai_library_preview_size".

Definition clamp (n a b : number) : number := Math_max a (Math_min b n).

(** [localStorage] maps keys to strings; [getItem] of a missing key is
    [null]. *)
Definition getPreviewSize `{!Engine} (localStorage : gmap string string) : number :=
  let raw := localStorage !! LS_KEY_SIZE in
  let n := parseInt10 (match raw with
                       | Some s => if nonempty s then s else "256"
                       | None => "256"
                       end) in
  if negb (isFinite n) then number_of_Z 256
  else clamp n (number_of_Z 128) (number_of_Z 2048).

(** *** normalizeListWithAny

    [ToString] is the engine's [String(v)] for a value that is not a string. *)

Section Normalize.
Context `{!Engine}.
Variable ToString : value -> string.

(** [typeof v === "string" ? v : v?.name || String(v)]. *)
Definition element_text (v : value) : value :=
  match v with
  | VString s => VString s
  | _ =>
      let name := optional_get v "name" in
      if truthy name then name else VString (ToString v)
  end.

(** One iteration of the loop over [src]; [.trim()] on a value that is not
    a string raises a TypeError. *)
Definition normalize_step (acc : outcome (list string * gset string)) (v : value)
  : outcome (list string * gset string) :=
  match acc with
  | Threw => Threw
  | Returned (out, seen) =>
      let val := element_text v in
      match (if truthy val then val else VString "") with
      | VString text =>
          let s := trim text in
          if negb (nonempty s) then Returned (out, seen)
          else if bool_decide (s ∈ seen) then Returned (out, seen)
          else Returned ((out ++ [s])%list, {[ s ]} ∪ seen)
      | _ => Threw
      end
  end.

(** The text the loop reads from an element: the element when it is a
    string, its [name] when that is a non-empty string, [String(v)] when the
    name is falsy; none when the name is truthy and not a string. *)
Definition text_of (v : value) : option string :=
  match v with
  | VString s => Some s
  | _ =>
      match optional_get v "name" with
      | VString name => Some (if nonempty name then name else ToString v)
      | name => if truthy name then None else Some (ToString v)
      end
  end.

Definition normalizeListWithAny (values : value) : outcome (list string) :=
  let src := match values with VArray elems => elems | _ => [] end in
  match fold_left normalize_step src (Returned (["Any"], {[ "Any" ]})) with
  | Returned (out, _) => Returned out
  | Threw => Threw
  end.
End Normalize.

End CivitaiPanel.

Import CivitaiPanel.

(** ** The sidebar extension: alphabetic sorting of tab bars *)

Module Sidebar.

Section Labels.
Context `{!Engine}.

(** [String(s || "").replace(/\s+/g, " ").trim()] for a string [s]. *)
Definition normText (s : string) : string := trim (replace_white_space s).

Definition labelKey (s : string) : string := toLocaleLowerCase (normText s).
End Labels.

(** A child element of a container, with what the DOM queries of the
    extension read from it: [isTabLike(n)], whether
    [n.querySelector("[role='tab'],button,a")] finds something, how many
    elements of its subtree match ["[role='tab'], button, a, li"], and
    [getTabLabel(n)].  [el_id] is the element's identity. *)
Record Element : Type := {
  el_id : nat;
  tabLike : bool;
  hasInnerTab : bool;
  innerTabs : nat;
  tabLabel : string;
}.

(** A container and the entry the signature cache ([containerSig]) holds
    for it.  The [isReordering] flag is raised only while children are being
    moved and is down again when [sortOneContainer] returns; it is left
    out. *)
Record Container : Type := {
  children : list Element;
  signature : option string;
}.

Definition same (a b : Element) : bool := Nat.eqb (el_id a) (el_id b).

(** [Array.from(new Set(arr))]: the first occurrence of each element. *)
Fixpoint unique_from (seen : gset nat) (arr : list Element) : list Element :=
  match arr with
  | [] => []
  | x :: rest =>
      if bool_decide (el_id x ∈ seen) then unique_from seen rest
      else x :: unique_from ({[ el_id x ]} ∪ seen) rest
  end.

Definition unique (arr : list Element) : list Element := unique_from ∅ arr.

Section Items.
Context `{!Engine}.

Definition sortable (n : Element) : bool :=
  (tabLike n || hasInnerTab n) && (0 <? String.length (labelKey (tabLabel n)))%nat.

Definition getSortableItems (container : Container) : list Element :=
  let candidates := children container in
  let candidates :=
    if (length candidates <? 2)%nat
    then flat_map (fun child => replicate (innerTabs child) child) (children container)
    else candidates in
  let filtered :=
    List.filter (fun n => (0 <? String.length (labelKey (tabLabel n)))%nat)
      (List.filter (fun n => tabLike n || hasInnerTab n) candidates) in
  unique filtered.
End Items.

(** [arr.join(sep)]. *)
Fixpoint join (sep : string) (arr : list string) : string :=
  match arr with
  | [] => ""
  | [x] => x
  | x :: rest => (x ++ sep ++ join sep rest)%string
  end.

(** [container.appendChild(child)]: a child already present moves to the
    end. *)
Definition appendChild (child : Element) (kids : list Element) : list Element :=
  List.filter (fun c => negb (same c child)) kids ++ [child].

Record Entry : Type := {
  el : Element;
  idx : nat;
  label : string;
}.

Section SortOne.
Context `{!Engine}.
(** [a.localeCompare(b, undefined, { numeric: true, sensitivity: "base" })]. *)
Variable localeCompare : string -> string -> Z.

Definition compare_entries (a b : Entry) : Z :=
  let cmp := localeCompare (label a) (label b) in
  if negb (cmp =? 0) then cmp else Z.of_nat (idx a) - Z.of_nat (idx b).

Definition sortOneContainer (container : Container) : bool * Container :=
  let items := getSortableItems container in
  if (length items <? 2)%nat then (false, container)
  else
    let labels := map (fun n => labelKey (tabLabel n)) items in
    let sigNow := join "|" labels in
    let lastSig := signature container in
    if bool_decide (lastSig = Some sigNow) then (false, container)
    else
      let entries :=
        imap (fun idx el => {| el := el; idx := idx; label := labelKey (tabLabel el) |})
          items in
      let sorted := sort compare_entries entries in
      let changed :=
        existsb (fun b => b)
          (imap (fun i e =>
                   match items !! i with
                   | Some item => negb (same (el e) item)
                   | None => true
                   end)
             sorted) in
      if negb changed
      then (false, {| children := children container; signature := Some sigNow |})
      else
        let kids :=
          fold_left (fun kids e => appendChild (el e) kids) sorted (children container) in
        let sigAfter := join "|" (map label sorted) in
        (true, {| children := kids; signature := Some sigAfter |}).

(** Ascending label order. *)
Definition label_order (a b : Element) : Prop :=
  localeCompare (labelKey (tabLabel a)) (labelKey (tabLabel b)) <= 0.
End SortOne.

Section Sorted.
Context `{!Engine}.

(** The entries [sortOneContainer] sorts, and the elements in sorted order. *)
Definition entries_of (items : list Element) : list Entry :=
  imap (fun idx el => {| el := el; idx := idx; label := labelKey (tabLabel el) |}) items.

Definition sorted_items (localeCompare : string -> string -> Z) (items : list Element)
  : list Element :=
  map el (sort (compare_entries localeCompare) (entries_of items)).

(** The label signature of a list of items. *)
Definition signature_of_items (items : list Element) : string :=
  join "|" (map (fun n => labelKey (tabLabel n)) items).
End Sorted.

(** [a] comes before [b] in [l]. *)
Definition before (l : list Element) (a b : Element) : Prop :=
  exists i j, (i < j)%nat /\ l !! i = Some a /\ l !! j = Some b.

End Sidebar.

Import Sidebar.

(** ** The engine's primitives on ASCII text, for concrete runs *)

Module AsciiText.

(** White space in the ASCII range: tab, line feed, vertical tab, form feed,
    carriage return, space. *)
Definition ascii_space (c : ascii) : bool :=
  let n := nat_of_ascii c in
  ((9 <=? n)%nat && (n <=? 13)%nat || (n =? 32)%nat)%bool.

Fixpoint ascii_trimStart (s : string) : string :=
  match s with
  | EmptyString => EmptyString
  | String c r => if ascii_space c then ascii_trimStart r else s
  end.

Fixpoint ascii_trimEnd (s : string) : string :=
  match s with
  | EmptyString => EmptyString
  | String c r =>
      match ascii_trimEnd r with
      | EmptyString => if ascii_space c then EmptyString else String c EmptyString
      | r' => String c r'
      end
  end.

Definition ascii_trim (s : string) : string := ascii_trimEnd (ascii_trimStart s).

(** Every run of white space becomes one space. *)
Fixpoint ascii_collapse (in_run : bool) (s : string) : string :=
  match s with
  | EmptyString => EmptyString
  | String c r =>
      if ascii_space c then
        if in_run then ascii_collapse true r
        else String " " (ascii_collapse true r)
      else String c (ascii_collapse false r)
  end.

End AsciiText.

Import AsciiText.

(** ** A small host, for concrete runs

    Node ids coincide with object identities; [connect] records a link in
    the graph's link table when both slots exist and raises otherwise. *)

Module Example.

(** Comparison by code units, the collation of the root locale on ASCII
    letters of one case. *)
Definition ordinal_compare (a b : string) : Z :=
  match String.compare a b with
  | Lt => -1
  | Eq => 0
  | Gt => 1
  end.

Record SimpleHost : Type := {
  members : list ref;
  selected : option ref;
  next_link : Z;
}.

Definition slot_exists {A : Type} (slots : option (list A)) (i : Z) : bool :=
  bool_decide (is_Some (slots ≫= (fun l => index l i))).

Definition simple_getNodeById (w : World SimpleHost) (id : Z) : option ref :=
  if bool_decide (0 <= id /\ Z.to_nat id ∈ members (host w))
  then Some (Z.to_nat id) else None.

Definition simple_add (r : ref) (w : World SimpleHost) : World SimpleHost :=
  {| heap := heap w; links := links w;
     host := {| members := members (host w) ++ [r];
                selected := selected (host w);
                next_link := next_link (host w) |} |}.

Definition simple_remove (r : ref) (w : World SimpleHost) : World SimpleHost :=
  {| heap := heap w; links := links w;
     host := {| members := List.filter (fun m => negb (Nat.eqb m r)) (members (host w));
                selected := selected (host w);
                next_link := next_link (host w) |} |}.

Definition simple_connect (o : ref) (os : Z) (t : ref) (ts : Z) (w : World SimpleHost)
  : outcome unit * World SimpleHost :=
  match heap w !! o, heap w !! t with
  | Some on, Some tn =>
      if (slot_exists (outputs on) os && slot_exists (inputs tn) ts)%bool then
        (Returned tt,
         {| heap := heap w;
            links := <[next_link (host w) :=
                         {| origin_id := Z.of_nat o; origin_slot := os;
                            target_id := Z.of_nat t; target_slot := ts |}]> (links w);
            host := {| members := members (host w);
                       selected := selected (host w);
                       next_link := next_link (host w) + 1 |} |})
      else (Threw, w)
  | _, _ => (Threw, w)
  end.

Definition simple_select (r : ref) (w : World SimpleHost)
  : outcome unit * World SimpleHost :=
  (Returned tt,
   {| heap := heap w; links := links w;
      host := {| members := members (host w);
                 selected := Some r;
                 next_link := next_link (host w) |} |}).

#[global] Instance simple_api : HostAPI SimpleHost := {
  getNodeById := simple_getNodeById;
  graph_add := simple_add;
  graph_remove := simple_remove;
  connect := simple_connect;
  selectNode := simple_select;
}.

(** A node whose only input is fed by link 7 from a source whose output
    carries no type; the input carries none either. *)
Definition untyped_node : LGraphNode :=
  {| type := "Old"; pos := VUndefined; size := None;
     inputs := Some [ {| in_name := "in"; in_type := None; in_link := Some 7 |} ];
     outputs := None |}.

Definition untyped_source : LGraphNode :=
  {| type := "Source"; pos := VUndefined; size := None;
     inputs := None;
     outputs := Some [ {| out_name := "out"; out_type := None;
                          out_links := Some [7] |} ] |}.

Definition untyped_world : World SimpleHost :=
  {| heap := {[ 1%nat := untyped_node; 2%nat := untyped_source ]};
     links := {[ 7 := {| origin_id := 2; origin_slot := 0;
                         target_id := 1; target_slot := 0 |} ]};
     host := {| members := [1%nat; 2%nat]; selected := None; next_link := 8 |} |}.

(** A node with an output slot that nothing is connected to. *)
Definition unwired_node : LGraphNode :=
  {| type := "Old"; pos := VUndefined; size := None; inputs := None;
     outputs := Some [ {| out_name := "out"; out_type := Some "IMAGE";
                          out_links := Some [] |} ] |}.

Definition sink_cache : IOCache :=
  [ ("Sink", {| inTypes := []; outTypes := [] |}) ].

Definition sink_state : TKP_STATE :=
  {| isOpen := true; ioCache := Some sink_cache; ioCacheBuilt := true |}.

(** A factory that knows two types and fails on the others: ["Broken"]
    raises, anything else unknown yields [null]. *)
Definition filter_node : LGraphNode :=
  {| type := "Filter"; pos := VArray [VNumber (Finite 0); VNumber (Finite 0)];
     size := Some (Finite 140, Finite 60);
     inputs := Some [ {| in_name := "image"; in_type := Some "IMAGE"; in_link := None |} ];
     outputs := Some [ {| out_name := "image"; out_type := Some "IMAGE";
                          out_links := None |} ] |}.

Definition example_createNode (typeName : string) : outcome (option LGraphNode) :=
  if String.eqb typeName "Filter" then Returned (Some filter_node)
  else if String.eqb typeName "Broken" then Threw
  else Returned None.

Definition example_LiteGraph : option LiteGraphGlobal :=
  Some {| registered_node_types := Some ["Filter"; "Broken"; "Ghost"];
          createNode := Some example_createNode |}.

(** A registry whose types fail the search for Old in the chain below each
    in its own way: ["Latent"] by a slot's type, ["Sink"] by the slot count,
    ["OutOnly"] by the input count alone, ["Broken"] and ["Ghost"] by not
    being instantiable, ["Old"] by being the node's own type.  ["Filter"]
    and ["Anything"], whose slots carry the wildcard, fit. *)
Definition node_of (name : string) (ins outs : list slot_type) : LGraphNode :=
  {| type := name; pos := VArray [VNumber (Finite 0); VNumber (Finite 0)];
     size := None;
     inputs := Some (map (fun t => {| in_name := "in"; in_type := t; in_link := None |}) ins);
     outputs := Some (map (fun t => {| out_name := "out"; out_type := t;
                                       out_links := None |}) outs) |}.

Definition wide_createNode (typeName : string) : outcome (option LGraphNode) :=
  if String.eqb typeName "Filter" then Returned (Some filter_node)
  else if String.eqb typeName "Latent"
       then Returned (Some (node_of "Latent" [Some "LATENT"] [Some "LATENT"]))
  else if String.eqb typeName "Sink" then Returned (Some (node_of "Sink" [] []))
  else if String.eqb typeName "OutOnly"
       then Returned (Some (node_of "OutOnly" [] [Some "IMAGE"]))
  else if String.eqb typeName "Anything"
       then Returned (Some (node_of "Anything" [Some "*"; None] [Some "Any"]))
  else if String.eqb typeName "Old"
       then Returned (Some (node_of "Old" [Some "IMAGE"] [Some "IMAGE"]))
  else if String.eqb typeName "Broken" then Threw
  else Returned None.

Definition wide_registry : list string :=
  ["Sink"; "Latent"; "Filter"; "Broken"; "Old"; "OutOnly"; "Ghost"; "Anything"].

Definition wide_LiteGraph : option LiteGraphGlobal :=
  Some {| registered_node_types := Some wide_registry;
          createNode := Some wide_createNode |}.

(** A registry with the one type ["Sink"], and its cache. *)
Definition sink_LiteGraph : option LiteGraphGlobal :=
  Some {| registered_node_types := Some ["Sink"];
          createNode := Some (fun _ => Returned (Some (node_of "Sink" [] []))) |}.

(** Load (object 1) feeds Old (object 2), which feeds Save (object 3); Save
    has lost its input slots, so connecting to it raises. *)
Definition load_node : LGraphNode :=
  {| type := "Load"; pos := VArray [VNumber (Finite 0); VNumber (Finite 0)];
     size := Some (Finite 100, Finite 50); inputs := None;
     outputs := Some [ {| out_name := "image"; out_type := Some "IMAGE";
                          out_links := Some [5] |} ] |}.

Definition old_node : LGraphNode :=
  {| type := "Old";
     pos := VObject [("x", VNumber (Finite 320)); ("y", VNumber NaN)];
     size := Some (Finite 200, Finite 80);
     inputs := Some [ {| in_name := "image"; in_type := Some "IMAGE"; in_link := Some 5 |} ];
     outputs := Some [ {| out_name := "image"; out_type := Some "IMAGE";
                          out_links := Some [6] |} ] |}.

Definition save_node : LGraphNode :=
  {| type := "Save"; pos := VArray [VNumber (Finite 640); VNumber (Finite 0)];
     size := None; inputs := None; outputs := None |}.

Definition chain_world : World SimpleHost :=
  {| heap := {[ 1%nat := load_node; 2%nat := old_node; 3%nat := save_node ]};
     links := {[ 5 := {| origin_id := 1; origin_slot := 0; target_id := 2; target_slot := 0 |};
                 6 := {| origin_id := 2; origin_slot := 0; target_id := 3; target_slot := 0 |} ]};
     host := {| members := [1%nat; 2%nat; 3%nat]; selected := None; next_link := 7 |} |}.

Definition chain_run : Run SimpleHost := {| world := chain_world; calls := [] |}.

(** The engine's conversions are not exercised by the examples. *)
Definition no_StringToNumber (s : string) : number := NaN.
Definition no_ToString (v : value) : string := "".

(** [String(v)] of [null], [undefined], the booleans and plain objects, the
    values the examples convert. *)
Definition plain_ToString (v : value) : string :=
  match v with
  | VUndefined => "undefined"
  | VNull => "null"
  | VBool true => "true"
  | VBool false => "false"
  | VObject _ => "[object Object]"
  | _ => ""
  end.

(** A list of base models as a server might send it: strings, a named
    object, [null], and an object whose name is empty. *)
Definition mixed_values : list value :=
  [VString " SDXL "; VObject [("name", VString "Pony")]; VNull; VString "SDXL";
   VObject [("name", VString "")]].

(** A tab bar: three labelled buttons around a spacer that is no tab. *)
Definition tab (id : nat) (text : string) : Element :=
  {| el_id := id; tabLike := true; hasInnerTab := false; innerTabs := 1;
     tabLabel := text |}.

Definition spacer : Element :=
  {| el_id := 3; tabLike := false; hasInnerTab := false; innerTabs := 0;
     tabLabel := "" |}.

Definition tab_bar : Container :=
  {| children := [tab 1 "Workflows"; tab 2 "  Assets "; spacer; tab 4 "Models"];
     signature := None |}.

End Example.

(** ** The sidebar extension: the observer and the debounced sort *)

Module SidebarPass.

(** What the observer callback does with a batch of mutations: nothing
    while [isReordering]; otherwise the first child-list record with added
    or removed nodes, or the first attribute record, schedules a sort. *)
Inductive MutationRecord : Type :=
| ChildList (added removed : nat)
| Attributes
| CharacterData.

Fixpoint observed (isReordering : bool) (mutations : list MutationRecord) : bool :=
  if isReordering then false
  else
    match mutations with
    | [] => false
    | ChildList added removed :: rest =>
        if (negb (added =? 0)%nat || negb (removed =? 0)%nat)%bool then true
        else observed false rest
    | Attributes :: _ => true
    | CharacterData :: rest => observed false rest
    end.

(** [scheduleSort] and the firing of its timer: the debounce flag and the
    number of pending debounce timers, and how many passes have run. *)
Record Debounce : Type := {
  scheduled : bool;
  pending : nat;
  passes : nat;
}.

Inductive DebounceEvent : Type :=
| CallScheduleSort
| TimerFires.

Definition debounce_step (d : Debounce) (e : DebounceEvent) : Debounce :=
  match e with
  | CallScheduleSort =>
      if scheduled d then d
      else {| scheduled := true; pending := S (pending d); passes := passes d |}
  | TimerFires =>
      match pending d with
      | O => d
      | S n => {| scheduled := false; pending := n; passes := S (passes d) |}
      end
  end.

Definition idle : Debounce := {| scheduled := false; pending := 0; passes := 0 |}.

(** The observer's callback on a batch of mutation records. *)
Definition observer_callback (isReordering : bool) (mutations : list MutationRecord)
  (d : Debounce) : Debounce :=
  if observed isReordering mutations then debounce_step d CallScheduleSort else d.

End SidebarPass.

Import SidebarPass.

(** ** The replacement flow: selection, the search modal, the flow itself *)

Module ReplaceFlow.

(** [s.includes(sub)]. *)
Fixpoint includes (s sub : string) : bool :=
  String.prefix sub s
  || match s with
     | EmptyString => false
     | String _ r => includes r sub
     end.

(** *** getSingleSelectedNode

    [selected_nodes] holds [Object.values] of the canvas's selection map
    when that is an object, [graph_nodes] the graph's [_nodes] with their
    [is_selected] flags when that is an array. *)
Record AppView : Type := {
  selected_nodes : option (list (option ref));
  current_node : option ref;
  graph_nodes : option (list (ref * bool));
  has_graph : bool;
}.

Definition getSingleSelectedNode (app : AppView) : option ref :=
  match selected_nodes app with
  | Some values =>
      match omap id values with
      | [node] => Some node
      | _ => None
      end
  | None =>
      match current_node app with
      | Some current => Some current
      | None =>
          match graph_nodes app with
          | Some nodes =>
              match List.filter snd nodes with
              | [(node, _)] => Some node
              | _ => None
              end
          | None => None
          end
      end
  end.

(** *** The search modal

    The state the handlers share: the text of the search box, the chosen
    type, the items [render] last drew, and the value the promise was
    resolved with ([None] while the modal is open). *)
Record Modal : Type := {
  search_value : string;
  chosen : option string;
  shown : list string;
  resolved : option (option string);
}.

Section SearchModal.
Context `{!Engine}.

(** [(filterText ?? "").trim().toLowerCase()]. *)
Definition filter_text (filterText : string) : string := toLowerCase (trim filterText).

Definition render (types : list string) (filterText : string) : list string :=
  let ft := filter_text filterText in
  let filtered :=
    if negb (nonempty ft) then types
    else List.filter (fun x => includes (toLowerCase x) ft) types in
  take 1500 filtered.

(** What the user can do while the modal is open.  [Click] and [DblClick]
    name an item of the drawn list by its position. *)
Inductive ModalEvent : Type :=
| Input (text : string)
| Click (position : nat)
| DblClick (position : nat)
| KeyDown (key : string)
| ClickCancel
| ClickOk.

Definition open_modal (types : list string) (initialQuery : string) : Modal :=
  {| search_value := initialQuery; chosen := None;
     shown := render types initialQuery; resolved := None |}.

Definition resolve (r : option string) (m : Modal) : Modal :=
  {| search_value := search_value m; chosen := chosen m; shown := shown m;
     resolved := Some r |}.

(** One event.  Once the promise is resolved the overlay and the key
    listener are gone and no handler runs any more. *)
Definition modal_step (types : list string) (m : Modal) (e : ModalEvent) : Modal :=
  match resolved m with
  | Some _ => m
  | None =>
      match e with
      | Input text =>
          let ft := filter_text text in
          let chosen' :=
            match chosen m with
            | Some c =>
                if (nonempty c && nonempty ft && negb (includes (toLowerCase c) ft))%bool
                then None
                else Some c
            | None => None
            end in
          {| search_value := text; chosen := chosen';
             shown := render types text; resolved := None |}
      | Click position =>
          match shown m !! position with
          | Some type =>
              {| search_value := search_value m; chosen := Some type;
                 shown := render types (search_value m); resolved := None |}
          | None => m
          end
      | DblClick position =>
          match shown m !! position with
          | Some type => resolve (Some type) m
          | None => m
          end
      | KeyDown key =>
          if String.eqb key "Escape" then resolve None m
          else if String.eqb key "Enter" then
            match chosen m with
            | Some c => if nonempty c then resolve (Some c) m else m
            | None => m
            end
          else m
      | ClickCancel => resolve None m
      | ClickOk =>
          match chosen m with
          | Some c => if nonempty c then resolve (Some c) m else m
          | None => m
          end
      end
  end.

(** The modal under a sequence of user events; the promise's value when
    it got resolved. *)
Definition run_modal (types : list string) (initialQuery : string)
  (events : list ModalEvent) : Modal :=
  fold_left (modal_step types) events (open_modal types initialQuery).

Definition searchNodesModal (types : list string) (initialQuery : string)
  (events : list ModalEvent) : option (option string) :=
  resolved (run_modal types initialQuery events).
End SearchModal.

(** *** runReplaceNodeFlow

    The flow stops at its [await] of the modal until the promise resolves;
    [Waiting] is the flow suspended there. *)
Inductive Flow (Host : Type) : Type :=
| Finished (st : TKP_STATE) (graph : Run Host)
| Waiting (st : TKP_STATE) (graph : Run Host).
Arguments Finished {Host} st graph.
Arguments Waiting {Host} st graph.

Definition set_open (b : bool) (st : TKP_STATE) : TKP_STATE :=
  {| isOpen := b; ioCache := ioCache st; ioCacheBuilt := ioCacheBuilt st |}.

Section Flow.
Context `{!Engine} {Host : Type} `{!HostAPI Host}.
Variable localeCompare : string -> string -> Z.
Variable StringToNumber : string -> number.
Variable ToString : value -> string.
Variable LiteGraph : option LiteGraphGlobal.
(** [graph.setDirtyCanvas?.(true, true); app.canvas?.draw?.(true, true)]. *)
Variable redraw : World Host -> World Host.
(** What else happens to the graph while the modal is open. *)
Variable meanwhile : Run Host -> Run Host.

Definition redrawn (g : Run Host) : Run Host :=
  {| world := redraw (world g); calls := calls g |}.

Definition runReplaceNodeFlow (app : AppView) (events : list ModalEvent)
  (st : TKP_STATE) (graph : Run Host) (node : option ref) : Flow Host :=
  if isOpen st then Finished st graph
  else
    let st := set_open true st in
    let node :=
      match node with
      | Some n => Some n
      | None => getSingleSelectedNode app
      end in
    match node with
    | None => Finished (set_open false st) graph
    | Some node =>
        if negb (has_graph app) then Finished (set_open false st) graph
        else
          let st := ensureIOCacheBuilt LiteGraph st in
          let candidates :=
            getValidReplacementsFromConnections localeCompare st (world graph)
              (heap (world graph) !!! node) in
          match candidates with
          | [] => Finished (set_open false st) graph
          | _ =>
              match searchNodesModal candidates "" events with
              | None => Waiting st graph
              | Some picked =>
                  let graph := meanwhile graph in
                  match picked with
                  | None => Finished (set_open false st) graph
                  | Some type_chosen =>
                      if (negb (nonempty type_chosen)
                          || String.eqb type_chosen (type (heap (world graph) !!! node)))%bool
                      then Finished (set_open false st) graph
                      else
                        Finished (set_open false st)
                          (redrawn (replaceNode StringToNumber ToString LiteGraph
                                      graph node type_chosen))
                  end
              end
          end
    end.
End Flow.

End ReplaceFlow.

Import ReplaceFlow.

(** ** The node context menu entry (Menu_Node_Replacement.js) *)

Module MenuPatch.

(** What a menu callback does when it is the entry added here; the host's
    own callbacks are told apart by a number. *)
Inductive Action : Type :=
| HostAction (id : nat)
| ReplaceNode (node : ref).

(** An element of the options array: [null] (a separator; [undefined]
    behaves the same here), a primitive value, or an option object with its
    [content] when that is a string. *)
Inductive MenuEntry : Type :=
| Null
| Primitive
| MenuOption (content : option string) (callback : Action).

(** [arr.findIndex(p)]; [None] is [-1]. *)
Fixpoint findIndex {A : Type} (p : A -> bool) (arr : list A) : option nat :=
  match arr with
  | [] => None
  | x :: rest => if p x then Some 0%nat else S <$> findIndex p rest
  end.

(** [arr.splice(start, 0, ...items)] for [0 <= start <= arr.length]. *)
Definition splice_in {A : Type} (start : nat) (items arr : list A) : list A :=
  take start arr ++ items ++ drop start arr.

Definition quote : string := String (ascii_of_nat 34) EmptyString.

Definition replace_content : string :=
  "<i class=" +:+ quote +:+ "pi pi-refresh" +:+ quote +:+ " style=" +:+ quote
  +:+ "margin-right:8px;" +:+ quote +:+ "></i>Replace Node…".

(** [typeof c === "string" && c.toLowerCase().includes("replace node")] on
    [o?.content].  No character outside ASCII lowers to a letter of
    [replace node], so lower-casing the letters A to Z decides this test
    as the engine's [toLowerCase] does. *)
Definition mentions_replace (o : MenuEntry) : bool :=
  match o with
  | MenuOption (Some c) _ => includes (ascii_toLowerCase c) "replace node"
  | _ => false
  end.

(** [x && typeof x === "object"]. *)
Definition is_object (x : MenuEntry) : bool :=
  match x with
  | MenuOption _ _ => true
  | _ => false
  end.

Definition replaceOption (node : ref) : MenuEntry :=
  MenuOption (Some replace_content) (ReplaceNode node).

(** The function installed as [LGraphCanvas.prototype.getNodeMenuOptions].
    [orig] is the function it replaces, if there was one; that one returns
    an array, or [null]/[undefined] ([None]), or throws. *)
Definition getNodeMenuOptions
  (orig : option (ref -> outcome (option (list MenuEntry)))) (node : ref)
  : outcome (list MenuEntry) :=
  let options :=
    match orig with
    | Some orig =>
        match orig node with
        | Returned options => options
        | Threw => Some []
        end
    | None => Some []
    end in
  match options with
  | None =>
      (* [options?.some(...)] is [undefined]; [options.findIndex] throws. *)
      Threw
  | Some options =>
      if existsb mentions_replace options then Returned options
      else
        match findIndex is_object options with
        | None => Returned (options ++ [replaceOption node])
        | Some firstReal =>
            Returned (splice_in firstReal [replaceOption node; Null] options)
        end
  end.

End MenuPatch.

Import MenuPatch.

(** ** The CivitAI library panel: filter lists, dropdowns, the size slider *)

Module CivitaiFilters.

(** [arr.map(f)] for an [f] that may throw. *)
Fixpoint map_outcome {A B : Type} (f : A -> outcome B) (arr : list A)
  : outcome (list B) :=
  match arr with
  | [] => Returned []
  | x :: rest =>
      match f x, map_outcome f rest with
      | Returned y, Returned ys => Returned (y :: ys)
      | _, _ => Threw
      end
  end.

(** [(s || "").trim()]; [.trim()] on a value that is not a string raises a
    TypeError. *)
Definition trimmed_text `{!Engine} (s : value) : outcome string :=
  match (if truthy s then s else VString "") with
  | VString text => Returned (trim text)
  | _ => Threw
  end.

(** A [<select>]: the values of its options and its current value. *)
Record Select : Type := {
  option_values : list string;
  selected : string;
}.

Section Lists.
Context `{!Engine}.
(** The engine's [String(v)] and [s.toLowerCase()]. *)
Variable ToString : value -> string.
Variable lowerCase : string -> string.

(** [typeof x === "string" ? x : (x?.name || String(x || ""))]. *)
Definition item_text (x : value) : value :=
  match x with
  | VString s => VString s
  | _ =>
      let name := optional_get x "name" in
      if truthy name then name
      else VString (if truthy x then ToString x else "")
  end.

Definition _asStringList (arr : value) : outcome (list string) :=
  match arr with
  | VArray elems =>
      match map_outcome trimmed_text (item_text <$> elems) with
      | Returned strings => Returned (List.filter nonempty strings)
      | Threw => Threw
      end
  | _ => Returned []
  end.

(** One iteration of the loop of [_withAnyTop] over [out]. *)
Definition dedup_step (acc : list string * gset string) (v : string)
  : list string * gset string :=
  let '(dedup, seen) := acc in
  let key := lowerCase v in
  if bool_decide (key ∈ seen) then (dedup, seen)
  else (dedup ++ [v], {[ key ]} ∪ seen).

Definition _withAnyTop (items : value) : outcome (list string) :=
  match _asStringList items with
  | Threw => Threw
  | Returned out =>
      let dedup := (fold_left dedup_step out ([], ∅)).1 in
      let filtered :=
        List.filter (fun x => negb (String.eqb (lowerCase x) "any")) dedup in
      Returned ("Any" :: filtered)
  end.

(** [fillSelect(selectEl, values, keepValue)]; the element is left as it
    was when [normalizeListWithAny] throws. *)
Definition fillSelect (selectEl : Select) (values : value) (keepValue : bool)
  : outcome Select :=
  let cur := if keepValue then selected selectEl else "" in
  match normalizeListWithAny ToString values with
  | Threw => Threw
  | Returned normalized =>
      Returned
        {| option_values := normalized;
           selected :=
             if (keepValue && bool_decide (cur ∈ normalized))%bool then cur
             else "Any" |}
  end.

Definition setPreviewSize (v : number) (localStorage : gmap string string)
  : gmap string string :=
  <[ LS_KEY_SIZE := ToString (VNumber v) ]> localStorage.

(** The slider's [oninput] with [e.target.value]: the size it shows and the
    storage it leaves. *)
Definition sizeSlider_oninput (target_value : string)
  (localStorage : gmap string string) : number * gmap string string :=
  let v :=
    clamp (parseInt10 (if nonempty target_value then target_value else "256"))
      (number_of_Z 128) (number_of_Z 2048) in
  (v, setPreviewSize v localStorage).

End Lists.

End CivitaiFilters.

Import CivitaiFilters.

Module PanelExample.

(** A [String(v)] for the values the slider stores: integers and [NaN]. *)
Definition integer_ToString (v : value) : string :=
  match v with
  | VNumber (Finite q) => decimal (Qnum q)
  | VNumber NaN => "NaN"
  | _ => EmptyString
  end.

End PanelExample.

(** ** The Prompt Library panel: the search filter *)

Module PromptLibrary.

(** [arr.filter(p)] for a [p] that may throw. *)
Fixpoint filter_outcome {A : Type} (p : A -> outcome bool) (arr : list A)
  : outcome (list A) :=
  match arr with
  | [] => Returned []
  | x :: rest =>
      match p x with
      | Threw => Threw
      | Returned keep =>
          match filter_outcome p rest with
          | Threw => Threw
          | Returned kept => Returned (if keep then x :: kept else kept)
          end
      end
  end.

Section Filter.
Context `{!Engine}.
(** The engine's [String(v)] and [s.toLowerCase()]. *)
Variable ToString : value -> string.
Variable lowerCase : string -> string.

(** [(v || "").toLowerCase()]; a truthy value that is not a string has no
    [toLowerCase], the call raises a TypeError. *)
Definition lowered (v : value) : outcome string :=
  match (if truthy v then v else VString "") with
  | VString s => Returned (lowerCase s)
  | _ => Threw
  end.

(** [arr.join(sep)]: [null] and [undefined] elements give the empty
    string. *)
Definition join_text (v : value) : string :=
  match v with
  | VUndefined | VNull => ""
  | VString s => s
  | _ => ToString v
  end.

Definition Array_join (sep : string) (elems : list value) : string :=
  String.concat sep (join_text <$> elems).

(** The predicate of the filter, for the query [q].  Reading a property of
    [null] or [undefined] raises a TypeError; the four texts are computed
    before any of them is searched. *)
Definition matches (q : string) (it : value) : outcome bool :=
  if nullish it then Threw
  else
    match lowered (optional_get it "title") with
    | Threw => Threw
    | Returned t =>
        match lowered (optional_get it "category") with
        | Threw => Threw
        | Returned c =>
            let tags :=
              match optional_get it "tags" with
              | VArray elems => lowerCase (Array_join " " elems)
              | _ => ""
              end in
            match lowered (optional_get it "id") with
            | Threw => Threw
            | Returned id =>
                Returned (includes t q || includes c q || includes tags q
                          || includes id q)
            end
        end
    end.

(** [applySearchFilter()] with the search field's text and [allItems]. *)
Definition applySearchFilter (searchValue : string) (allItems : list value)
  : outcome (list value) :=
  let q := lowerCase (trim searchValue) in
  if negb (nonempty q) then Returned allItems
  else filter_outcome (matches q) allItems.

End Filter.

End PromptLibrary.

Import PromptLibrary.

(** ** The example engine

    The primitives on ASCII text, with the proofs that they satisfy what
    [Engine] asks for.  Concrete runs are made with it. *)

Definition ascii_engine : Engine.
Proof.
  assert (forall c, graphic c = true -> ascii_space c = false) as Hgraphic.
  { intros c. unfold graphic, ascii_space. generalize (nat_of_ascii c). intros n H.
    apply andb_true_iff in H as [H1 H2].
    apply Nat.leb_le in H1. apply Nat.leb_le in H2.
    apply orb_false_iff. split.
    - apply andb_false_iff. right. apply Nat.leb_gt. lia.
    - apply Nat.eqb_neq. lia. }
  refine {| toLowerCase := ascii_toLowerCase;
            toLocaleLowerCase := ascii_toLowerCase;
            trim := ascii_trim;
            trimStart := ascii_trimStart;
            replace_white_space := ascii_collapse false;
            trim_trim := _;
            trimStart_graphic := _;
            trim_visible := _ |}.
  - intros s. unfold ascii_trim.
    assert (ascii_trimStart s = ""
            \/ exists c r, ascii_trimStart s = String c r /\ ascii_space c = false)
      as Hhead.
    { induction s as [|c r IH]; simpl; [by left|].
      destruct (ascii_space c) eqn:Hc; [exact IH|right; eauto]. }
    assert (ascii_trimStart (ascii_trimEnd (ascii_trimStart s))
            = ascii_trimEnd (ascii_trimStart s)) as ->.
    { destruct Hhead as [->|(c & r & -> & Hc)]; [reflexivity|]. simpl.
      destruct (ascii_trimEnd r); rewrite ?Hc; simpl; by rewrite Hc. }
    generalize (ascii_trimStart s). clear. intros s.
    induction s as [|c r IH]; simpl; [reflexivity|].
    destruct (ascii_trimEnd r) as [|c' r'] eqn:E.
    + destruct (ascii_space c) eqn:Hc; simpl; [reflexivity|]. by rewrite Hc.
    + simpl. simpl in IH. by rewrite IH.
  - intros c r H. simpl. by rewrite (Hgraphic c H).
  - intros s H. unfold ascii_trim.
    assert (ascii_trimStart s = s) as ->.
    { destruct s as [|c r]; [reflexivity|].
      simpl in H. apply andb_true_iff in H as [Hc _]. simpl. by rewrite (Hgraphic c Hc). }
    induction s as [|c r IH]; simpl; [reflexivity|].
    simpl in H. apply andb_true_iff in H as [Hc Hr]. rewrite (IH Hr).
    destruct r; [|reflexivity]. by rewrite (Hgraphic c Hc).
Defined.

(** ** Theorems *)

(** *** typeCompatible *)

Section TypeFacts.
Context {engine : Engine}.

Lemma wildcard_eqb (s : string) :
  (String.eqb (toLowerCase s) "*" || String.eqb (toLowerCase s) "any")%bool = true
  <-> wildcard s.
Proof.
  unfold wildcard. rewrite orb_true_iff, !String.eqb_eq. tauto.
Qed.

Lemma typeCompatible_strings (a b : string) :
  a <> "" -> b <> "" ->
  typeCompatible (Some a) (Some b) = true
  <-> wildcard a \/ wildcard b \/ toLowerCase a = toLowerCase b.
Proof.
  intros Ha Hb. unfold typeCompatible. simpl.
  destruct a as [|ca ra]; [congruence|]. destruct b as [|cb rb]; [congruence|].
  cbn [nonempty negb].
  destruct (String.eqb _ "*" || String.eqb _ "any")%bool eqn:EA.
  - apply wildcard_eqb in EA. tauto.
  - destruct (String.eqb (toLowerCase (String cb rb)) "*"
              || String.eqb (toLowerCase (String cb rb)) "any")%bool eqn:EB.
    + apply wildcard_eqb in EB. tauto.
    + rewrite String.eqb_eq. split; [tauto|].
      intros [H|[H|H]]; [| |exact H].
      * apply wildcard_eqb in H. congruence.
      * apply wildcard_eqb in H. congruence.
Qed.

(** C8.  On non-empty type strings [typeCompatible] is symmetric; a wildcard
    (["*"] or ["any"], in any letter case) on either side is compatible with
    every non-empty type; two non-wildcard types are compatible exactly when
    they are equal ignoring case; an empty or null required type accepts
    every candidate, and a non-empty required type rejects an empty or null
    candidate. *)
Theorem typeCompatible_spec (a b : string) (Ha : a <> "") (Hb : b <> "") :
  typeCompatible (Some a) (Some b) = typeCompatible (Some b) (Some a)
  /\ (wildcard a ->
      typeCompatible (Some a) (Some b) = true
      /\ typeCompatible (Some b) (Some a) = true)
  /\ (~ wildcard a -> ~ wildcard b ->
      (typeCompatible (Some a) (Some b) = true <-> toLowerCase a = toLowerCase b))
  /\ (forall c, typeCompatible None c = true /\ typeCompatible (Some "") c = true)
  /\ typeCompatible (Some a) None = false
  /\ typeCompatible (Some a) (Some "") = false.
Proof.
  pose proof (typeCompatible_strings a b Ha Hb) as Hab.
  pose proof (typeCompatible_strings b a Hb Ha) as Hba.
  split; [|split; [|split; [|split; [|split]]]].
  - apply eq_true_iff_eq. rewrite Hab, Hba. intuition congruence.
  - intros Hw. split; [apply Hab | apply Hba]; tauto.
  - intros Hna Hnb. rewrite Hab. tauto.
  - intros c. split; reflexivity.
  - destruct a; [congruence|reflexivity].
  - destruct a; [congruence|reflexivity].
Qed.

End TypeFacts.

Section TypeWitness.
#[local] Existing Instance ascii_engine.

Lemma typeCompatible_spec_witness :
  "IMAGE" <> "" /\ "Image" <> ""
  /\ ~ wildcard "IMAGE" /\ ~ wildcard "Image"
  /\ toLowerCase "IMAGE" = toLowerCase "Image"
  /\ typeCompatible (Some "IMAGE") (Some "Image") = true.
Proof.
  assert (~ wildcard "IMAGE") as Ha by (intros [H|H]; discriminate H).
  assert (~ wildcard "Image") as Hb by (intros [H|H]; discriminate H).
  split; [discriminate|]. split; [discriminate|].
  split; [exact Ha|]. split; [exact Hb|]. split; [reflexivity|].
  exact (proj2 (proj1 (proj2 (proj2 (typeCompatible_spec "IMAGE" "Image"
                                       ltac:(discriminate) ltac:(discriminate))))
                  Ha Hb) eq_refl).
Defined.
End TypeWitness.

(** *** [Array.prototype.sort] under a consistent comparator *)

Section SortFacts.
Context {A : Type} (cmp : A -> A -> Z).

Lemma sort_insert_perm (x : A) (l : list A) : sort_insert cmp x l ≡ₚ x :: l.
Proof.
  induction l as [|y t IH]; simpl; [reflexivity|].
  destruct (cmp x y <=? 0); [reflexivity|].
  rewrite IH. apply Permutation_swap.
Qed.

Lemma sort_perm (l : list A) : sort cmp l ≡ₚ l.
Proof.
  induction l as [|x t IH]; simpl; [reflexivity|].
  rewrite sort_insert_perm. by rewrite IH.
Qed.

Hypothesis cmp_total : forall x y, cmp x y <= 0 \/ cmp y x <= 0.
Hypothesis cmp_trans : forall x y z, cmp x y <= 0 -> cmp y z <= 0 -> cmp x z <= 0.

Lemma sort_insert_sorted (x : A) (l : list A) :
  StronglySorted (ascending cmp) l -> StronglySorted (ascending cmp) (sort_insert cmp x l).
Proof.
  induction l as [|y t IH]; simpl; intros Hs.
  - repeat constructor.
  - apply StronglySorted_inv in Hs as [Ht Hy].
    destruct (Z.leb_spec (cmp x y) 0) as [Hle|Hgt].
    + constructor; [by constructor|].
      constructor; [exact Hle|].
      eapply Forall_impl; [exact Hy|]. intros z Hz. by eapply cmp_trans.
    + constructor; [by apply IH|].
      rewrite sort_insert_perm. constructor; [|exact Hy].
      destruct (cmp_total x y) as [H|H]; [lia|exact H].
Qed.

Lemma sort_sorted (l : list A) : StronglySorted (ascending cmp) (sort cmp l).
Proof.
  induction l as [|x t IH]; simpl; [constructor|].
  by apply sort_insert_sorted.
Qed.
End SortFacts.

(** *** Sparse arrays built by [forEach] *)

Lemma array_set_lookup {A : Type} (arr : list (option A)) (idx i : nat) (v : option A) :
  mjoin (array_set arr idx v !! i) = if decide (i = idx) then v else mjoin (arr !! i).
Proof.
  revert arr i. induction idx as [|k IH]; intros arr i.
  - destruct arr as [|h t], i as [|i]; simpl; try reflexivity.
  - destruct arr as [|h t], i as [|i]; simpl; try reflexivity.
    + rewrite IH. destruct (decide (i = k)), (decide (S i = S k)); try lia; reflexivity.
    + rewrite IH. destruct (decide (i = k)), (decide (S i = S k)); try lia; reflexivity.
Qed.

Section SparseBuild.
Context {X A : Type} (assign : X -> option (option A)).

Lemma fill_from_lookup (l : list X) (k : nat) (acc : list (option A)) (i : nat) :
  (forall j, (k <= j)%nat -> mjoin (acc !! j) = None) ->
  mjoin (forEach_from (fill_step assign) l k acc !! i) =
    if decide (i < k)%nat then mjoin (acc !! i)
    else mjoin ((l !! (i - k)%nat) ≫= assign).
Proof.
  revert k acc. induction l as [|x t IH]; intros k acc Hacc; simpl.
  - destruct (decide (i < k)%nat); [reflexivity|]. apply Hacc. lia.
  - rewrite IH.
    + unfold fill_step. destruct (decide (i < S k)%nat), (decide (i < k)%nat); try lia.
      * destruct (assign x); [|reflexivity].
        rewrite array_set_lookup. destruct (decide (i = k)); [lia|reflexivity].
      * assert (i = k) as -> by lia. replace (k - k)%nat with O by lia. simpl.
        destruct (assign x) as [v|]; simpl.
        -- rewrite array_set_lookup. by destruct (decide (k = k)).
        -- apply Hacc. lia.
      * replace (i - k)%nat with (S (i - S k)) by lia. reflexivity.
    + intros j Hj. unfold fill_step. destruct (assign x); [|apply Hacc; lia].
      rewrite array_set_lookup. destruct (decide (j = k)); [lia|]. apply Hacc. lia.
Qed.

Lemma fill_lookup (l : list X) (i : nat) :
  mjoin (forEach (fill_step assign) l [] !! i) = mjoin ((l !! i) ≫= assign).
Proof.
  unfold forEach. rewrite fill_from_lookup.
  - destruct (decide (i < 0)%nat); [lia|]. by replace (i - 0)%nat with i by lia.
  - intros j _. by destruct j.
Qed.
End SparseBuild.

(** *** The compatibility search *)

Lemma forEach_from_ext {A S : Type} (f g : S -> A -> nat -> S) (l : list A)
  (k : nat) (acc : S) :
  (forall a x i, f a x i = g a x i) ->
  forEach_from f l k acc = forEach_from g l k acc.
Proof.
  intros Hfg. revert k acc. induction l as [|x t IH]; intros k acc; simpl; [reflexivity|].
  by rewrite Hfg, IH.
Qed.

Lemma highest_from (arr : list (option string)) (k : nat) (hi : Z) (n : nat) :
  hi < Z.of_nat k ->
  forEach_from (fun hi x i => if bool_decide (is_Some x) then Z.of_nat i else hi) arr k hi
    < Z.of_nat n
  <-> hi < Z.of_nat n
      /\ forall i t, mjoin (arr !! i) = Some t -> (k + i < n)%nat.
Proof.
  revert k hi. induction arr as [|x rest IH]; intros k hi Hk; simpl.
  - split; [intros H; split; [exact H|intros i t; discriminate]|tauto].
  - destruct x as [s|]; simpl; rewrite IH by lia.
    + split.
      * intros [Hkn Hrest]. split; [lia|].
        intros [|i] t Hi; [lia|]. specialize (Hrest i t Hi). lia.
      * intros [Hhi Hall]. split.
        -- specialize (Hall O s eq_refl). lia.
        -- intros i t Hi. specialize (Hall (S i) t Hi). lia.
    + split.
      * intros [Hhi Hrest]. split; [exact Hhi|].
        intros [|i] t Hi; [discriminate|]. specialize (Hrest i t Hi). lia.
      * intros [Hhi Hall]. split; [exact Hhi|].
        intros i t Hi. specialize (Hall (S i) t Hi). lia.
Qed.

Lemma highest_bound (arr : list (option string)) (n : nat) :
  (Z.of_nat n <? highestRequiredIndex arr + 1) = false
  <-> forall i t, mjoin (arr !! i) = Some t -> (i < n)%nat.
Proof.
  rewrite Z.ltb_ge. unfold highestRequiredIndex, forEach.
  pose proof (highest_from arr O (-1) n) as H.
  split.
  - intros Hle i t Hi. apply H in Hi; [exact Hi|lia|lia].
  - intros Hall.
    assert (forEach_from
              (fun hi x i => if bool_decide (is_Some x) then Z.of_nat i else hi)
              arr O (-1) < Z.of_nat n) as Hlt; [|lia].
    apply H; [lia|]. split; [lia|]. intros i t Hi. simpl. eauto.
Qed.

Lemma matchRequired_from_spec {engine : Engine} (required : list (option string))
  (candidate : list slot_type) (k : nat) :
  matchRequired_from required candidate k = true
  <-> forall i t, mjoin (required !! i) = Some t ->
                  typeCompatible (Some t) (mjoin (candidate !! (k + i)%nat)) = true.
Proof.
  revert k. induction required as [|r rest IH]; intros k; simpl.
  - split; [intros _ i t; discriminate|reflexivity].
  - destruct r as [s|]; simpl.
    + destruct (typeCompatible (Some s) (mjoin (candidate !! k))) eqn:E; simpl.
      * rewrite IH. split.
        -- intros Hrest [|i] t Hi.
           ++ simpl in Hi. injection Hi as <-. by rewrite Nat.add_0_r.
           ++ replace (k + S i)%nat with (S k + i)%nat by lia. by apply Hrest.
        -- intros Hall i t Hi. replace (S k + i)%nat with (k + S i)%nat by lia.
           by apply Hall.
      * split; [discriminate|]. intros Hall.
        specialize (Hall O s eq_refl). rewrite Nat.add_0_r in Hall. congruence.
    + rewrite IH. split.
      * intros Hrest [|i] t Hi; [discriminate|].
        replace (k + S i)%nat with (S k + i)%nat by lia. by apply Hrest.
      * intros Hall i t Hi. replace (S k + i)%nat with (k + S i)%nat by lia.
        by apply Hall.
Qed.

Lemma matchRequired_spec {engine : Engine} (required : list (option string))
  (candidate : list slot_type) :
  matchRequired required candidate = true
  <-> forall i t, mjoin (required !! i) = Some t ->
                  typeCompatible (Some t) (mjoin (candidate !! i)) = true.
Proof. unfold matchRequired. by rewrite matchRequired_from_spec. Qed.

Section SearchFacts.
Context {engine : Engine} {Host : Type} `{!HostAPI Host}.

Lemma requiredInputs_lookup (graph : World Host) (oldNode : LGraphNode) (i : nat) :
  mjoin (requiredInputs graph oldNode !! i)
  = mjoin (inputs_of oldNode !! i ≫= input_assignment graph).
Proof.
  rewrite <- fill_lookup. f_equal. f_equal.
  unfold requiredInputs, forEach. apply forEach_from_ext.
  intros acc inp idx. unfold fill_step, input_assignment, incoming_link.
  destruct (in_link inp) as [linkId|]; simpl; [|reflexivity].
  destruct (links graph !! linkId); reflexivity.
Qed.

Lemma requiredOutputs_lookup (oldNode : LGraphNode) (j : nat) :
  mjoin (requiredOutputs oldNode !! j)
  = mjoin (outputs_of oldNode !! j ≫= output_assignment).
Proof.
  rewrite <- fill_lookup. f_equal. f_equal.
  unfold requiredOutputs, forEach. apply forEach_from_ext.
  intros acc out idx. unfold fill_step, output_assignment.
  by destruct (out_links out) as [[|? ?]|].
Qed.

Lemma required_input_iff (graph : World Host) (oldNode : LGraphNode) (i : nat) (t : string) :
  mjoin (requiredInputs graph oldNode !! i) = Some t
  <-> exists inp link,
      inputs_of oldNode !! i = Some inp
      /\ incoming_link graph inp = Some link
      /\ link_required_type graph inp link = Some t.
Proof.
  rewrite requiredInputs_lookup. unfold input_assignment.
  destruct (inputs_of oldNode !! i) as [inp|]; simpl.
  - destruct (incoming_link graph inp) as [link|] eqn:E; simpl.
    + split; [eauto|]. intros (? & ? & ? & ? & ?). by simplify_eq.
    + split; [discriminate|]. intros (? & ? & ? & ? & ?). by simplify_eq.
  - split; [discriminate|]. by intros (? & ? & ? & _).
Qed.

Lemma required_output_iff (oldNode : LGraphNode) (j : nat) (t : string) :
  mjoin (requiredOutputs oldNode !! j) = Some t
  <-> exists out,
      outputs_of oldNode !! j = Some out
      /\ output_connected out
      /\ out_type out = Some t.
Proof.
  rewrite requiredOutputs_lookup. unfold output_assignment, output_connected.
  destruct (outputs_of oldNode !! j) as [out|]; simpl.
  - destruct (out_links out) as [[|l ls]|] eqn:E; simpl.
    + split; [discriminate|]. intros (? & ? & (? & ? & ?) & ?). by simplify_eq.
    + split; [eauto 6|]. intros (? & ? & _ & ?). by simplify_eq.
    + split; [discriminate|]. intros (? & ? & (? & ? & ?) & ?). by simplify_eq.
  - split; [discriminate|]. by intros (? & ? & _).
Qed.
End SearchFacts.

Section SearchResult.
Context {engine : Engine} {Host : Type} `{!HostAPI Host}.

Lemma accepts_spec (graph : World Host) (oldNode : LGraphNode)
  (typeName : string) (sig : Signature) :
  accepts (requiredInputs graph oldNode) (requiredOutputs oldNode) (type oldNode)
    (typeName, sig) = true
  <-> typeName <> type oldNode /\ fits_wiring graph oldNode sig.
Proof.
  unfold accepts, fits_wiring. simpl.
  rewrite !andb_true_iff, !negb_true_iff, !highest_bound, !matchRequired_spec.
  rewrite String.eqb_neq.
  split.
  - intros ((((Hne & Hin) & Hout) & Hmi) & Hmo). split; [exact Hne|]. split.
    + intros i inp link t H1 H2 H3.
      assert (mjoin (requiredInputs graph oldNode !! i) = Some t) as Hr
        by (apply required_input_iff; eauto).
      eauto.
    + intros j out t H1 H2 H3.
      assert (mjoin (requiredOutputs oldNode !! j) = Some t) as Hr
        by (apply required_output_iff; eauto).
      eauto.
  - intros (Hne & Hi & Ho). repeat split; try exact Hne.
    + intros i t (inp & link & H1 & H2 & H3)%required_input_iff.
      by apply (Hi i inp link t).
    + intros j t (out & H1 & H2 & H3)%required_output_iff.
      by apply (Ho j out t).
    + intros i t (inp & link & H1 & H2 & H3)%required_input_iff.
      by apply (Hi i inp link t).
    + intros j t (out & H1 & H2 & H3)%required_output_iff.
      by apply (Ho j out t).
Qed.

Lemma scan_filter (reqIn reqOut : list (option string)) (own : string)
  (cache : IOCache) (acc : list string) :
  fold_left
    (fun results '(typeName, sig) =>
       if String.eqb typeName own then results
       else if Z.of_nat (length (inTypes sig)) <? highestRequiredIndex reqIn + 1
            then results
       else if Z.of_nat (length (outTypes sig)) <? highestRequiredIndex reqOut + 1
            then results
       else if negb (matchRequired reqIn (inTypes sig)) then results
       else if negb (matchRequired reqOut (outTypes sig)) then results
       else (results ++ [typeName])%list)
    cache acc
  = (acc ++ map fst (List.filter (accepts reqIn reqOut own) cache))%list.
Proof.
  revert acc. induction cache as [|[typeName sig] rest IH]; intros acc; simpl.
  - by rewrite app_nil_r.
  - rewrite IH. unfold accepts at 2. simpl.
    destruct (String.eqb typeName own); simpl; [reflexivity|].
    destruct (_ <? highestRequiredIndex reqIn + 1); simpl; [reflexivity|].
    destruct (_ <? highestRequiredIndex reqOut + 1); simpl; [reflexivity|].
    destruct (matchRequired reqIn (inTypes sig)); simpl; [|reflexivity].
    destruct (matchRequired reqOut (outTypes sig)); simpl; [|reflexivity].
    by rewrite <- app_assoc.
Qed.

Lemma search_is_sorted_filter (localeCompare : string -> string -> Z)
  (st : TKP_STATE) (cache : IOCache) (graph : World Host) (oldNode : LGraphNode) :
  ioCache st = Some cache ->
  getValidReplacementsFromConnections localeCompare st graph oldNode
  = sort localeCompare
      (map fst (List.filter
                  (accepts (requiredInputs graph oldNode) (requiredOutputs oldNode)
                     (type oldNode)) cache)).
Proof.
  intros Hc. unfold getValidReplacementsFromConnections. rewrite Hc.
  by rewrite scan_filter.
Qed.
End SearchResult.

(** *** The example collation is a consistent comparator *)

Lemma string_compare_trans (a b c : string) :
  String.compare a b <> Gt -> String.compare b c <> Gt -> String.compare a c <> Gt.
Proof.
  revert b c. induction a as [|x a IH]; intros [|y b] [|z c]; simpl; try congruence.
  unfold Ascii.compare.
  destruct (N.compare_spec (N_of_ascii x) (N_of_ascii y)) as [Hxy|Hxy|Hxy];
    destruct (N.compare_spec (N_of_ascii y) (N_of_ascii z)) as [Hyz|Hyz|Hyz];
    destruct (N.compare_spec (N_of_ascii x) (N_of_ascii z)) as [Hxz|Hxz|Hxz];
    try congruence; try lia.
  apply IH.
Qed.

Lemma ordinal_compare_total (a b : string) :
  Example.ordinal_compare a b <= 0 \/ Example.ordinal_compare b a <= 0.
Proof.
  unfold Example.ordinal_compare. rewrite (String.compare_antisym a b).
  destruct (String.compare b a); simpl; lia.
Qed.

Lemma ordinal_compare_trans (a b c : string) :
  Example.ordinal_compare a b <= 0 -> Example.ordinal_compare b c <= 0 ->
  Example.ordinal_compare a c <= 0.
Proof.
  unfold Example.ordinal_compare. intros Hab Hbc.
  pose proof (string_compare_trans a b c) as H.
  destruct (String.compare a b), (String.compare b c), (String.compare a c);
    try lia; exfalso; apply H; congruence.
Qed.

Lemma List_filter_sublist {A : Type} (f : A -> bool) (l : list A) :
  sublist (List.filter f l) l.
Proof.
  induction l as [|x t IH]; simpl; [constructor|].
  destruct (f x); by constructor.
Qed.

Lemma List_filter_fst {A B : Type} (f : A * B -> bool) (g : A -> bool) (l : list (A * B)) :
  (forall e, e ∈ l -> f e = g e.1) ->
  map fst (List.filter f l) = List.filter g (map fst l).
Proof.
  induction l as [|e t IH]; intros Hfg; simpl; [reflexivity|].
  rewrite <- (Hfg e) by constructor.
  rewrite <- IH by (intros e' He'; apply Hfg; by constructor).
  by destruct (f e).
Qed.

(** C5.  A node with no linked input and no output with a non-empty links
    array is constrained by nothing: the search returns every cached type
    except the node's own. *)
Theorem unwired_node_accepts_all {engine : Engine} {Host : Type} `{!HostAPI Host}
  (localeCompare : string -> string -> Z)
  (st : TKP_STATE) (cache : IOCache) (graph : World Host) (oldNode : LGraphNode)
  (Hcache : ioCache st = Some cache)
  (Hin : Forall (fun inp => in_link inp = None) (inputs_of oldNode))
  (Hout : Forall (fun out => out_links out = None \/ out_links out = Some [])
            (outputs_of oldNode)) :
  getValidReplacementsFromConnections localeCompare st graph oldNode
  ≡ₚ List.filter (fun typeName => negb (String.eqb typeName (type oldNode)))
       (map fst cache).
Proof.
  rewrite (search_is_sorted_filter localeCompare st cache graph oldNode Hcache).
  rewrite sort_perm.
  rewrite (List_filter_fst _ (fun typeName => negb (String.eqb typeName (type oldNode))));
    [reflexivity|].
  intros [typeName sig] _. simpl. apply eq_true_iff_eq.
  rewrite accepts_spec, negb_true_iff, String.eqb_neq.
  split; [tauto|]. intros Hne. split; [exact Hne|]. split.
  - intros i inp link t Hi Hlink _.
    rewrite Forall_forall in Hin.
    assert (in_link inp = None) as Hnone
      by (apply Hin, list_elem_of_lookup; eauto).
    unfold incoming_link in Hlink. rewrite Hnone in Hlink. discriminate.
  - intros j out t Hj (l & ls & Hl) _.
    rewrite Forall_forall in Hout.
    destruct (Hout out) as [Hnone|Hnil]; [|congruence|congruence].
    apply list_elem_of_lookup. eauto.
Qed.

Section UnwiredWitness.
#[local] Existing Instance ascii_engine.

Lemma unwired_node_accepts_all_witness :
  ioCache Example.sink_state = Some Example.sink_cache
  /\ Forall (fun inp => in_link inp = None) (inputs_of Example.unwired_node)
  /\ Forall (fun out => out_links out = None \/ out_links out = Some [])
       (outputs_of Example.unwired_node)
  /\ getValidReplacementsFromConnections Example.ordinal_compare Example.sink_state
       Example.untyped_world Example.unwired_node
     ≡ₚ List.filter (fun typeName => negb (String.eqb typeName (type Example.unwired_node)))
          (map fst Example.sink_cache).
Proof.
  assert (Forall (fun inp => in_link inp = None) (inputs_of Example.unwired_node))
    as Hin by constructor.
  assert (Forall (fun out => out_links out = None \/ out_links out = Some [])
            (outputs_of Example.unwired_node))
    as Hout by (repeat constructor; right; reflexivity).
  split; [reflexivity|]. split; [exact Hin|]. split; [exact Hout|].
  exact (unwired_node_accepts_all Example.ordinal_compare Example.sink_state
           Example.sink_cache Example.untyped_world Example.unwired_node
           eq_refl Hin Hout).
Defined.
End UnwiredWitness.

(** *** The type-signature cache *)

Lemma map_set_keys {V : Type} (k : string) (v : V) (m : list (string * V)) :
  map fst (map_set k v m) = if bool_decide (k ∈ map fst m) then map fst m
                            else (map fst m ++ [k])%list.
Proof.
  induction m as [|[k' v'] rest IH]; simpl; [reflexivity|].
  destruct (String.eqb_spec k' k) as [->|Hne]; simpl.
  - rewrite bool_decide_eq_true_2 by constructor. reflexivity.
  - rewrite IH. destruct (bool_decide (k ∈ map fst rest)) eqn:E.
    + apply bool_decide_eq_true in E.
      rewrite bool_decide_eq_true_2 by (by constructor). reflexivity.
    + apply bool_decide_eq_false in E.
      rewrite bool_decide_eq_false_2; [reflexivity|].
      intros Hin. apply elem_of_cons in Hin as [?|?]; congruence.
Qed.

Lemma map_set_NoDup {V : Type} (k : string) (v : V) (m : list (string * V)) :
  NoDup (map fst m) -> NoDup (map fst (map_set k v m)).
Proof.
  intros Hnd. rewrite map_set_keys. case_bool_decide as Hin; [exact Hnd|].
  apply NoDup_app. split; [exact Hnd|]. split.
  - intros x Hx Hk. apply list_elem_of_singleton in Hk. congruence.
  - apply NoDup_singleton.
Qed.

Lemma map_set_elem_of {V : Type} (k : string) (v : V) (m : list (string * V))
  (k' : string) (v' : V) :
  NoDup (map fst m) ->
  (k', v') ∈ map_set k v m <-> (k' = k /\ v' = v) \/ (k' <> k /\ (k', v') ∈ m).
Proof.
  induction m as [|[k0 v0] rest IH]; simpl; intros Hnd.
  - rewrite list_elem_of_singleton. split.
    + intros [= -> ->]. by left.
    + intros [[-> ->]|[_ H]]; [reflexivity|]. by apply elem_of_nil in H.
  - apply NoDup_cons in Hnd as [Hk0 Hnd].
    destruct (String.eqb_spec k0 k) as [->|Hne].
    + rewrite !elem_of_cons. split.
      * intros [[= -> ->]|Hin]; [by left|].
        right. split; [|by right]. intros ->. apply Hk0.
        apply list_elem_of_fmap. by exists (k, v').
      * intros [[-> ->]|[Hne [[= ? ?]|Hin]]]; [by left|congruence|by right].
    + rewrite !elem_of_cons, IH by exact Hnd. split.
      * intros [[= -> ->]|[[-> ->]|[Hne' Hin]]].
        -- right. split; [exact Hne|by left].
        -- by left.
        -- right. split; [exact Hne'|by right].
      * intros [[-> ->]|[Hne' [[= -> ->]|Hin]]].
        -- right. by left.
        -- by left.
        -- right. right. by split.
Qed.

(** What the cache holds after a build: one entry per registered type that
    the factory could instantiate, with that instance's slot types. *)
Lemma built_cache_entries (LiteGraph : option LiteGraphGlobal) (reg : list string)
  (acc : IOCache) :
  NoDup (map fst acc) ->
  (forall t sig, (t, sig) ∈ acc ->
     exists node, safeCreateNode LiteGraph t = Some node /\ sig = signature_of node) ->
  let cache :=
    fold_left
      (fun cache typeName =>
         match safeCreateNode LiteGraph typeName with
         | None => cache
         | Some node => map_set typeName (signature_of node) cache
         end)
      reg acc in
  NoDup (map fst cache)
  /\ forall t sig,
      (t, sig) ∈ cache <->
      ((t, sig) ∈ acc \/ t ∈ reg)
      /\ exists node, safeCreateNode LiteGraph t = Some node /\ sig = signature_of node.
Proof.
  revert acc. induction reg as [|typeName rest IH]; intros acc Hnd Hacc; simpl.
  - split; [exact Hnd|]. intros t sig. split.
    + intros Hin. split; [by left|by apply Hacc].
    + intros [[Hin|Hin] _]; [exact Hin|by apply elem_of_nil in Hin].
  - destruct (safeCreateNode LiteGraph typeName) as [node|] eqn:Hcreate.
    + destruct (IH (map_set typeName (signature_of node) acc)) as [Hnd' Hiff].
      * by apply map_set_NoDup.
      * intros t sig Hin. apply map_set_elem_of in Hin as [[-> ->]|[_ Hin]]; eauto.
      * split; [exact Hnd'|]. intros t sig. rewrite Hiff.
        rewrite map_set_elem_of by exact Hnd. rewrite elem_of_cons. split.
        -- intros [[[[-> ->]|[Hne Hin]]|Hin] Hex]; (split; [|exact Hex]); tauto.
        -- intros [[Hin|[->|Hin]] Hex]; (split; [|exact Hex]).
           ++ destruct (decide (t = typeName)) as [->|Hne]; [|tauto].
              left. left. split; [reflexivity|].
              destruct Hex as (node' & Hc & ->). congruence.
           ++ left. left. split; [reflexivity|].
              destruct Hex as (node' & Hc & ->). congruence.
           ++ by right.
    + destruct (IH acc Hnd Hacc) as [Hnd' Hiff]. split; [exact Hnd'|].
      intros t sig. rewrite Hiff, elem_of_cons. split.
      * intros [[Hin|Hin] Hex]; (split; [tauto|exact Hex]).
      * intros [[Hin|[->|Hin]] Hex]; (split; [|exact Hex]); [tauto| |tauto].
        destruct Hex as (node' & Hc & _). congruence.
Qed.

Lemma ensureIOCacheBuilt_builds (LiteGraph : option LiteGraphGlobal) (st : TKP_STATE) :
  ioCacheBuilt (ensureIOCacheBuilt LiteGraph st) = true
  /\ is_Some (ioCache (ensureIOCacheBuilt LiteGraph st)).
Proof.
  unfold ensureIOCacheBuilt.
  destruct (ioCacheBuilt st && bool_decide (is_Some (ioCache st)))%bool eqn:E.
  - apply andb_true_iff in E as [Hb Hc]. by apply bool_decide_eq_true in Hc.
  - destruct (LiteGraph ≫= registered_node_types); simpl; eauto.
Qed.

(** C6.  Once a call of [ensureIOCacheBuilt] has completed, any later call,
    whatever the registry and the factory have become, returns the state it
    was given: the cache map is neither rebuilt nor touched. *)
Theorem ensureIOCacheBuilt_idempotent (before after : option LiteGraphGlobal)
  (st : TKP_STATE) :
  ensureIOCacheBuilt after (ensureIOCacheBuilt before st)
  = ensureIOCacheBuilt before st.
Proof.
  destruct (ensureIOCacheBuilt_builds before st) as [Hbuilt Hcache].
  unfold ensureIOCacheBuilt at 1.
  rewrite Hbuilt. rewrite bool_decide_eq_true_2 by exact Hcache. reflexivity.
Qed.

(** *** The preview size *)

Lemma number_le_integers (a b : Z) :
  number_le (number_of_Z a) (number_of_Z b) = (a <=? b).
Proof.
  unfold number_of_Z, number_le, Qle_bool, inject_Z. simpl.
  by rewrite !Z.mul_1_r.
Qed.

Lemma clamp_integer (z : Z) :
  clamp (number_of_Z z) (number_of_Z 128) (number_of_Z 2048)
  = number_of_Z (Z.max 128 (Z.min 2048 z)).
Proof.
  unfold clamp.
  assert (Math_min (number_of_Z 2048) (number_of_Z z) = number_of_Z (Z.min 2048 z)) as ->.
  { unfold Math_min. change (number_of_Z 2048) with (Finite (inject_Z 2048)) at 1.
    change (number_of_Z z) with (Finite (inject_Z z)) at 1. cbv iota beta.
    change (Finite (inject_Z 2048)) with (number_of_Z 2048).
    change (Finite (inject_Z z)) with (number_of_Z z).
    rewrite number_le_integers.
    destruct (Z.leb_spec 2048 z); f_equal; lia. }
  unfold Math_max. set (m := Z.min 2048 z).
  change (number_of_Z 128) with (Finite (inject_Z 128)) at 1.
  change (number_of_Z m) with (Finite (inject_Z m)) at 1. cbv iota beta.
  change (Finite (inject_Z 128)) with (number_of_Z 128).
  change (Finite (inject_Z m)) with (number_of_Z m).
  rewrite number_le_integers.
  destruct (Z.leb_spec 128 m); f_equal; lia.
Qed.

Lemma number_of_integer_cases (z : Z) :
  number_of_integer z = number_of_Z z
  \/ exists negative, number_of_integer z = Infinity negative.
Proof.
  unfold number_of_integer. destruct (Z.abs z <? _); [by left|right; eauto].
Qed.

(** The numerals: digits, zeros, the decimal form of an integer. *)

Lemma digit_cases (d : Z) :
  0 <= d < 10 ->
  d = 0 \/ d = 1 \/ d = 2 \/ d = 3 \/ d = 4 \/ d = 5 \/ d = 6 \/ d = 7 \/ d = 8 \/ d = 9.
Proof. lia. Qed.

Lemma digit_of_digit (d : Z) :
  0 <= d < 10 -> digit_of (ascii_of_nat (48 + Z.to_nat d)) = Some d.
Proof.
  intros Hd.
  destruct (digit_cases d Hd) as [->|[->|[->|[->|[->|[->|[->|[->|[->| ->]]]]]]]]];
    reflexivity.
Qed.

Lemma digit_graphic (d : Z) :
  0 <= d < 10 -> graphic (ascii_of_nat (48 + Z.to_nat d)) = true.
Proof.
  intros Hd.
  destruct (digit_cases d Hd) as [->|[->|[->|[->|[->|[->|[->|[->|[->| ->]]]]]]]]];
    reflexivity.
Qed.

Lemma digit_of_bounds (c : ascii) :
  digit_of c = None <-> (nat_of_ascii c < 48 \/ 57 < nat_of_ascii c)%nat.
Proof.
  unfold digit_of. cbv zeta.
  destruct (Nat.leb_spec 48 (nat_of_ascii c)), (Nat.leb_spec (nat_of_ascii c) 57);
    cbn [andb]; split; try discriminate; try lia; reflexivity.
Qed.

Lemma no_leading_digit_take (s : string) : no_leading_digit s -> take_digits s = [].
Proof.
  intros Hs. destruct s as [|c r]; [reflexivity|]. cbn [take_digits].
  by rewrite (proj2 (digit_of_bounds c) (Hs c r eq_refl)).
Qed.

Lemma sign_match (s : string) :
  match s with
  | String "-" r => (true, r)
  | String "+" r => (false, r)
  | _ => (false, s)
  end
  = match s with
    | EmptyString => (false, s)
    | String c r =>
        if Ascii.eqb c "-" then (true, r)
        else if Ascii.eqb c "+" then (false, r) else (false, s)
    end.
Proof.
  destruct s as [|c r]; [reflexivity|].
  destruct c as [[] [] [] [] [] [] [] []]; reflexivity.
Qed.

Lemma append_nil_r (s : string) : s +:+ "" = s.
Proof.
  induction s as [|c r IH]; [reflexivity|].
  change (String c (r +:+ "") = String c r). by rewrite IH.
Qed.

Lemma decimal_digits_S (fuel : nat) (z : Z) (acc : string) :
  decimal_digits (S fuel) z acc
  = if z <? 10 then String (ascii_of_nat (48 + Z.to_nat (z mod 10))) acc
    else decimal_digits fuel (z / 10)
           (String (ascii_of_nat (48 + Z.to_nat (z mod 10))) acc).
Proof. reflexivity. Qed.

Lemma decimal_digits_app (fuel : nat) (z : Z) (acc rest : string) :
  decimal_digits fuel z acc +:+ rest = decimal_digits fuel z (acc +:+ rest).
Proof.
  revert z acc. induction fuel as [|fuel IH]; intros z acc; [reflexivity|].
  rewrite !decimal_digits_S. destruct (z <? 10); [reflexivity|].
  by rewrite IH.
Qed.

Lemma decimal_digits_spec (fuel : nat) (z : Z) (acc : string) :
  0 <= z < 10 ^ Z.of_nat (S fuel) ->
  exists ds d r,
    take_digits (decimal_digits (S fuel) z acc) = ds ++ take_digits acc
    /\ (forall a, fold_left (fun acc d => 10 * acc + d) ds a
                  = a * 10 ^ Z.of_nat (length ds) + z)
    /\ ds <> []
    /\ decimal_digits (S fuel) z acc = String (ascii_of_nat (48 + Z.to_nat d)) r
    /\ 0 <= d < 10.
Proof.
  revert z acc. induction fuel as [|fuel IH]; intros z acc Hz.
  - assert (z < 10) as Hlt by (change (10 ^ Z.of_nat 1) with 10 in Hz; lia).
    rewrite decimal_digits_S, (proj2 (Z.ltb_lt z 10) Hlt).
    assert (z mod 10 = z) as -> by (apply Z.mod_small; lia).
    exists [z], z, acc. cbn [take_digits]. rewrite digit_of_digit by lia.
    split; [reflexivity|]. split; [intros a; cbn; lia|]. split; [discriminate|].
    split; [reflexivity|lia].
  - rewrite (decimal_digits_S (S fuel)).
    destruct (Z.ltb_spec z 10) as [Hlt|Hge].
    + assert (z mod 10 = z) as -> by (apply Z.mod_small; lia).
      exists [z], z, acc. cbn [take_digits]. rewrite digit_of_digit by lia.
      split; [reflexivity|]. split; [intros a; cbn; lia|]. split; [discriminate|].
      split; [reflexivity|lia].
    + pose proof (Z.mod_pos_bound z 10 ltac:(lia)) as Hmod.
      pose proof (Z.div_mod z 10 ltac:(lia)) as Hdiv.
      destruct (IH (z / 10) (String (ascii_of_nat (48 + Z.to_nat (z mod 10))) acc))
        as (ds & d & r & Htake & Hval & Hne & Hhead & Hd).
      { split; [apply Z.div_pos; lia|].
        apply Z.div_lt_upper_bound; [lia|].
        replace (Z.of_nat (S (S fuel))) with (Z.succ (Z.of_nat (S fuel))) in Hz by lia.
        rewrite Z.pow_succ_r in Hz by lia. lia. }
      exists (ds ++ [z mod 10]), d, r.
      split.
      { rewrite Htake. cbn [take_digits]. rewrite digit_of_digit by lia.
        by rewrite <- app_assoc. }
      split.
      { intros a. rewrite fold_left_app, Hval. cbn [fold_left].
        rewrite length_app. cbn [length].
        replace (Z.of_nat (length ds + 1)) with (Z.succ (Z.of_nat (length ds))) by lia.
        rewrite Z.pow_succ_r by lia. lia. }
      split; [by destruct ds|]. split; [exact Hhead|exact Hd].
Qed.

(** The digits that [parseInt] reads off a decimal numeral, zeros before it
    or not, and the first character of the numeral. *)
Lemma numeral_digits (k : nat) (z : Z) (rest : string) :
  0 <= z -> no_leading_digit rest ->
  exists ds d r,
    take_digits (zeros k +:+ decimal z +:+ rest) = ds
    /\ ds <> []
    /\ digits_value ds = z
    /\ zeros k +:+ decimal z +:+ rest = String (ascii_of_nat (48 + Z.to_nat d)) r
    /\ 0 <= d < 10.
Proof.
  intros Hz Hrest. unfold decimal. rewrite (proj2 (Z.ltb_ge z 0) Hz).
  destruct (decimal_digits_spec (Z.to_nat (Z.log2 z)) z ("" +:+ rest))
    as (ds & d & r & Htake & Hval & Hne & Hhead & Hd).
  { split; [exact Hz|].
    destruct (Z.eq_dec z 0) as [->|Hnz]; [reflexivity|].
    pose proof (Z.log2_spec z ltac:(lia)) as [_ Hlog].
    pose proof (Z.log2_nonneg z) as Hnn.
    replace (Z.of_nat (S (Z.to_nat (Z.log2 z)))) with (Z.succ (Z.log2 z)) by lia.
    eapply Z.lt_le_trans; [exact Hlog|].
    apply Z.pow_le_mono_l. lia. }
  rewrite decimal_digits_app.
  change ("" +:+ rest) with rest in *.
  rewrite (no_leading_digit_take rest Hrest), app_nil_r in Htake.
  induction k as [|k IH].
  - exists ds, d, r. split; [exact Htake|]. split; [exact Hne|].
    split; [|split; [exact Hhead|exact Hd]].
    unfold digits_value. rewrite Hval. lia.
  - destruct IH as (ds' & d' & r' & Htake' & Hne' & Hval' & Hhead' & Hd').
    exists (0 :: ds'), 0, (zeros k +:+ decimal_digits (S (Z.to_nat (Z.log2 z))) z rest).
    change (zeros (S k) +:+ decimal_digits (S (Z.to_nat (Z.log2 z))) z rest)
      with (String "0" (zeros k +:+ decimal_digits (S (Z.to_nat (Z.log2 z))) z rest)).
    cbn [take_digits]. change (digit_of "0") with (Some 0). cbv iota beta.
    rewrite Htake'. split; [reflexivity|]. split; [discriminate|].
    split; [|split; [reflexivity|lia]].
    unfold digits_value in *. cbn [fold_left]. exact Hval'.
Qed.

Lemma decimal_nonempty (z : Z) : 0 <= z -> decimal z <> "".
Proof.
  intros Hz.
  assert (no_leading_digit "") as Hnil by (intros c r [=]).
  destruct (numeral_digits 0 z "" Hz Hnil) as (ds & d & r & _ & _ & _ & Hhead & Hd).
  change (zeros 0 +:+ decimal z +:+ "") with (decimal z +:+ "") in Hhead.
  rewrite append_nil_r in Hhead. by rewrite Hhead.
Qed.

Section PreviewSize.
Context {engine : Engine}.

Lemma parseInt10_cases (s : string) :
  parseInt10 s = NaN
  \/ (exists negative, parseInt10 s = Infinity negative)
  \/ exists z, parseInt10 s = number_of_Z z.
Proof.
  unfold parseInt10.
  destruct (match trimStart s with
            | String "-" r => (true, r)
            | String "+" r => (false, r)
            | _ => (false, trimStart s)
            end) as [negative s2].
  destruct (take_digits s2) as [|d ds]; [by left|]. right.
  destruct (number_of_integer_cases
              (if negative then - digits_value (d :: ds) else digits_value (d :: ds)))
    as [H|[inf H]]; rewrite H; eauto.
Qed.

(** What [parseInt] makes of a text that, after its leading white space,
    begins with no integer. *)
Lemma parseInt10_no_integer (raw : string) :
  no_integer (trimStart raw) -> parseInt10 raw = NaN.
Proof.
  intros [Hbody Hsigned]. unfold parseInt10. rewrite sign_match.
  destruct (trimStart raw) as [|c r] eqn:Hraw; [reflexivity|].
  destruct (Ascii.eqb_spec c "-") as [->|Hminus].
  { by rewrite (no_leading_digit_take r (Hsigned _ _ eq_refl (or_introl eq_refl))). }
  destruct (Ascii.eqb_spec c "+") as [->|Hplus].
  { by rewrite (no_leading_digit_take r (Hsigned _ _ eq_refl (or_intror eq_refl))). }
  by rewrite (no_leading_digit_take _ Hbody).
Qed.

(** What [parseInt] makes of a text that, after its leading white space,
    begins with a decimal numeral, signed or not. *)
Lemma parseInt10_numeral (raw sign rest : string) (k : nat) (z : Z) :
  trimStart raw = sign +:+ zeros k +:+ decimal z +:+ rest ->
  sign = "" \/ sign = "+" \/ sign = "-" ->
  0 <= z -> no_leading_digit rest ->
  parseInt10 raw = number_of_integer (if String.eqb sign "-" then - z else z).
Proof.
  intros Hraw Hsign Hz Hrest. unfold parseInt10. rewrite Hraw, sign_match.
  destruct (numeral_digits k z rest Hz Hrest) as (ds & d & r & Htake & Hne & Hval & Hhead & Hd).
  destruct Hsign as [->|[->| ->]].
  - change ("" +:+ zeros k +:+ decimal z +:+ rest)
      with (zeros k +:+ decimal z +:+ rest).
    rewrite Hhead.
    assert (Ascii.eqb (ascii_of_nat (48 + Z.to_nat d)) "-" = false
            /\ Ascii.eqb (ascii_of_nat (48 + Z.to_nat d)) "+" = false) as [-> ->].
    { destruct (digit_cases d Hd) as [->|[->|[->|[->|[->|[->|[->|[->|[->| ->]]]]]]]]];
        by split. }
    rewrite <- Hhead, Htake. destruct ds; [by destruct Hne|]. by rewrite Hval.
  - change ("+" +:+ zeros k +:+ decimal z +:+ rest)
      with (String "+" (zeros k +:+ decimal z +:+ rest)).
    cbn [Ascii.eqb Bool.eqb].
    rewrite Htake. destruct ds; [by destruct Hne|]. by rewrite Hval.
  - change ("-" +:+ zeros k +:+ decimal z +:+ rest)
      with (String "-" (zeros k +:+ decimal z +:+ rest)).
    cbn [Ascii.eqb Bool.eqb].
    rewrite Htake. destruct ds; [by destruct Hne|]. by rewrite Hval.
Qed.

Lemma parseInt10_decimal (z : Z) :
  0 <= z -> parseInt10 (decimal z) = number_of_integer z.
Proof.
  intros Hz.
  assert (no_leading_digit "") as Hnil by (intros c r [=]).
  destruct (numeral_digits 0 z "" Hz Hnil) as (ds & d & r & _ & _ & _ & Hhead & Hd).
  change (zeros 0 +:+ decimal z +:+ "") with (decimal z +:+ "") in Hhead.
  rewrite append_nil_r in Hhead.
  rewrite (parseInt10_numeral (decimal z) "" "" 0 z); [reflexivity| |by left|exact Hz|exact Hnil].
  change ("" +:+ zeros 0 +:+ decimal z +:+ "") with (decimal z +:+ "").
  rewrite append_nil_r, Hhead. apply trimStart_graphic. by apply digit_graphic.
Qed.

Lemma parseInt10_default : parseInt10 "256" = number_of_Z 256.
Proof. exact (parseInt10_decimal 256 ltac:(lia)). Qed.

Lemma getPreviewSize_of_parse (localStorage : gmap string string) (raw : string) :
  localStorage !! LS_KEY_SIZE = Some raw ->
  raw <> "" ->
  getPreviewSize localStorage =
    match parseInt10 raw with
    | Finite q => clamp (Finite q) (number_of_Z 128) (number_of_Z 2048)
    | _ => number_of_Z 256
    end.
Proof.
  intros Hraw Hne. unfold getPreviewSize. rewrite Hraw.
  destruct raw as [|c r]; [by destruct Hne|]. cbn [nonempty].
  by destruct (parseInt10 (String c r)).
Qed.

Lemma getPreviewSize_default (localStorage : gmap string string) :
  localStorage !! LS_KEY_SIZE = None \/ localStorage !! LS_KEY_SIZE = Some "" ->
  getPreviewSize localStorage = number_of_Z 256.
Proof.
  intros Hraw. unfold getPreviewSize.
  assert (parseInt10 match localStorage !! LS_KEY_SIZE with
                     | Some s => if nonempty s then s else "256"
                     | None => "256"
                     end = number_of_Z 256) as ->.
  { destruct Hraw as [-> | ->]; apply parseInt10_default. }
  cbn [isFinite number_of_Z negb].
  change (Finite (inject_Z 256)) with (number_of_Z 256).
  by rewrite clamp_integer.
Qed.

(** C10.  [getPreviewSize] always returns an integer between 128 and 2048.
    It returns 256 when the key is absent or holds the empty string, and
    when the stored text, after its leading white space, begins with no
    integer.  When the text begins there with a decimal numeral, with or
    without a sign and leading zeros, it returns the integer written,
    clamped to the range; a numeral too large for a finite number parses to
    an infinity and gives 256. *)
Theorem getPreviewSize_range (localStorage : gmap string string) :
  (exists r : Z, getPreviewSize localStorage = number_of_Z r /\ 128 <= r <= 2048)
  /\ (localStorage !! LS_KEY_SIZE = None \/ localStorage !! LS_KEY_SIZE = Some "" ->
      getPreviewSize localStorage = number_of_Z 256)
  /\ (forall raw, localStorage !! LS_KEY_SIZE = Some raw -> raw <> "" ->
                  no_integer (trimStart raw) ->
                  getPreviewSize localStorage = number_of_Z 256)
  /\ (forall raw sign rest k z,
        localStorage !! LS_KEY_SIZE = Some raw -> raw <> "" ->
        trimStart raw = sign +:+ zeros k +:+ decimal z +:+ rest ->
        sign = "" \/ sign = "+" \/ sign = "-" ->
        0 <= z -> no_leading_digit rest ->
        getPreviewSize localStorage
        = if z <? 2 ^ 1024 - 2 ^ 970
          then number_of_Z
                 (Z.max 128 (Z.min 2048 (if String.eqb sign "-" then - z else z)))
          else number_of_Z 256).
Proof.
  split; [|split; [exact (getPreviewSize_default localStorage)|split]].
  - destruct (localStorage !! LS_KEY_SIZE) as [raw|] eqn:Hraw.
    + destruct (decide (raw = "")) as [->|Hne].
      { exists 256. split; [apply getPreviewSize_default; by right|lia]. }
      rewrite (getPreviewSize_of_parse _ raw Hraw Hne).
      destruct (parseInt10_cases raw) as [H|[[negative H]|[z H]]]; rewrite H.
      * exists 256. split; [reflexivity|lia].
      * exists 256. split; [reflexivity|lia].
      * change (number_of_Z z) with (Finite (inject_Z z)). cbv iota beta.
        change (Finite (inject_Z z)) with (number_of_Z z). rewrite clamp_integer.
        eexists. split; [reflexivity|lia].
    + exists 256. split; [apply getPreviewSize_default; by left|lia].
  - intros raw Hraw Hne Hnone. rewrite (getPreviewSize_of_parse _ raw Hraw Hne).
    by rewrite (parseInt10_no_integer raw Hnone).
  - intros raw sign rest k z Hraw Hne Hbody Hsign Hz Hrest.
    rewrite (getPreviewSize_of_parse _ raw Hraw Hne).
    rewrite (parseInt10_numeral raw sign rest k z Hbody Hsign Hz Hrest).
    unfold number_of_integer.
    assert (Z.abs (if String.eqb sign "-" then - z else z) = z) as ->
      by (destruct (String.eqb sign "-"); lia).
    destruct (z <? 2 ^ 1024 - 2 ^ 970); [|reflexivity].
    set (v := if String.eqb sign "-" then - z else z).
    change (Finite (inject_Z v)) with (number_of_Z v). by rewrite clamp_integer.
Qed.
End PreviewSize.

Section PreviewSizeWitness.
#[local] Existing Instance ascii_engine.

Lemma getPreviewSize_range_witness :
  getPreviewSize {[ LS_KEY_SIZE := "  +0300px" ]} = number_of_Z 300
  /\ getPreviewSize {[ LS_KEY_SIZE := "99999" ]} = number_of_Z 2048
  /\ getPreviewSize {[ LS_KEY_SIZE := "-7" ]} = number_of_Z 128
  /\ getPreviewSize {[ LS_KEY_SIZE := "large" ]} = number_of_Z 256.
Proof.
  assert (forall s, no_leading_digit s <-> take_digits s = []) as Hnone.
  { intros s. split; [apply no_leading_digit_take|].
    intros Hs c r ->. apply digit_of_bounds. cbn [take_digits] in Hs.
    by destruct (digit_of c). }
  split; [|split; [|split]].
  - exact (proj2 (proj2 (proj2 (getPreviewSize_range {[ LS_KEY_SIZE := "  +0300px" ]})))
             "  +0300px" "+" "px" 1%nat 300 (lookup_singleton_eq _ _)
             ltac:(discriminate) eq_refl (or_intror (or_introl eq_refl))
             ltac:(lia) (proj2 (Hnone "px") eq_refl)).
  - exact (proj2 (proj2 (proj2 (getPreviewSize_range {[ LS_KEY_SIZE := "99999" ]})))
             "99999" "" "" 0%nat 99999 (lookup_singleton_eq _ _)
             ltac:(discriminate) eq_refl (or_introl eq_refl)
             ltac:(lia) (proj2 (Hnone "") eq_refl)).
  - exact (proj2 (proj2 (proj2 (getPreviewSize_range {[ LS_KEY_SIZE := "-7" ]})))
             "-7" "-" "" 0%nat 7 (lookup_singleton_eq _ _)
             ltac:(discriminate) eq_refl (or_intror (or_intror eq_refl))
             ltac:(lia) (proj2 (Hnone "") eq_refl)).
  - refine (proj1 (proj2 (proj2 (getPreviewSize_range {[ LS_KEY_SIZE := "large" ]})))
              "large" (lookup_singleton_eq _ _) ltac:(discriminate) _).
    split; [by apply Hnone|]. intros c r [= <- <-] [H|H]; discriminate H.
Defined.
End PreviewSizeWitness.

(** *** Replacing a node *)

Lemma safeCreateNode_None (LiteGraph : option LiteGraphGlobal) (typeName : string) :
  (forall create, LiteGraph ≫= createNode = Some create ->
                  create typeName = Threw \/ create typeName = Returned None) ->
  safeCreateNode LiteGraph typeName = None.
Proof.
  intros Hfail. unfold safeCreateNode.
  destruct (LiteGraph ≫= createNode) as [create|]; [|reflexivity].
  by destruct (Hfail create eq_refl) as [-> | ->].
Qed.

(** C3.  When the factory raises or returns null for the chosen type,
    [replaceNode] returns the state it was given: the world (objects, link
    table, host state) is the same and no host method has been called. *)
Theorem replaceNode_noop_when_not_instantiable {Host : Type} `{!HostAPI Host}
  (StringToNumber : string -> number) (ToString : value -> string)
  (LiteGraph : option LiteGraphGlobal) (graph : Run Host) (oldNode : ref)
  (newType : string)
  (Hfail : forall create, LiteGraph ≫= createNode = Some create ->
                          create newType = Threw \/ create newType = Returned None) :
  replaceNode StringToNumber ToString LiteGraph graph oldNode newType = graph.
Proof.
  unfold replaceNode. by rewrite (safeCreateNode_None LiteGraph newType Hfail).
Qed.

Lemma replaceNode_noop_when_not_instantiable_witness :
  Example.example_createNode "Broken" = Threw
  /\ replaceNode Example.no_StringToNumber Example.no_ToString Example.example_LiteGraph
       Example.chain_run 2%nat "Broken"
     = Example.chain_run.
Proof.
  split; [reflexivity|].
  apply (replaceNode_noop_when_not_instantiable Example.no_StringToNumber
           Example.no_ToString Example.example_LiteGraph Example.chain_run 2%nat "Broken").
  intros create [= <-]. left. reflexivity.
Defined.

Section ReplaceFacts.
Context {Host : Type} `{!HostAPI Host}.
Variable StringToNumber : string -> number.
Variable ToString : value -> string.

Lemma finite_or_zero_finite (n : number) : exists q, finite_or_zero n = Finite q.
Proof. destruct n; simpl; eauto. Qed.

Lemma normalizePos_shape (p : value) :
  exists x y,
    normalizePos StringToNumber ToString p = VArray [VNumber (Finite x); VNumber (Finite y)].
Proof.
  unfold normalizePos.
  destruct (match p with
            | VArray elems =>
                (default VUndefined (elems !! 0%nat), default VUndefined (elems !! 1%nat))
            | VObject props =>
                (coalesce (props_get props "x") (props_get props "0"),
                 coalesce (props_get props "y") (props_get props "1"))
            | _ => (VNumber (Finite 0), VNumber (Finite 0))
            end) as [x y].
  destruct (finite_or_zero_finite (Number_of StringToNumber ToString x)) as [qx ->].
  destruct (finite_or_zero_finite (Number_of StringToNumber ToString y)) as [qy ->].
  eauto.
Qed.

Lemma normalizePos_idempotent (p : value) :
  normalizePos StringToNumber ToString (normalizePos StringToNumber ToString p)
  = normalizePos StringToNumber ToString p.
Proof. destruct (normalizePos_shape p) as (x & y & ->). reflexivity. Qed.



Lemma fresh_not_allocated (w : World Host) (r : ref) (n : LGraphNode) :
  heap w !! r = Some n -> r <> fresh (dom (heap w)).
Proof.
  intros Hr ->. apply (is_fresh (dom (heap w))). apply elem_of_dom. eauto.
Qed.

Lemma replaceNode_stages (LiteGraph : option LiteGraphGlobal) (graph : Run Host)
  (oldNode : ref) (newType : string) (created old : LGraphNode) :
  safeCreateNode LiteGraph newType = Some created ->
  heap (world graph) !! oldNode = Some old ->
  let newNode := fresh (dom (heap (world graph))) in
  replaceNode StringToNumber ToString LiteGraph graph oldNode newType
  = try_select newNode
      (call_remove oldNode
         (reconnectOutputs newNode (snapshotOutputs (world graph) old)
            (reconnectInputs newNode (snapshotInputs (world graph) old)
               (placed (normalizePos StringToNumber ToString (pos old)) (size old)
                  newNode (allocate created graph).2)))).
Proof.
  intros Hcreate Hold newNode.
  assert (oldNode <> newNode) as Hne by (eapply fresh_not_allocated; eauto).
  unfold replaceNode. rewrite Hcreate. cbn [allocate]. cbv zeta. cbn [world heap].
  rewrite (lookup_total_insert_ne (heap (world graph)) _ oldNode created)
    by (fold newNode; congruence).
  rewrite (lookup_total_correct _ _ _ Hold).
  rewrite normalizePos_idempotent. reflexivity.
Qed.

End ReplaceFacts.






Example old_node_place :
  normalizePos Example.no_StringToNumber Example.no_ToString (pos Example.old_node)
  = VArray [VNumber (Finite 320); VNumber (Finite 0)].
Proof. reflexivity. Qed.

(** The two coordinates are normalized independently. *)
Example normalizePos_independent :
  normalizePos Example.no_StringToNumber Example.no_ToString
    (VArray [VNumber NaN; VNumber (Finite 5)])
  = VArray [VNumber (Finite 0); VNumber (Finite 5)]
  /\ normalizePos Example.no_StringToNumber Example.no_ToString
       (VObject [("0", VNumber (Finite 7)); ("y", VNull); ("1", VNumber (Infinity false))])
     = VArray [VNumber (Finite 7); VNumber (Finite 0)].
Proof. split; reflexivity. Qed.

(** *** Best-effort relinking *)

Lemma forEach_from_app {A B : Type} (g : A -> nat -> list B) (l : list A) (k : nat)
  (acc : list B) :
  forEach_from (fun acc x i => acc ++ g x i) l k acc
  = acc ++ mjoin (imap (fun i x => g x (k + i)%nat) l).
Proof.
  revert k acc. induction l as [|x t IH]; intros k acc; simpl.
  - by rewrite app_nil_r.
  - rewrite IH, <- app_assoc. rewrite Nat.add_0_r. do 2 f_equal.
    f_equal. apply imap_ext. intros i y _. simpl. f_equal. lia.
Qed.

Lemma elem_of_forEach_app {A B : Type} (g : A -> nat -> list B) (l : list A) (y : B) :
  y ∈ forEach (fun acc x i => acc ++ g x i) l []
  <-> exists i x, l !! i = Some x /\ y ∈ g x i.
Proof.
  unfold forEach. rewrite forEach_from_app. simpl.
  rewrite list_elem_of_join. split.
  - intros (ys & Hy & Hys). apply elem_of_lookup_imap in Hys as (i & x & -> & Hx). eauto.
  - intros (i & x & Hx & Hy). exists (g x i). split; [exact Hy|].
    apply elem_of_lookup_imap. eauto.
Qed.

Lemma outside_false {A : Type} (slots : option (list A)) (idx : Z) :
  outside slots idx = false <-> within slots idx.
Proof.
  unfold outside, within. destruct slots as [l|].
  - rewrite orb_false_iff, Z.ltb_ge, Z.leb_gt. split.
    + intros [? ?]. exists l. split; [reflexivity|lia].
    + intros (l' & [= <-] & ?). lia.
  - split; [discriminate|]. by intros (l & ? & _).
Qed.

Section RelinkFacts.
Context {Host : Type} `{!HostAPI Host}.

Lemma snapshotInputs_links (graph : World Host) (node : LGraphNode) (l : InputLinkSnapshot) :
  l ∈ snapshotInputs graph node <-> has_input_link graph node l.
Proof.
  unfold snapshotInputs, has_input_link.
  set (g := fun (inp : InputSlot) (index : nat) =>
              match incoming_link graph inp with
              | None => []
              | Some link =>
                  [ {| snap_origin_id := origin_id link;
                       snap_origin_slot := origin_slot link;
                       snap_target_slot := Z.of_nat index;
                       snap_in_name := in_name inp |} ]
              end).
  assert (forall acc inp index,
            match in_link inp with
            | None => acc
            | Some linkId =>
                match links graph !! linkId with
                | None => acc
                | Some link =>
                    acc ++ [ {| snap_origin_id := origin_id link;
                                snap_origin_slot := origin_slot link;
                                snap_target_slot := Z.of_nat index;
                                snap_in_name := in_name inp |} ]
                end
            end = acc ++ g inp index) as Hstep.
  { intros acc inp index. unfold g, incoming_link.
    destruct (in_link inp) as [linkId|]; simpl; [|by rewrite app_nil_r].
    destruct (links graph !! linkId); [reflexivity|by rewrite app_nil_r]. }
  unfold forEach. rewrite (forEach_from_ext _ (fun acc x i => acc ++ g x i)) by exact Hstep.
  change (forEach_from (fun acc x i => acc ++ g x i) (default [] (inputs node)) 0 [])
    with (forEach (fun acc x i => acc ++ g x i) (inputs_of node) []).
  rewrite elem_of_forEach_app. unfold g. split.
  - intros (i & inp & Hi & Hl). destruct (incoming_link graph inp) as [link|] eqn:E.
    + apply list_elem_of_singleton in Hl. eauto 6.
    + by apply elem_of_nil in Hl.
  - intros (i & inp & link & Hi & Hlink & ->). exists i, inp. split; [exact Hi|].
    rewrite Hlink. by apply list_elem_of_singleton.
Qed.

Lemma snapshot_links_of_slot (graph : World Host) (out : OutputSlot) (index : nat)
  (ids : list Z) (acc : list OutputLinkSnapshot) :
  fold_left
    (fun snaps linkId =>
       match links graph !! linkId with
       | None => snaps
       | Some link =>
           snaps ++ [ {| snap_target_id := target_id link;
                         snap_out_target_slot := target_slot link;
                         snap_out_origin_slot := Z.of_nat index;
                         snap_out_name := out_name out |} ]
       end)
    ids acc
  = acc ++ omap (fun linkId =>
                   (fun link => {| snap_target_id := target_id link;
                                   snap_out_target_slot := target_slot link;
                                   snap_out_origin_slot := Z.of_nat index;
                                   snap_out_name := out_name out |})
                   <$> links graph !! linkId) ids.
Proof.
  revert acc. induction ids as [|linkId rest IH]; intros acc; simpl.
  - by rewrite app_nil_r.
  - rewrite IH. destruct (links graph !! linkId); simpl; [|reflexivity].
    by rewrite <- app_assoc.
Qed.

Lemma snapshotOutputs_links (graph : World Host) (node : LGraphNode)
  (l : OutputLinkSnapshot) :
  l ∈ snapshotOutputs graph node <-> has_output_link graph node l.
Proof.
  unfold snapshotOutputs, has_output_link, forEach.
  rewrite (forEach_from_ext _
             (fun acc out index =>
                acc ++ omap (fun linkId =>
                               (fun link => {| snap_target_id := target_id link;
                                               snap_out_target_slot := target_slot link;
                                               snap_out_origin_slot := Z.of_nat index;
                                               snap_out_name := out_name out |})
                               <$> links graph !! linkId) (default [] (out_links out))))
    by (intros acc out index; apply snapshot_links_of_slot).
  match goal with
  | |- l ∈ forEach_from ?f ?xs O [] <-> _ => change (forEach_from f xs O []) with (forEach f (outputs_of node) [])
  end.
  rewrite elem_of_forEach_app. split.
  - intros (i & out & Hi & Hl). apply list_elem_of_omap in Hl as (linkId & Hin & Hl).
    destruct (links graph !! linkId) as [link|] eqn:E; [|discriminate].
    simpl in Hl. injection Hl as <-. eauto 8.
  - intros (i & out & linkId & link & Hi & Hin & Hlink & ->). exists i, out.
    split; [exact Hi|]. apply list_elem_of_omap. exists linkId. split; [exact Hin|].
    by rewrite Hlink.
Qed.

Lemma reconnectInputs_relinked (newNode : ref) (snaps : list InputLinkSnapshot)
  (g : Run Host) :
  exists made,
    relinked_inputs newNode (world g) snaps made (world (reconnectInputs newNode snaps g))
    /\ calls (reconnectInputs newNode snaps g) = calls g ++ made.
Proof.
  revert g. unfold reconnectInputs.
  induction snaps as [|l rest IH]; intros g; simpl.
  - exists []. split; [constructor|by rewrite app_nil_r].
  - destruct (getNodeById (world g) (snap_origin_id l)) as [origin|] eqn:Hn.
    + destruct (outside (inputs (heap (world g) !!! newNode)) (snap_target_slot l)) eqn:Ho.
      * destruct (IH g) as (made & Hrel & Hcalls). exists made. split; [|exact Hcalls].
        apply relinked_inputs_skip; [|exact Hrel].
        intros [_ Hw]. apply outside_false in Hw. congruence.
      * destruct (IH (try_connect origin (snap_origin_slot l) newNode (snap_target_slot l) g))
          as (made & Hrel & Hcalls).
        exists (CallConnect origin (snap_origin_slot l) newNode (snap_target_slot l) :: made).
        split.
        -- apply relinked_inputs_attempt; [exact Hn|by apply outside_false|exact Hrel].
        -- rewrite Hcalls. simpl. by rewrite <- app_assoc.
    + destruct (IH g) as (made & Hrel & Hcalls). exists made. split; [|exact Hcalls].
      apply relinked_inputs_skip; [|exact Hrel].
      intros [[origin Hsome] _]. congruence.
Qed.

Lemma reconnectOutputs_relinked (newNode : ref) (snaps : list OutputLinkSnapshot)
  (g : Run Host) :
  exists made,
    relinked_outputs newNode (world g) snaps made (world (reconnectOutputs newNode snaps g))
    /\ calls (reconnectOutputs newNode snaps g) = calls g ++ made.
Proof.
  revert g. unfold reconnectOutputs.
  induction snaps as [|l rest IH]; intros g; simpl.
  - exists []. split; [constructor|by rewrite app_nil_r].
  - destruct (getNodeById (world g) (snap_target_id l)) as [target|] eqn:Hn.
    + destruct (outside (outputs (heap (world g) !!! newNode)) (snap_out_origin_slot l)) eqn:Ho.
      * destruct (IH g) as (made & Hrel & Hcalls). exists made. split; [|exact Hcalls].
        apply relinked_outputs_skip; [|exact Hrel].
        intros [_ Hw]. apply outside_false in Hw. congruence.
      * destruct (IH (try_connect newNode (snap_out_origin_slot l) target
                        (snap_out_target_slot l) g))
          as (made & Hrel & Hcalls).
        exists (CallConnect newNode (snap_out_origin_slot l) target
                  (snap_out_target_slot l) :: made).
        split.
        -- apply relinked_outputs_attempt; [exact Hn|by apply outside_false|exact Hrel].
        -- rewrite Hcalls. simpl. by rewrite <- app_assoc.
    + destruct (IH g) as (made & Hrel & Hcalls). exists made. split; [|exact Hcalls].
      apply relinked_outputs_skip; [|exact Hrel].
      intros [[target Hsome] _]. congruence.
Qed.
End RelinkFacts.

Lemma placed_calls {Host : Type} `{!HostAPI Host} (place : value)
  (old_size : option (number * number)) (newNode : ref) (g : Run Host) :
  calls (placed place old_size newNode g) = calls g ++ [CallAdd newNode].
Proof.
  unfold placed. cbv zeta.
  destruct old_size as [s|]; [|reflexivity].
  by destruct (size _).
Qed.

Lemma outside_inside {A : Type} (slots : option (list A)) (idx : Z) :
  outside slots idx = negb (inside slots idx).
Proof.
  unfold outside, inside. destruct slots as [l|]; [|reflexivity].
  destruct (Z.ltb_spec idx 0), (Z.leb_spec (Z.of_nat (length l)) idx),
    (Z.leb_spec 0 idx), (Z.ltb_spec idx (Z.of_nat (length l))); simpl; try reflexivity; lia.
Qed.

Section AttemptFacts.
Context {Host : Type} `{!HostAPI Host}.
Hypothesis connect_keeps_slots :
  forall o os t ts, keeps_slots (fun w => (connect o os t ts w).2).
Hypothesis connect_keeps_ids :
  forall o os t ts, keeps_ids (fun w => (connect o os t ts w).2).

(** With a [connect] that leaves slots and identifiers alone, the attempts
    are decided by the world the relinking starts from. *)
Lemma reconnectInputs_attempts (newNode : ref) (snaps : list InputLinkSnapshot)
  (g : Run Host) (find : Z -> option ref) (slots : option (list InputSlot)) :
  (forall id, getNodeById (world g) id = find id) ->
  inputs (heap (world g) !!! newNode) = slots ->
  let g' := reconnectInputs newNode snaps g in
  calls g' = calls g ++ input_attempts find newNode slots snaps
  /\ (forall id, getNodeById (world g') id = find id)
  /\ (forall r, inputs (heap (world g') !!! r) = inputs (heap (world g) !!! r)
                /\ outputs (heap (world g') !!! r) = outputs (heap (world g) !!! r)).
Proof.
  cbv zeta. revert g. unfold reconnectInputs, input_attempts.
  induction snaps as [|l rest IH]; intros g Hfind Hslots; cbn [fold_left omap list_omap].
  - rewrite app_nil_r. by repeat split.
  - rewrite Hfind, Hslots, outside_inside.
    destruct (find (snap_origin_id l)) as [origin|]; [|by apply IH].
    destruct (inside slots (snap_target_slot l)); cbn [negb]; cbv beta iota;
      [|by apply IH].
    set (g1 := try_connect origin (snap_origin_slot l) newNode (snap_target_slot l) g).
    assert (forall r, inputs (heap (world g1) !!! r) = inputs (heap (world g) !!! r)
                      /\ outputs (heap (world g1) !!! r) = outputs (heap (world g) !!! r))
      as Hkept by (intros r; apply connect_keeps_slots).
    destruct (IH g1) as (Hcalls & Hids & Hslots').
    { intros id. rewrite <- Hfind. apply connect_keeps_ids. }
    { by rewrite (proj1 (Hkept newNode)). }
    split; [|split].
    + rewrite Hcalls. subst g1. cbn [try_connect calls]. by rewrite <- app_assoc.
    + exact Hids.
    + intros r. destruct (Hslots' r) as [-> ->]. apply Hkept.
Qed.

Lemma reconnectOutputs_attempts (newNode : ref) (snaps : list OutputLinkSnapshot)
  (g : Run Host) (find : Z -> option ref) (slots : option (list OutputSlot)) :
  (forall id, getNodeById (world g) id = find id) ->
  outputs (heap (world g) !!! newNode) = slots ->
  calls (reconnectOutputs newNode snaps g)
  = calls g ++ output_attempts find newNode slots snaps.
Proof.
  revert g. unfold reconnectOutputs, output_attempts.
  induction snaps as [|l rest IH]; intros g Hfind Hslots; cbn [fold_left omap list_omap].
  - by rewrite app_nil_r.
  - rewrite Hfind, Hslots, outside_inside.
    destruct (find (snap_target_id l)) as [target|]; [|by apply IH].
    destruct (inside slots (snap_out_origin_slot l)); cbn [negb]; cbv beta iota;
      [|by apply IH].
    set (g1 := try_connect newNode (snap_out_origin_slot l) target
                 (snap_out_target_slot l) g).
    rewrite (IH g1).
    + subst g1. cbn [try_connect calls]. by rewrite <- app_assoc.
    + intros id. rewrite <- Hfind. apply connect_keeps_ids.
    + rewrite <- Hslots. apply connect_keeps_slots.
Qed.
End AttemptFacts.

(** The world the relinking starts from. *)
Lemma placed_world {Host : Type} `{!HostAPI Host} (place : value)
  (old_size : option (number * number)) (newNode : ref) (g : Run Host) :
  let w1 := graph_add newNode (world g) in
  let n1 := set_pos place (heap w1 !!! newNode) in
  let n2 :=
    match old_size, size n1 with
    | Some s, Some _ => set_size s n1
    | _, _ => n1
    end in
  world (placed place old_size newNode g)
  = {| heap := <[newNode := n2]> (heap w1); links := links w1; host := host w1 |}.
Proof.
  cbv zeta. unfold placed. cbv zeta.
  assert (heap (world (update_node newNode (set_pos place) (call_add newNode g))) !!! newNode
          = set_pos place (heap (graph_add newNode (world g)) !!! newNode)) as ->.
  { unfold update_node. cbn [world heap call_add]. apply lookup_total_insert_eq. }
  destruct old_size as [s|]; [|reflexivity].
  destruct (size (set_pos place (heap (graph_add newNode (world g)) !!! newNode)));
    [|reflexivity].
  unfold update_node. cbn [world heap links host call_add].
  by rewrite lookup_total_insert_eq, insert_insert_eq.
Qed.

(** C2.  After a successful swap.  The new node is the object the factory
    made; it is added to the graph, given the old node's place, and the
    relinking starts from that world.  The snapshots are exactly the links
    the old node had; each is taken in turn and, when its far node still
    exists and its slot index lies within the new node's slots, a connection
    at the same slot indices is attempted; whatever an attempt does, raising
    included, the next snapshot is taken; and the flow ends by removing the
    old node and selecting the new one.  This holds for every host.  For a
    host whose [graph.add] and [connect] leave the slots of nodes as they
    are, and whose [connect] does not change what [getNodeById] finds, the
    slots of the new node are those the factory gave it and the calls made
    are: the addition, one connection for each input snapshot whose origin
    is found and whose target slot the new node has, one for each such
    output snapshot, the removal and the selection. *)
Theorem replaceNode_relinks_best_effort {Host : Type} `{!HostAPI Host}
  (StringToNumber : string -> number) (ToString : value -> string)
  (LiteGraph : option LiteGraphGlobal) (graph : Run Host) (oldNode : ref)
  (newType : string) (created old : LGraphNode)
  (Hcreate : safeCreateNode LiteGraph newType = Some created)
  (Hold : heap (world graph) !! oldNode = Some old) :
  let newNode := fresh (dom (heap (world graph))) in
  let final := replaceNode StringToNumber ToString LiteGraph graph oldNode newType in
  let added :=
    graph_add newNode
      {| heap := <[newNode := created]> (heap (world graph));
         links := links (world graph);
         host := host (world graph) |} in
  let moved := set_pos (normalizePos StringToNumber ToString (pos old))
                 (heap added !!! newNode) in
  let sized :=
    match size old, size moved with
    | Some s, Some _ => set_size s moved
    | _, _ => moved
    end in
  let start :=
    {| heap := <[newNode := sized]> (heap added);
       links := links added;
       host := host added |} in
  (forall l, l ∈ snapshotInputs (world graph) old <-> has_input_link (world graph) old l)
  /\ (forall l, l ∈ snapshotOutputs (world graph) old <-> has_output_link (world graph) old l)
  /\ (exists w_in w_out made_in made_out,
      relinked_inputs newNode start (snapshotInputs (world graph) old) made_in w_in
      /\ relinked_outputs newNode w_in (snapshotOutputs (world graph) old) made_out w_out
      /\ calls final
         = calls graph ++ [CallAdd newNode] ++ made_in ++ made_out
             ++ [CallRemove oldNode; CallSelect newNode]
      /\ world final = (selectNode newNode (graph_remove oldNode w_out)).2)
  /\ (keeps_slots (graph_add newNode) ->
      (forall o os t ts, keeps_slots (fun w => (connect o os t ts w).2)) ->
      (forall o os t ts, keeps_ids (fun w => (connect o os t ts w).2)) ->
      inputs (heap start !!! newNode) = inputs created
      /\ outputs (heap start !!! newNode) = outputs created
      /\ calls final
         = calls graph ++ [CallAdd newNode]
             ++ input_attempts (getNodeById start) newNode (inputs created)
                  (snapshotInputs (world graph) old)
             ++ output_attempts (getNodeById start) newNode (outputs created)
                  (snapshotOutputs (world graph) old)
             ++ [CallRemove oldNode; CallSelect newNode]).
Proof.
  intros newNode final added moved sized start.
  split; [apply snapshotInputs_links|]. split; [apply snapshotOutputs_links|].
  subst final.
  rewrite (replaceNode_stages StringToNumber ToString LiteGraph graph oldNode newType
             created old Hcreate Hold).
  fold newNode.
  set (g0 := placed (normalizePos StringToNumber ToString (pos old)) (size old) newNode
               (allocate created graph).2).
  assert (world g0 = start) as Hstart by apply placed_world.
  assert (calls g0 = calls graph ++ [CallAdd newNode]) as Hcalls0
    by (subst g0; by rewrite placed_calls).
  set (g1 := reconnectInputs newNode (snapshotInputs (world graph) old) g0).
  set (g2 := reconnectOutputs newNode (snapshotOutputs (world graph) old) g1).
  split.
  - destruct (reconnectInputs_relinked newNode (snapshotInputs (world graph) old) g0)
      as (made_in & Hin & Hcalls_in).
    destruct (reconnectOutputs_relinked newNode (snapshotOutputs (world graph) old) g1)
      as (made_out & Hout & Hcalls_out).
    fold g1 in Hin, Hcalls_in. fold g2 in Hout, Hcalls_out.
    exists (world g1), (world g2), made_in, made_out.
    rewrite <- Hstart.
    split; [exact Hin|]. split; [exact Hout|]. split; [|reflexivity].
    cbn [try_select call_remove calls]. rewrite Hcalls_out, Hcalls_in, Hcalls0.
    rewrite <- !app_assoc. reflexivity.
  - intros Hadd Hconnect_slots Hconnect_ids.
    assert (inputs sized = inputs created /\ outputs sized = outputs created)
      as [Hins Houts].
    { assert (inputs moved = inputs created /\ outputs moved = outputs created) as [Hi Ho].
      { subst moved. cbn [set_pos inputs outputs]. subst added.
        destruct (Hadd {| heap := <[newNode := created]> (heap (world graph));
                          links := links (world graph);
                          host := host (world graph) |} newNode) as [-> ->].
        cbn [heap]. by rewrite lookup_total_insert_eq. }
      subst sized. destruct (size old); [|by split].
      destruct (size moved); by split. }
    assert (heap start !!! newNode = sized) as Hnew
      by (subst start; cbn [heap]; apply lookup_total_insert_eq).
    rewrite Hnew. split; [exact Hins|]. split; [exact Houts|].
    destruct (reconnectInputs_attempts Hconnect_slots Hconnect_ids newNode
                (snapshotInputs (world graph) old) g0 (getNodeById start) (inputs created))
      as (Hcalls_in & Hids & Hslots).
    { intros id. by rewrite Hstart. }
    { by rewrite Hstart, Hnew. }
    fold g1 in Hcalls_in, Hids, Hslots.
    pose proof (reconnectOutputs_attempts Hconnect_slots Hconnect_ids newNode
                  (snapshotOutputs (world graph) old) g1 (getNodeById start)
                  (outputs created) Hids) as Hcalls_out.
    fold g2 in Hcalls_out.
    cbn [try_select call_remove calls]. rewrite Hcalls_out, Hcalls_in, Hcalls0.
    + rewrite <- !app_assoc. reflexivity.
    + rewrite (proj2 (Hslots newNode)). by rewrite Hstart, Hnew.
Qed.

Lemma simple_add_keeps_slots (r : ref) :
  keeps_slots (graph_add (Host := Example.SimpleHost) r).
Proof. intros w r'. by split. Qed.

Lemma simple_connect_keeps_slots (o : ref) (os : Z) (t : ref) (ts : Z) :
  keeps_slots (fun w : World Example.SimpleHost => (connect o os t ts w).2).
Proof.
  intros w r. simpl. unfold Example.simple_connect.
  destruct (heap w !! o), (heap w !! t); try by split.
  by destruct (_ && _)%bool.
Qed.

Lemma simple_connect_keeps_ids (o : ref) (os : Z) (t : ref) (ts : Z) :
  keeps_ids (fun w : World Example.SimpleHost => (connect o os t ts w).2).
Proof.
  intros w id. simpl. unfold Example.simple_connect.
  destruct (heap w !! o), (heap w !! t); try reflexivity.
  by destruct (_ && _)%bool.
Qed.

(** On the chain: the link from Load and the link into Save are both
    attempted at their slot indices, between the addition of the new node
    and the removal of the old one. *)
Lemma replaceNode_relinks_best_effort_witness :
  safeCreateNode Example.example_LiteGraph "Filter" = Some Example.filter_node
  /\ heap (world Example.chain_run) !! 2%nat = Some Example.old_node
  /\ calls (replaceNode Example.no_StringToNumber Example.no_ToString
              Example.example_LiteGraph Example.chain_run 2%nat "Filter")
     = [CallAdd 4%nat; CallConnect 1%nat 0 4%nat 0; CallConnect 4%nat 0 3%nat 0;
        CallRemove 2%nat; CallSelect 4%nat].
Proof.
  split; [reflexivity|]. split; [reflexivity|].
  destruct (replaceNode_relinks_best_effort Example.no_StringToNumber Example.no_ToString
              Example.example_LiteGraph Example.chain_run 2%nat "Filter"
              Example.filter_node Example.old_node eq_refl eq_refl)
    as (_ & _ & _ & Hcalls).
  destruct (Hcalls (simple_add_keeps_slots _) simple_connect_keeps_slots
              simple_connect_keeps_ids) as (_ & _ & ->).
  vm_compute. reflexivity.
Defined.

(** In the example the link into Save cannot be made (the host raises), the
    link from Load is made, and the old node is removed all the same. *)
Example chain_swap_calls :
  calls (replaceNode Example.no_StringToNumber Example.no_ToString
           Example.example_LiteGraph Example.chain_run 2%nat "Filter")
  = [CallAdd 4%nat; CallConnect 1%nat 0 4%nat 0; CallConnect 4%nat 0 3%nat 0;
     CallRemove 2%nat; CallSelect 4%nat]
  /\ Example.members (host (world (replaceNode Example.no_StringToNumber
                                     Example.no_ToString Example.example_LiteGraph
                                     Example.chain_run 2%nat "Filter")))
     = [1%nat; 3%nat; 4%nat]
  /\ (connect 4%nat 0 3%nat 0
        (world (placed (VArray [VNumber (Finite 320); VNumber (Finite 0)])
                  (Some (Finite 200, Finite 80)) 4%nat
                  (allocate Example.filter_node Example.chain_run).2))).1
     = Threw.
Proof. vm_compute. repeat split. Qed.

(** *** Sorting a tab bar *)

Lemma sort_of_sorted {A : Type} (cmp : A -> A -> Z) (l : list A) :
  StronglySorted (ascending cmp) l -> sort cmp l = l.
Proof.
  induction l as [|x t IH]; intros Hs; simpl; [reflexivity|].
  apply StronglySorted_inv in Hs as [Ht Hx]. rewrite IH by exact Ht.
  destruct t as [|y t']; simpl; [reflexivity|].
  apply Forall_cons in Hx as [Hxy _]. unfold ascending in Hxy.
  destruct (Z.leb_spec (cmp x y) 0); [reflexivity|lia].
Qed.

Lemma StronglySorted_by_lookup {A : Type} (R : A -> A -> Prop) (l : list A) :
  StronglySorted R l
  <-> forall i j x y, (i < j)%nat -> l !! i = Some x -> l !! j = Some y -> R x y.
Proof.
  induction l as [|a t IH].
  - split; [intros _ i j x y _ Hi; discriminate|constructor].
  - rewrite StronglySorted_cons, IH, Forall_forall. split.
    + intros [Ha Ht] [|i] [|j] x y Hij Hi Hj; try lia; simpl in *.
      * injection Hi as <-. apply Ha. by eapply list_elem_of_lookup_2.
      * eapply Ht; [|exact Hi|exact Hj]. lia.
    + intros H. split.
      * intros y [j Hj]%list_elem_of_lookup. apply (H O (S j) a y); [lia|done|done].
      * intros i j x y Hij Hi Hj. apply (H (S i) (S j) x y); [lia|done|done].
Qed.

Lemma NoDup_fmap_eq {A B : Type} (f : A -> B) (l : list A) (x y : A) :
  NoDup (map f l) -> x ∈ l -> y ∈ l -> f x = f y -> x = y.
Proof.
  induction l as [|a t IH]; simpl; intros Hnd Hx Hy Hf.
  - by apply elem_of_nil in Hx.
  - apply NoDup_cons in Hnd as [Ha Hnd].
    apply elem_of_cons in Hx as [->|Hx]; apply elem_of_cons in Hy as [->|Hy].
    + reflexivity.
    + exfalso. apply Ha. rewrite Hf. apply list_elem_of_fmap. eauto.
    + exfalso. apply Ha. rewrite <- Hf. apply list_elem_of_fmap. eauto.
    + by apply IH.
Qed.

Lemma List_filter_filter {A : Type} (f g : A -> bool) (l : list A) :
  List.filter g (List.filter f l) = List.filter (fun x => f x && g x) l.
Proof.
  induction l as [|x t IH]; simpl; [reflexivity|].
  destruct (f x); simpl; [|exact IH]. destruct (g x); by rewrite IH.
Qed.

Lemma List_filter_all {A : Type} (f : A -> bool) (l : list A) :
  Forall (fun x => f x = true) l -> List.filter f l = l.
Proof.
  induction 1 as [|x t Hx _ IH]; simpl; [reflexivity|]. by rewrite Hx, IH.
Qed.

Lemma List_filter_none {A : Type} (f : A -> bool) (l : list A) :
  Forall (fun x => f x = false) l -> List.filter f l = [].
Proof.
  induction 1 as [|x t Hx _ IH]; simpl; [reflexivity|]. by rewrite Hx, IH.
Qed.

Lemma unique_from_NoDup (seen : gset nat) (arr : list Element) :
  NoDup (map el_id arr) ->
  (forall x, x ∈ arr -> el_id x ∉ seen) ->
  unique_from seen arr = arr.
Proof.
  revert seen. induction arr as [|x t IH]; intros seen Hnd Hseen; simpl; [reflexivity|].
  apply NoDup_cons in Hnd as [Hx Hnd].
  rewrite bool_decide_eq_false_2 by (apply Hseen; constructor).
  f_equal. apply IH; [exact Hnd|].
  intros y Hy. rewrite elem_of_union, elem_of_singleton. intros [Heq|Hin].
  - apply Hx. rewrite <- Heq. apply list_elem_of_fmap. eauto.
  - by apply (Hseen y); [constructor|].
Qed.

Lemma unique_NoDup (arr : list Element) :
  NoDup (map el_id arr) -> unique arr = arr.
Proof. intros Hnd. apply unique_from_NoDup; [exact Hnd|]. intros x _. set_solver. Qed.

Lemma unique_from_one_identity (seen : gset nat) (arr : list Element) (i : nat) :
  Forall (fun x => el_id x = i) arr ->
  (length (unique_from seen arr) <= 1)%nat
  /\ (i ∈ seen -> unique_from seen arr = []).
Proof.
  intros Hall. revert seen.
  induction Hall as [|x t Hx Ht IH]; intros seen; simpl; [split; [lia|done]|].
  case_bool_decide as Hin.
  - destruct (IH seen) as [Hlen Hnil]. split; [exact Hlen|]. exact Hnil.
  - pose proof (IH ({[ el_id x ]} ∪ seen)) as [_ Hnil].
    rewrite Hnil by (rewrite elem_of_union, elem_of_singleton; auto).
    split; [simpl; lia|].
    intros Hi. rewrite Hx in Hin. contradiction.
Qed.

Section SidebarFacts.
Variable localeCompare : string -> string -> Z.
Hypothesis compare_antisym :
  forall a b, Z.sgn (localeCompare a b) = - Z.sgn (localeCompare b a).
Hypothesis compare_trans :
  forall a b c, localeCompare a b <= 0 -> localeCompare b c <= 0 -> localeCompare a c <= 0.

Lemma compare_refl (a : string) : localeCompare a a = 0.
Proof. pose proof (compare_antisym a a). lia. Qed.

Lemma compare_lt_trans (a b c : string) :
  (localeCompare a b < 0 /\ localeCompare b c <= 0)
  \/ (localeCompare a b <= 0 /\ localeCompare b c < 0) ->
  localeCompare a c < 0.
Proof.
  intros H.
  destruct (Z.lt_ge_cases (localeCompare a c) 0) as [Hlt|Hge]; [exact Hlt|exfalso].
  assert (localeCompare c a <= 0) as Hca by (pose proof (compare_antisym a c); lia).
  destruct H as [[Hab Hbc]|[Hab Hbc]].
  - pose proof (compare_trans b c a Hbc Hca). pose proof (compare_antisym a b). lia.
  - pose proof (compare_trans c a b Hca Hab). pose proof (compare_antisym b c). lia.
Qed.

Lemma compare_eq_trans (a b c : string) :
  localeCompare a b = 0 -> localeCompare b c = 0 -> localeCompare a c = 0.
Proof.
  intros Hab Hbc.
  assert (localeCompare a c <= 0) by (apply (compare_trans a b c); lia).
  assert (localeCompare c a <= 0).
  { apply (compare_trans c b a).
    - pose proof (compare_antisym b c). lia.
    - pose proof (compare_antisym a b). lia. }
  pose proof (compare_antisym a c). lia.
Qed.

Lemma compare_entries_le (a b : Entry) :
  compare_entries localeCompare a b <= 0
  <-> localeCompare (label a) (label b) < 0
      \/ (localeCompare (label a) (label b) = 0 /\ (idx a <= idx b)%nat).
Proof.
  unfold compare_entries.
  destruct (Z.eqb_spec (localeCompare (label a) (label b)) 0) as [Hz|Hnz]; simpl; lia.
Qed.

Lemma compare_entries_total (a b : Entry) :
  compare_entries localeCompare a b <= 0 \/ compare_entries localeCompare b a <= 0.
Proof.
  rewrite !compare_entries_le.
  pose proof (compare_antisym (label a) (label b)). lia.
Qed.

Lemma compare_entries_trans (a b c : Entry) :
  compare_entries localeCompare a b <= 0 -> compare_entries localeCompare b c <= 0 ->
  compare_entries localeCompare a c <= 0.
Proof.
  rewrite !compare_entries_le. intros [Hab|[Hab Hi]] [Hbc|[Hbc Hj]].
  - left. apply (compare_lt_trans _ (label b)). left. lia.
  - left. apply (compare_lt_trans _ (label b)). left. lia.
  - left. apply (compare_lt_trans _ (label b)). right. lia.
  - right. split; [by apply (compare_eq_trans _ (label b))|lia].
Qed.
End SidebarFacts.

Section TabBarFacts.
Context {engine : Engine}.

Lemma entries_of_elements (items : list Element) : map el (entries_of items) = items.
Proof.
  unfold entries_of.
  change (map el ?l) with (el <$> l). rewrite fmap_imap.
  apply list_eq. intros i. rewrite list_lookup_imap. by destruct (items !! i).
Qed.

Lemma entries_of_lookup (items : list Element) (i : nat) (e : Entry) :
  entries_of items !! i = Some e
  <-> exists x, items !! i = Some x
                /\ e = {| el := x; idx := i; label := labelKey (tabLabel x) |}.
Proof.
  unfold entries_of. rewrite list_lookup_imap.
  destruct (items !! i) as [x|]; simpl.
  - split; [intros [= <-]; eauto|]. by intros (y & [= <-] & ->).
  - split; [discriminate|]. by intros (y & ? & _).
Qed.

Lemma entries_of_elem (items : list Element) (e : Entry) :
  e ∈ entries_of items ->
  label e = labelKey (tabLabel (el e)) /\ items !! idx e = Some (el e).
Proof.
  intros [i Hi]%list_elem_of_lookup.
  apply entries_of_lookup in Hi as (x & Hx & ->). by simpl.
Qed.

Section SortedItems.
Variable localeCompare : string -> string -> Z.
Hypothesis compare_antisym :
  forall a b, Z.sgn (localeCompare a b) = - Z.sgn (localeCompare b a).
Hypothesis compare_trans :
  forall a b c, localeCompare a b <= 0 -> localeCompare b c <= 0 -> localeCompare a c <= 0.

Lemma sorted_items_perm (items : list Element) :
  sorted_items localeCompare items ≡ₚ items.
Proof.
  unfold sorted_items. rewrite <- (entries_of_elements items) at 2.
  apply (fmap_Permutation el), sort_perm.
Qed.

Lemma sorted_entries (items : list Element) :
  StronglySorted (ascending (compare_entries localeCompare))
    (sort (compare_entries localeCompare) (entries_of items)).
Proof.
  apply sort_sorted.
  - apply compare_entries_total, compare_antisym.
  - apply compare_entries_trans; [exact compare_antisym|exact compare_trans].
Qed.

Lemma sorted_items_sorted (items : list Element) :
  StronglySorted (label_order localeCompare) (sorted_items localeCompare items).
Proof.
  unfold sorted_items.
  pose proof (sorted_entries items) as Hs.
  assert (Forall (fun e => label e = labelKey (tabLabel (el e)))
            (sort (compare_entries localeCompare) (entries_of items))) as Hl.
  { apply Forall_forall. intros e He. rewrite sort_perm in He.
    by apply entries_of_elem in He as [? _]. }
  induction Hs as [|e rest Hrest IH Hhd]; simpl; [constructor|].
  apply Forall_cons in Hl as [He Hl].
  constructor; [by apply IH|].
  apply Forall_fmap, Forall_forall. intros e' He'.
  rewrite Forall_forall in Hhd, Hl. specialize (Hhd e' He'). specialize (Hl e' He').
  unfold ascending in Hhd. apply compare_entries_le in Hhd.
  unfold label_order. simpl. rewrite <- He, <- Hl. lia.
Qed.

(** Items whose labels compare equal keep their relative order. *)
Lemma sorted_items_stable (items : list Element) (i j : nat) (a b : Element) :
  (i < j)%nat -> items !! i = Some a -> items !! j = Some b ->
  localeCompare (labelKey (tabLabel a)) (labelKey (tabLabel b)) = 0 ->
  before (sorted_items localeCompare items) a b.
Proof.
  intros Hij Ha Hb Heq.
  set (ea := {| el := a; idx := i; label := labelKey (tabLabel a) |}).
  set (eb := {| el := b; idx := j; label := labelKey (tabLabel b) |}).
  set (sorted := sort (compare_entries localeCompare) (entries_of items)).
  assert (ea ∈ sorted) as [p Hp]%list_elem_of_lookup.
  { subst sorted. rewrite sort_perm. apply list_elem_of_lookup. exists i.
    apply entries_of_lookup. eauto. }
  assert (eb ∈ sorted) as [q Hq]%list_elem_of_lookup.
  { subst sorted. rewrite sort_perm. apply list_elem_of_lookup. exists j.
    apply entries_of_lookup. eauto. }
  pose proof (sorted_entries items) as Hs. fold sorted in Hs.
  rewrite StronglySorted_by_lookup in Hs.
  assert (p < q)%nat as Hpq.
  { destruct (Nat.lt_trichotomy p q) as [Hlt|[->|Hgt]]; [exact Hlt| |].
    - assert (idx ea = idx eb) as Hidx by congruence. simpl in Hidx. lia.
    - exfalso. specialize (Hs q p eb ea Hgt Hq Hp).
      unfold ascending in Hs. apply compare_entries_le in Hs. simpl in Hs.
      pose proof (compare_antisym (labelKey (tabLabel a)) (labelKey (tabLabel b))).
      lia. }
  exists p, q. split; [exact Hpq|]. unfold sorted_items. fold sorted.
  change (map el sorted) with (el <$> sorted). rewrite !list_lookup_fmap, Hp, Hq.
  by split.
Qed.

(** A list already in label order is what the sort returns. *)
Lemma sorted_items_of_sorted (items : list Element) :
  StronglySorted (label_order localeCompare) items ->
  sorted_items localeCompare items = items.
Proof.
  intros Hs. unfold sorted_items. rewrite sort_of_sorted; [apply entries_of_elements|].
  apply StronglySorted_by_lookup. intros i j e1 e2 Hij H1 H2.
  apply entries_of_lookup in H1 as (x & Hx & ->).
  apply entries_of_lookup in H2 as (y & Hy & ->).
  rewrite StronglySorted_by_lookup in Hs. specialize (Hs i j x y Hij Hx Hy).
  unfold ascending. apply compare_entries_le. simpl. unfold label_order in Hs. lia.
Qed.

(** The sorted order of the entries does not depend on the algorithm: the
    comparator with its index tie-break has exactly one sorted arrangement. *)
Lemma sorted_entries_unique (items : list Element) (arranged : list Entry) :
  arranged ≡ₚ entries_of items ->
  StronglySorted (ascending (compare_entries localeCompare)) arranged ->
  arranged = sort (compare_entries localeCompare) (entries_of items).
Proof.
  intros Hperm Hsorted.
  apply (StronglySorted_unique_strong (ascending (compare_entries localeCompare)));
    [|exact Hsorted|apply sorted_entries|by rewrite sort_perm].
  intros e1 e2 H1 H2 H12 H21. rewrite Hperm in H1. rewrite sort_perm in H2.
  apply entries_of_elem in H1 as [Hl1 Hi1]. apply entries_of_elem in H2 as [Hl2 Hi2].
  unfold ascending in H12, H21. apply compare_entries_le in H12, H21.
  pose proof (compare_antisym (label e1) (label e2)).
  assert (idx e1 = idx e2) as Hidx by lia.
  rewrite Hidx in Hi1. rewrite Hi1 in Hi2. injection Hi2 as Hel.
  destruct e1, e2. simpl in *. congruence.
Qed.
End SortedItems.

(** *** Moving the children *)

Lemma same_refl (a : Element) : same a a = true.
Proof. apply Nat.eqb_refl. Qed.

Lemma existsb_same_elem (c : Element) (l : list Element) :
  c ∈ l -> existsb (same c) l = true.
Proof.
  intros Hc. apply existsb_exists. exists c. split; [by apply list_elem_of_In|].
  apply same_refl.
Qed.

Lemma existsb_same_ids (c : Element) (l : list Element) :
  existsb (same c) l = true <-> el_id c ∈ map el_id l.
Proof.
  rewrite existsb_exists. split.
  - intros (x & Hx%list_elem_of_In & Hs). apply Nat.eqb_eq in Hs. rewrite Hs.
    apply list_elem_of_fmap. eauto.
  - intros (x & Hid & Hx)%list_elem_of_fmap. exists x.
    split; [by apply list_elem_of_In|]. by apply Nat.eqb_eq.
Qed.

Lemma appendChild_all (moved kids : list Element) :
  NoDup (map el_id moved) ->
  fold_left (fun kids x => appendChild x kids) moved kids
  = List.filter (fun c => negb (existsb (same c) moved)) kids ++ moved.
Proof.
  revert kids. induction moved as [|x rest IH]; intros kids Hnd; simpl.
  - rewrite app_nil_r. symmetry. apply List_filter_all, Forall_forall. done.
  - apply NoDup_cons in Hnd as [Hx Hnd]. rewrite IH by exact Hnd.
    unfold appendChild. rewrite List.filter_app, List_filter_filter. simpl.
    assert (existsb (same x) rest = false) as ->.
    { apply not_true_is_false. rewrite existsb_same_ids. exact Hx. }
    simpl. rewrite <- app_assoc. simpl. f_equal.
    apply List.filter_ext. intros c. by rewrite negb_orb.
Qed.

Lemma fold_left_el (sorted : list Entry) (kids : list Element) :
  fold_left (fun kids e => appendChild (el e) kids) sorted kids
  = fold_left (fun kids x => appendChild x kids) (map el sorted) kids.
Proof.
  revert kids. induction sorted as [|e rest IH]; intros kids; simpl; [reflexivity|].
  apply IH.
Qed.

(** *** What [getSortableItems] returns *)

Lemma getSortableItems_wide (c : Container) :
  (2 <= length (children c))%nat ->
  getSortableItems c = unique (List.filter sortable (children c)).
Proof.
  intros Hlen. unfold getSortableItems.
  destruct (Nat.ltb_spec (length (children c)) 2) as [?|_]; [lia|].
  by rewrite List_filter_filter.
Qed.

Lemma getSortableItems_narrow (c : Container) :
  (length (children c) < 2)%nat -> (length (getSortableItems c) < 2)%nat.
Proof.
  intros Hlen. unfold getSortableItems.
  destruct (Nat.ltb_spec (length (children c)) 2) as [_|?]; [|lia].
  destruct (children c) as [|x [|y t]]; simpl in *; [lia| |lia].
  rewrite app_nil_r, List_filter_filter.
  assert (Forall (fun y => el_id y = el_id x)
            (List.filter
               (fun n => (tabLike n || hasInnerTab n)
                         && (0 <? String.length (labelKey (tabLabel n)))%nat)
               (replicate (innerTabs x) x))) as Hall.
  { apply Forall_forall. intros y Hy%list_elem_of_In.
    apply filter_In in Hy as [Hy%list_elem_of_In _].
    by apply elem_of_replicate in Hy as [-> _]. }
  destruct (unique_from_one_identity ∅ _ _ Hall) as [Hle _]. unfold unique. lia.
Qed.

Lemma filter_ids_NoDup (f : Element -> bool) (l : list Element) :
  NoDup (map el_id l) -> NoDup (map el_id (List.filter f l)).
Proof.
  intros Hnd. eapply sublist_NoDup; [exact Hnd|].
  apply (fmap_sublist el_id), List_filter_sublist.
Qed.

Lemma getSortableItems_direct (c : Container) :
  (2 <= length (children c))%nat ->
  NoDup (map el_id (children c)) ->
  getSortableItems c = List.filter sortable (children c).
Proof.
  intros Hlen Hnd. rewrite getSortableItems_wide by exact Hlen.
  by apply unique_NoDup, filter_ids_NoDup.
Qed.

Lemma existsb_id_false (l : list bool) :
  existsb (fun b => b) l = false <-> forall i b, l !! i = Some b -> b = false.
Proof.
  induction l as [|x t IH]; simpl.
  - split; [intros _ i b; discriminate|reflexivity].
  - rewrite orb_false_iff, IH. split.
    + intros [-> Ht] [|i] b Hb; simpl in Hb; [congruence|eauto].
    + intros H. split; [by apply (H O)|]. intros i b Hb. by apply (H (S i)).
Qed.

Lemma changed_false_iff (items : list Element) (sorted : list Entry) :
  NoDup (map el_id items) ->
  map el sorted ≡ₚ items ->
  existsb (fun b => b)
    (imap (fun i e =>
             match items !! i with
             | Some item => negb (same (el e) item)
             | None => true
             end) sorted) = false
  <-> map el sorted = items.
Proof.
  intros Hnd Hperm. rewrite existsb_id_false. split.
  - intros Hall. apply list_eq. intros i.
    change (map el sorted) with (el <$> sorted). rewrite list_lookup_fmap.
    destruct (sorted !! i) as [e|] eqn:He; simpl.
    + specialize (Hall i (match items !! i with
                          | Some item => negb (same (el e) item)
                          | None => true
                          end)).
      rewrite list_lookup_imap, He in Hall. specialize (Hall eq_refl).
      destruct (items !! i) as [item|] eqn:Hi; [|discriminate].
      f_equal. apply negb_false_iff, Nat.eqb_eq in Hall.
      apply (NoDup_fmap_eq el_id items); [exact Hnd| |by eapply list_elem_of_lookup_2|exact Hall].
      rewrite <- Hperm. apply list_elem_of_fmap. exists e.
      split; [reflexivity|by eapply list_elem_of_lookup_2].
    + symmetry. apply lookup_ge_None. apply lookup_ge_None in He.
      apply Permutation_length in Hperm. rewrite length_map in Hperm. lia.
  - intros Heq i b. rewrite list_lookup_imap.
    destruct (sorted !! i) as [e|] eqn:He; simpl; [|discriminate].
    assert (items !! i = Some (el e)) as ->.
    { rewrite <- Heq. change (map el sorted) with (el <$> sorted).
      by rewrite list_lookup_fmap, He. }
    intros [= <-]. by rewrite same_refl.
Qed.

Section SortOneFacts.
Variable localeCompare : string -> string -> Z.
Hypothesis compare_antisym :
  forall a b, Z.sgn (localeCompare a b) = - Z.sgn (localeCompare b a).
Hypothesis compare_trans :
  forall a b c, localeCompare a b <= 0 -> localeCompare b c <= 0 -> localeCompare a c <= 0.

Lemma sorted_items_short (items : list Element) :
  (length items < 2)%nat -> sorted_items localeCompare items = items.
Proof. destruct items as [|x [|y t]]; simpl; intros; [reflexivity|reflexivity|lia]. Qed.

Lemma getSortableItems_after_move (c : Container) (sig : option string) :
  NoDup (map el_id (children c)) ->
  (2 <= length (getSortableItems c))%nat ->
  getSortableItems
    {| children :=
         fold_left (fun kids e => appendChild (el e) kids)
           (sort (compare_entries localeCompare) (entries_of (getSortableItems c)))
           (children c);
       signature := sig |}
  = sorted_items localeCompare (getSortableItems c).
Proof.
  intros Hnd Hlen.
  assert (2 <= length (children c))%nat as Hwide.
  { destruct (Nat.lt_ge_cases (length (children c)) 2) as [Hn|?]; [|lia].
    apply getSortableItems_narrow in Hn. lia. }
  pose proof (sorted_items_perm localeCompare (getSortableItems c)) as Hperm.
  set (S := sorted_items localeCompare (getSortableItems c)) in *.
  rewrite (getSortableItems_direct c Hwide Hnd) in Hperm.
  assert (NoDup (map el_id S)) as HndS.
  { change (map el_id S) with (el_id <$> S). rewrite Hperm. by apply filter_ids_NoDup. }
  rewrite fold_left_el. fold (sorted_items localeCompare (getSortableItems c)). fold S.
  rewrite appendChild_all by exact HndS.
  rewrite getSortableItems_wide.
  - cbn [children]. rewrite List.filter_app.
    rewrite (List_filter_none sortable).
    + simpl. rewrite List_filter_all; [by apply unique_NoDup|].
      apply Forall_forall. intros x Hx. rewrite Hperm in Hx.
      apply list_elem_of_In, filter_In in Hx. tauto.
    + apply Forall_forall. intros x Hx%list_elem_of_In.
      apply filter_In in Hx as [Hx Hout]. apply negb_true_iff in Hout.
      destruct (sortable x) eqn:Hs; [exfalso|reflexivity].
      assert (x ∈ S) as HxS.
      { rewrite Hperm. apply list_elem_of_In, filter_In. by split. }
      apply existsb_same_elem in HxS. congruence.
  - cbn [children]. rewrite length_app.
    apply Permutation_length in Hperm.
    rewrite <- (getSortableItems_direct c Hwide Hnd) in Hperm. lia.
Qed.

End SortOneFacts.

Lemma entries_labels (items : list Element) (arranged : list Entry) :
  arranged ≡ₚ entries_of items ->
  map label arranged = map (fun n => labelKey (tabLabel n)) (map el arranged).
Proof.
  intros Hperm. rewrite List.map_map. apply List.map_ext_in.
  intros e He%list_elem_of_In. rewrite Hperm in He.
  by apply entries_of_elem in He as [? _].
Qed.

(** The children that are not among the sorted items are those that are not
    sortable. *)
Lemma unmoved_children (kids moved : list Element) :
  NoDup (map el_id kids) ->
  moved ≡ₚ List.filter sortable kids ->
  List.filter (fun c => negb (existsb (same c) moved)) kids
  = List.filter (fun c => negb (sortable c)) kids.
Proof.
  intros Hnd Hperm. apply List.filter_ext_in. intros c Hc%list_elem_of_In. f_equal.
  destruct (sortable c) eqn:Hs.
  - apply existsb_same_elem. rewrite Hperm. apply list_elem_of_In, filter_In.
    split; [by apply list_elem_of_In|exact Hs].
  - apply not_true_is_false. rewrite existsb_same_ids.
    intros (x & Hid & Hx)%list_elem_of_fmap. rewrite Hperm in Hx.
    apply list_elem_of_In, filter_In in Hx as [Hx%list_elem_of_In Hsx].
    assert (c = x) as -> by (by apply (NoDup_fmap_eq el_id kids)).
    congruence.
Qed.
End TabBarFacts.

Lemma ordinal_compare_antisym (a b : string) :
  Z.sgn (Example.ordinal_compare a b) = - Z.sgn (Example.ordinal_compare b a).
Proof.
  unfold Example.ordinal_compare. rewrite (String.compare_antisym a b).
  by destruct (String.compare b a).
Qed.

(** C7.  For a container whose children are distinct elements and a
    consistent comparator.  With fewer than two children nothing is done and
    [false] is returned.  With two or more, the sortable items are the
    children that are tab-like or hold an inner tab and whose label key is
    not empty, in DOM order; with fewer than two of them, or when the
    signature cache holds their label signature, nothing is done and [false]
    is returned.  Otherwise there is an arrangement of the sortable items,
    a permutation of them in ascending label order in which items whose
    labels compare equal keep their DOM order, and the order they have when
    they are in ascending label order already, such that: when it is the
    order the items already have, no child moves, the signature is recorded
    and [false] is returned; when it is not, the other children keep their
    order and are followed by the items in the sorted arrangement, the
    signature of the sorted arrangement is recorded and [true] is
    returned. *)
Theorem sortOneContainer_sorts {engine : Engine} (localeCompare : string -> string -> Z)
  (compare_antisym :
     forall a b, Z.sgn (localeCompare a b) = - Z.sgn (localeCompare b a))
  (compare_trans :
     forall a b c, localeCompare a b <= 0 -> localeCompare b c <= 0 ->
                   localeCompare a c <= 0)
  (container : Container)
  (Hdistinct : NoDup (map el_id (children container))) :
  let is_item := fun n : Element =>
    ((tabLike n || hasInnerTab n)
     && (0 <? String.length (labelKey (tabLabel n)))%nat)%bool in
  let items := List.filter is_item (children container) in
  let others := List.filter (fun n => negb (is_item n)) (children container) in
  let key := fun n : Element => labelKey (tabLabel n) in
  let result := sortOneContainer localeCompare container in
  ((length (children container) < 2)%nat -> result = (false, container))
  /\ ((2 <= length (children container))%nat ->
      getSortableItems container = items
      /\ ((length items < 2)%nat -> result = (false, container))
      /\ (signature container = Some (join "|" (map key items)) ->
          result = (false, container))
      /\ ((2 <= length items)%nat ->
          signature container <> Some (join "|" (map key items)) ->
          exists arranged : list Element,
            arranged ≡ₚ items
            /\ StronglySorted (fun a b => localeCompare (key a) (key b) <= 0) arranged
            /\ (forall i j a b,
                   (i < j)%nat -> items !! i = Some a -> items !! j = Some b ->
                   localeCompare (key a) (key b) = 0 -> before arranged a b)
            /\ (StronglySorted (fun a b => localeCompare (key a) (key b) <= 0) items ->
                arranged = items)
            /\ (arranged = items ->
                result = (false, {| children := children container;
                                    signature := Some (join "|" (map key items)) |}))
            /\ (arranged <> items ->
                result = (true, {| children := others ++ arranged;
                                   signature := Some (join "|" (map key arranged)) |})))).
Proof.
  intros is_item items others key result. split.
  - intros Hnarrow. apply getSortableItems_narrow in Hnarrow.
    subst result. unfold sortOneContainer. cbv zeta.
    by destruct (Nat.ltb_spec (length (getSortableItems container)) 2) as [_|?]; [|lia].
  - intros Hwide.
    pose proof (getSortableItems_direct container Hwide Hdistinct) as Hitems.
    change (List.filter sortable (children container)) with items in Hitems.
    split; [exact Hitems|].
    subst result. unfold sortOneContainer. cbv zeta. rewrite Hitems.
    change (map (fun n => labelKey (tabLabel n)) items) with (map key items).
    split; [|split].
    + intros Hshort.
      by destruct (Nat.ltb_spec (length items) 2) as [_|?]; [|lia].
    + intros Hhit. destruct (length items <? 2)%nat; [reflexivity|].
      by rewrite bool_decide_eq_true_2.
    + intros Hlong Hmiss.
      destruct (Nat.ltb_spec (length items) 2) as [?|_]; [lia|].
      rewrite bool_decide_eq_false_2 by exact Hmiss.
      fold (entries_of items).
      set (sorted := sort (compare_entries localeCompare) (entries_of items)).
      assert (NoDup (map el_id items)) as Hnd by (by apply filter_ids_NoDup).
      pose proof (sorted_items_perm localeCompare items) as Hperm.
      pose proof (changed_false_iff items sorted Hnd Hperm) as Hch.
      exists (map el sorted).
      split; [exact Hperm|].
      split; [by apply sorted_items_sorted|].
      split; [intros i j a b; by apply sorted_items_stable|].
      split; [by apply sorted_items_of_sorted|].
      destruct (existsb (fun b => b) _) eqn:Echanged; cbn [negb].
      * split.
        { intros Heq. apply Hch in Heq. congruence. }
        intros _. rewrite fold_left_el.
        rewrite appendChild_all
          by (change (map el_id (map el sorted))
                with (el_id <$> sorted_items localeCompare items);
              by rewrite Hperm).
        rewrite (unmoved_children (children container) (map el sorted) Hdistinct Hperm).
        rewrite (entries_labels items sorted) by apply sort_perm.
        reflexivity.
      * split; [reflexivity|]. intros Hne. exfalso. apply Hne. by apply Hch.
Qed.

Section TabBarWitness.
#[local] Existing Instance ascii_engine.

(** On a bar of three tabs around a spacer: the tabs are the sortable
    items, and through the theorem they end up in label order behind the
    spacer, which stays. *)
Lemma sortOneContainer_sorts_witness :
  NoDup (map el_id (children Example.tab_bar))
  /\ getSortableItems Example.tab_bar
     = [Example.tab 1 "Workflows"; Example.tab 2 "  Assets "; Example.tab 4 "Models"]
  /\ sortOneContainer Example.ordinal_compare Example.tab_bar
     = (true,
        {| children := [Example.spacer; Example.tab 2 "  Assets ";
                        Example.tab 4 "Models"; Example.tab 1 "Workflows"];
           signature := Some "assets|models|workflows" |})
  /\ StronglySorted
       (fun a b => Example.ordinal_compare (labelKey (tabLabel a))
                     (labelKey (tabLabel b)) <= 0)
       [Example.tab 2 "  Assets "; Example.tab 4 "Models"; Example.tab 1 "Workflows"].
Proof.
  assert (NoDup (map el_id (children Example.tab_bar))) as Hnd.
  { apply (bool_decide_unpack _). vm_compute. exact I. }
  split; [exact Hnd|].
  destruct (proj2 (sortOneContainer_sorts Example.ordinal_compare ordinal_compare_antisym
                     ordinal_compare_trans Example.tab_bar Hnd))
    as (Hitems & _ & _ & Hsort).
  { simpl. lia. }
  split; [exact Hitems|].
  destruct Hsort as (arranged & Hperm & Hsorted & _ & _ & _ & Hmoved).
  { simpl. lia. }
  { discriminate. }
  assert (arranged
          <> [Example.tab 1 "Workflows"; Example.tab 2 "  Assets "; Example.tab 4 "Models"])
    as Hne.
  { intros ->. apply StronglySorted_inv in Hsorted as [_ Hhead].
    apply Forall_cons in Hhead as [Hhead _]. vm_compute in Hhead. by apply Hhead. }
  specialize (Hmoved Hne).
  assert (arranged
          = [Example.tab 2 "  Assets "; Example.tab 4 "Models"; Example.tab 1 "Workflows"])
    as ->.
  { assert (children (sortOneContainer Example.ordinal_compare Example.tab_bar).2
            = [Example.spacer; Example.tab 2 "  Assets "; Example.tab 4 "Models";
               Example.tab 1 "Workflows"]) as Hkids by (vm_compute; reflexivity).
    rewrite Hmoved in Hkids. cbn [snd children] in Hkids.
    change (List.filter _ (children Example.tab_bar)) with [Example.spacer] in Hkids.
    by injection Hkids. }
  split; [exact Hmoved|exact Hsorted].
Defined.

Example tab_bar_sorted :
  sortOneContainer Example.ordinal_compare Example.tab_bar
  = (true,
     {| children := [Example.spacer; Example.tab 2 "  Assets "; Example.tab 4 "Models";
                     Example.tab 1 "Workflows"];
        signature := Some "assets|models|workflows" |}).
Proof. vm_compute. reflexivity. Qed.
End TabBarWitness.

(** *** What [normalizeListWithAny] returns, and when it throws *)

Lemma nonempty_true (s : string) : nonempty s = true <-> s <> "".
Proof. destruct s; simpl; split; congruence. Qed.

Section NormalizeFacts.
Context {engine : Engine}.
Variable ToString : value -> string.

Lemma trim_Any : trim "Any" = "Any".
Proof. by apply trim_visible. Qed.

(** One iteration, by the text the element gives. *)
Lemma normalize_step_text (out : list string) (seen : gset string) (v : value) :
  normalize_step ToString (Returned (out, seen)) v
  = match text_of ToString v with
    | None => Threw
    | Some t =>
        if negb (nonempty (trim t)) then Returned (out, seen)
        else if bool_decide (trim t ∈ seen) then Returned (out, seen)
             else Returned (out ++ [trim t], {[ trim t ]} ∪ seen)
    end.
Proof.
  unfold normalize_step, text_of, element_text.
  destruct v as [| |b|n|s|elems|props]; try (by destruct (ToString _)).
  - by destruct s.
  - cbn [optional_get].
    destruct (props_get props "name") as [| |b|n|s|elems'|props'] eqn:Hname;
      cbn [truthy]; try (by destruct (ToString _)).
    + destruct b; [reflexivity|by destruct (ToString _)].
    + destruct n as [|sign|q]; [by destruct (ToString _)|reflexivity|].
      destruct (negb (Qeq_bool q 0)) eqn:Hq; cbn [truthy]; rewrite ?Hq;
        [reflexivity|by destruct (ToString _)].
    + destruct s as [|c r]; [by destruct (ToString _)|reflexivity].
    + reflexivity.
    + reflexivity.
Qed.

Lemma normalize_step_cases (out : list string) (seen : gset string) (v : value)
  (r : list string * gset string) :
  normalize_step ToString (Returned (out, seen)) v = Returned r ->
  r = (out, seen)
  \/ exists s, trimmed s /\ (s ∉ seen) /\ r = (out ++ [s], {[ s ]} ∪ seen).
Proof.
  rewrite normalize_step_text.
  destruct (text_of ToString v) as [text|]; [|discriminate].
  destruct (nonempty (trim text)) eqn:Hne; simpl; [|intros [= <-]; by left].
  case_bool_decide as Hseen; intros [= <-]; [by left|right].
  exists (trim text). split; [|by split].
  split; [by apply nonempty_true|apply trim_trim].
Qed.

Lemma normalize_threw (src : list value) :
  fold_left (normalize_step ToString) src Threw = Threw.
Proof. by induction src. Qed.

Lemma normalize_fold_invariant (src : list value) (out out' : list string)
  (seen seen' : gset string) :
  fold_left (normalize_step ToString) src (Returned (out, seen)) = Returned (out', seen') ->
  (forall s, s ∈ seen <-> s ∈ out) -> NoDup out -> Forall trimmed out ->
  (forall s, s ∈ seen' <-> s ∈ out') /\ NoDup out' /\ Forall trimmed out'
  /\ exists more, out' = out ++ more.
Proof.
  revert out seen. induction src as [|v rest IH]; intros out seen; cbn [fold_left].
  - intros [= <- <-] Hseen Hnd Hall.
    split; [exact Hseen|]. split; [exact Hnd|]. split; [exact Hall|].
    exists []. by rewrite app_nil_r.
  - destruct (normalize_step ToString (Returned (out, seen)) v) as [[out1 seen1]|] eqn:Hstep;
      [|by rewrite normalize_threw].
    intros Hfold Hseen Hnd Hall.
    apply normalize_step_cases in Hstep as [[= -> ->]|(s & Hs & Hnew & [= -> ->])].
    + by apply (IH out seen).
    + destruct (IH (out ++ [s]) ({[ s ]} ∪ seen) Hfold) as (H1 & H2 & H3 & more & ->).
      * intros s'. rewrite elem_of_union, elem_of_singleton, elem_of_app,
          list_elem_of_singleton, Hseen. tauto.
      * apply NoDup_app. split; [exact Hnd|]. split; [|apply NoDup_singleton].
        intros s' Hin ->%list_elem_of_singleton. by apply Hnew, Hseen.
      * apply Forall_app. split; [exact Hall|by constructor].
      * split; [exact H1|]. split; [exact H2|]. split; [exact H3|].
        exists (s :: more). by rewrite <- app_assoc.
Qed.

(** The loop returns when every element gives a text, and then the list
    holds what it held and the non-empty trimmed texts. *)
Lemma normalize_fold_members (src : list value) (out : list string) (seen : gset string) :
  (forall v, v ∈ src -> is_Some (text_of ToString v)) ->
  (forall s, s ∈ seen <-> s ∈ out) ->
  exists out' seen',
    fold_left (normalize_step ToString) src (Returned (out, seen)) = Returned (out', seen')
    /\ (forall s, s ∈ out'
                  <-> s ∈ out
                      \/ (s <> "" /\ exists v t, v ∈ src /\ text_of ToString v = Some t
                                                 /\ s = trim t)).
Proof.
  revert out seen. induction src as [|x rest IH]; intros out seen Htext Hseen.
  - exists out, seen. split; [reflexivity|]. intros s. split; [by left|].
    intros [H|(_ & v & t & Hv & _)]; [exact H|by apply elem_of_nil in Hv].
  - cbn [fold_left]. rewrite normalize_step_text.
    destruct (Htext x) as [tx Hx]; [by left|]. rewrite Hx.
    assert (forall v, v ∈ rest -> is_Some (text_of ToString v)) as Hrest
      by (intros v Hv; apply Htext; by right).
    destruct (nonempty (trim tx)) eqn:Hne; cbn [negb].
    + case_bool_decide as Hin.
      * destruct (IH out seen Hrest Hseen) as (out' & seen' & Hfold & Hmem).
        exists out', seen'. split; [exact Hfold|]. intros s. rewrite Hmem.
        split; intros [H|(Hs & v & t & Hv & Ht & Hst)]; try by left.
        { right. split; [exact Hs|]. exists v, t. split; [by right|by split]. }
        apply elem_of_cons in Hv as [->|Hv].
        { left. rewrite Hx in Ht. injection Ht as <-. rewrite Hst. by apply Hseen. }
        right. split; [exact Hs|]. by exists v, t.
      * destruct (IH (out ++ [trim tx]) ({[ trim tx ]} ∪ seen) Hrest)
          as (out' & seen' & Hfold & Hmem).
        { intros s. rewrite elem_of_union, elem_of_singleton, elem_of_app,
            list_elem_of_singleton, Hseen. tauto. }
        exists out', seen'. split; [exact Hfold|]. intros s. rewrite Hmem.
        rewrite elem_of_app, list_elem_of_singleton.
        split.
        { intros [[H| ->]|(Hs & v & t & Hv & Ht & Hst)].
          - by left.
          - right. split; [by apply nonempty_true|]. exists x, tx.
            split; [by left|by split].
          - right. split; [exact Hs|]. exists v, t. split; [by right|by split]. }
        intros [H|(Hs & v & t & Hv & Ht & Hst)]; [by left; left|].
        apply elem_of_cons in Hv as [->|Hv].
        { left; right. rewrite Hx in Ht. by injection Ht as <-. }
        right. split; [exact Hs|]. by exists v, t.
    + destruct (IH out seen Hrest Hseen) as (out' & seen' & Hfold & Hmem).
      exists out', seen'. split; [exact Hfold|]. intros s. rewrite Hmem.
      split; intros [H|(Hs & v & t & Hv & Ht & Hst)]; try by left.
      { right. split; [exact Hs|]. exists v, t. split; [by right|by split]. }
      apply elem_of_cons in Hv as [->|Hv].
      { destruct Hs. rewrite Hx in Ht. injection Ht as <-. rewrite Hst.
        destruct (trim tx); [reflexivity|discriminate]. }
      right. split; [exact Hs|]. by exists v, t.
Qed.

(** The loop throws at the first element that gives no text. *)
Lemma normalize_fold_throws (src : list value) (acc : outcome (list string * gset string)) :
  (exists v, v ∈ src /\ text_of ToString v = None) ->
  fold_left (normalize_step ToString) src acc = Threw.
Proof.
  revert acc. induction src as [|x rest IH]; intros acc (v & Hv & Hnone).
  - by apply elem_of_nil in Hv.
  - cbn [fold_left]. apply elem_of_cons in Hv as [->|Hv]; [|apply IH; eauto].
    destruct acc as [[out seen]|]; [|apply normalize_threw].
    by rewrite normalize_step_text, Hnone, normalize_threw.
Qed.

Lemma normalize_strings (rest out : list string) (seen : gset string) :
  (forall s, s ∈ seen <-> s ∈ out) -> NoDup (out ++ rest) -> Forall trimmed rest ->
  exists seen',
    fold_left (normalize_step ToString) (VString <$> rest) (Returned (out, seen))
    = Returned (out ++ rest, seen').
Proof.
  revert out seen. induction rest as [|s rest IH]; intros out seen Hseen Hnd Hall.
  - exists seen. by rewrite app_nil_r.
  - change (VString <$> s :: rest) with (VString s :: (VString <$> rest)).
    cbn [fold_left]. rewrite normalize_step_text. cbn [text_of].
    apply Forall_cons in Hall as [[Hne Htrim] Hall].
    rewrite Htrim. rewrite (proj2 (nonempty_true s) Hne). cbn [negb].
    apply NoDup_app in Hnd as (Hout & Hdisj & Hrest).
    rewrite bool_decide_eq_false_2.
    + destruct (IH (out ++ [s]) ({[ s ]} ∪ seen)) as [seen' Hfold].
      * intros s'. rewrite elem_of_union, elem_of_singleton, elem_of_app,
          list_elem_of_singleton, Hseen. tauto.
      * rewrite <- app_assoc. simpl. apply NoDup_app. by repeat split.
      * exact Hall.
      * exists seen'. rewrite <- app_assoc in Hfold. exact Hfold.
    + intros Hin%Hseen. apply (Hdisj s Hin). constructor.
Qed.

Lemma normalize_step_Any :
  normalize_step ToString (Returned (["Any"], {[ "Any" ]})) (VString "Any")
  = Returned (["Any"], {[ "Any" ]}).
Proof.
  rewrite normalize_step_text. cbn [text_of]. rewrite trim_Any. cbn [nonempty negb].
  by rewrite bool_decide_eq_true_2 by (by apply elem_of_singleton).
Qed.

(** Whenever [normalizeListWithAny] returns, the list starts with ["Any"],
    holds non-empty trimmed strings without duplicates, and is a fixed
    point of the function. *)
Lemma normalizeListWithAny_returned (values : value) (out : list string) :
  normalizeListWithAny ToString values = Returned out ->
  (exists rest, out = "Any" :: rest)
  /\ Forall trimmed out
  /\ NoDup out
  /\ normalizeListWithAny ToString (VArray (VString <$> out)) = Returned out.
Proof.
  unfold normalizeListWithAny.
  destruct (fold_left (normalize_step ToString) _ (Returned (["Any"], {[ "Any" ]})))
    as [[out' seen']|] eqn:Hfold; [|discriminate].
  intros [= ->].
  apply normalize_fold_invariant in Hfold as (Hseen & Hnd & Hall & more & ->).
  - split; [by exists more|]. split; [exact Hall|]. split; [exact Hnd|].
    change (VString <$> ["Any"] ++ more) with (VString "Any" :: (VString <$> more)).
    cbn [fold_left]. rewrite normalize_step_Any.
    destruct (normalize_strings more ["Any"] {[ "Any" ]}) as [seen2 ->]; [| | |reflexivity].
    + intros s. by rewrite elem_of_singleton, list_elem_of_singleton.
    + exact Hnd.
    + by apply Forall_app in Hall as [_ Hall].
  - intros s. by rewrite elem_of_singleton, list_elem_of_singleton.
  - apply NoDup_singleton.
  - repeat constructor; [discriminate|apply trim_Any].
Qed.

End NormalizeFacts.

(** C9.  An element gives the loop a text when it is a string, or when its
    [name] is a non-empty string, or when its [name] is falsy (the text is
    then [String(v)]); an element that is not a string and whose [name] is
    truthy and not a string gives none.  On an input one of whose elements
    gives no text [normalizeListWithAny] throws.  On every other input,
    array or not, it returns a list whose first element is "Any", whose
    elements are non-empty trimmed strings, which holds no duplicate, and
    which holds besides "Any" exactly the non-empty trimmed texts of the
    elements; the function returns that list unchanged when applied to
    it. *)
Theorem normalizeListWithAny_normal_form {engine : Engine} (ToString : value -> string)
  (values : value) :
  let src := match values with VArray elems => elems | _ => [] end in
  ((exists v, v ∈ src /\ text_of ToString v = None) ->
   normalizeListWithAny ToString values = Threw)
  /\ ((forall v, v ∈ src -> is_Some (text_of ToString v)) ->
      exists rest,
        normalizeListWithAny ToString values = Returned ("Any" :: rest)
        /\ Forall (fun s => s <> "" /\ trim s = s) ("Any" :: rest)
        /\ NoDup ("Any" :: rest)
        /\ (forall s, s ∈ rest
                      <-> s <> "Any" /\ s <> ""
                          /\ exists v t, v ∈ src /\ text_of ToString v = Some t
                                         /\ s = trim t)
        /\ normalizeListWithAny ToString (VArray (VString <$> "Any" :: rest))
           = Returned ("Any" :: rest)).
Proof.
  intros src. split.
  - intros Hbad. unfold normalizeListWithAny. fold src.
    by rewrite (normalize_fold_throws ToString).
  - intros Htext.
    destruct (normalize_fold_members ToString src ["Any"] {[ "Any" ]} Htext)
      as (out & seen & Hfold & Hmem).
    { intros s. by rewrite elem_of_singleton, list_elem_of_singleton. }
    assert (normalizeListWithAny ToString values = Returned out) as Hrun.
    { unfold normalizeListWithAny. fold src. by rewrite Hfold. }
    destruct (normalizeListWithAny_returned ToString _ _ Hrun)
      as ([rest ->] & Hall & Hnd & Hagain).
    exists rest. split; [exact Hrun|]. split; [exact Hall|]. split; [exact Hnd|].
    split; [|exact Hagain].
    intros s. specialize (Hmem s). rewrite elem_of_cons, list_elem_of_singleton in Hmem.
    apply NoDup_cons in Hnd as [Hnot _].
    split.
    + intros Hin. assert (s <> "Any") as Hne by (intros ->; by apply Hnot).
      destruct (proj1 Hmem (or_intror Hin)) as [H|H]; [done|]. tauto.
    + intros (Hne & Hs & Hfrom). destruct (proj2 Hmem (or_intror (conj Hs Hfrom))); done.
Qed.

Section NormalizeWitness.
#[local] Existing Instance ascii_engine.

(** On a list of a padded string, a named object, [null], a repeated string
    and an object with an empty name: every element gives a text, and
    through the theorem the result holds no duplicate and is returned
    unchanged when normalized again. *)
Lemma normalizeListWithAny_normal_form_witness :
  (forall v, v ∈ Example.mixed_values -> is_Some (text_of Example.plain_ToString v))
  /\ normalizeListWithAny Example.plain_ToString (VArray Example.mixed_values)
     = Returned ["Any"; "SDXL"; "Pony"; "null"; "[object Object]"]
  /\ NoDup ["Any"; "SDXL"; "Pony"; "null"; "[object Object]"]
  /\ normalizeListWithAny Example.plain_ToString
       (VArray (VString <$> ["Any"; "SDXL"; "Pony"; "null"; "[object Object]"]))
     = Returned ["Any"; "SDXL"; "Pony"; "null"; "[object Object]"].
Proof.
  assert (forall v, v ∈ Example.mixed_values
                    -> is_Some (text_of Example.plain_ToString v)) as Htext.
  { intros v Hv. repeat (apply elem_of_cons in Hv as [->|Hv]; [by eexists|]).
    by apply elem_of_nil in Hv. }
  split; [exact Htext|].
  destruct (proj2 (normalizeListWithAny_normal_form Example.plain_ToString
                     (VArray Example.mixed_values)) Htext)
    as (rest & Hrun & _ & Hnd & _ & Hagain).
  assert (rest = ["SDXL"; "Pony"; "null"; "[object Object]"]) as ->.
  { vm_compute in Hrun. by injection Hrun as <-. }
  split; [exact Hrun|]. split; [exact Hnd|exact Hagain].
Defined.

(** An element whose name is a number: [(5 || "").trim()] is a call of
    [undefined]. *)
Lemma normalizeListWithAny_numeric_name :
  normalizeListWithAny Example.plain_ToString
    (VArray [VString "SDXL"; VObject [("name", VNumber (number_of_Z 5))]])
  = Threw.
Proof. vm_compute. reflexivity. Qed.

Example normalizeListWithAny_mixed :
  normalizeListWithAny Example.plain_ToString
    (VArray Example.mixed_values)
  = Returned ["Any"; "SDXL"; "Pony"; "null"; "[object Object]"].
Proof. vm_compute. reflexivity. Qed.
End NormalizeWitness.


(** *** The search over a freshly built cache *)

(** Right after a build from a registry, the search ranges over the
    registered types that the factory could instantiate. *)
Lemma search_over_registry {engine : Engine} {Host : Type} `{!HostAPI Host}
  (localeCompare : string -> string -> Z)
  (LiteGraph : option LiteGraphGlobal) (reg : list string) (st : TKP_STATE)
  (graph : World Host) (oldNode : LGraphNode) (typeName : string) :
  (ioCacheBuilt st && bool_decide (is_Some (ioCache st)))%bool = false ->
  LiteGraph ≫= registered_node_types = Some reg ->
  typeName ∈ getValidReplacementsFromConnections localeCompare
               (ensureIOCacheBuilt LiteGraph st) graph oldNode
  <-> typeName ∈ reg
      /\ typeName <> type oldNode
      /\ exists node, safeCreateNode LiteGraph typeName = Some node
                      /\ fits_wiring graph oldNode (signature_of node).
Proof.
  intros Hunbuilt Hreg.
  destruct (built_cache_entries LiteGraph reg []) as [_ Hentries].
  { apply NoDup_nil. done. }
  { intros t sig Hin. by apply elem_of_nil in Hin. }
  assert (ioCache (ensureIOCacheBuilt LiteGraph st)
          = Some (fold_left
                    (fun cache t =>
                       match safeCreateNode LiteGraph t with
                       | None => cache
                       | Some node => map_set t (signature_of node) cache
                       end) reg [])) as Hcache.
  { unfold ensureIOCacheBuilt. by rewrite Hunbuilt, Hreg. }
  rewrite (search_is_sorted_filter localeCompare _ _ graph oldNode Hcache).
  rewrite sort_perm, list_elem_of_In, in_map_iff. split.
  - intros ([t sig] & <- & Hin). apply filter_In in Hin as [Hin Hacc].
    apply accepts_spec in Hacc as [Hne Hfit].
    apply list_elem_of_In, Hentries in Hin as [[Hnil|Hin] (node & Hnode & ->)].
    + by apply elem_of_nil in Hnil.
    + simpl. eauto.
  - intros (Hin & Hne & node & Hnode & Hfit).
    exists (typeName, signature_of node). split; [reflexivity|].
    apply filter_In. split; [|by apply accepts_spec].
    apply list_elem_of_In, Hentries. eauto.
Qed.

(** The cache a build leaves holds one entry per type. *)
Lemma search_over_registry_NoDup {engine : Engine} {Host : Type} `{!HostAPI Host}
  (localeCompare : string -> string -> Z)
  (LiteGraph : option LiteGraphGlobal) (reg : list string) (st : TKP_STATE)
  (graph : World Host) (oldNode : LGraphNode) :
  (ioCacheBuilt st && bool_decide (is_Some (ioCache st)))%bool = false ->
  LiteGraph ≫= registered_node_types = Some reg ->
  NoDup (getValidReplacementsFromConnections localeCompare
           (ensureIOCacheBuilt LiteGraph st) graph oldNode).
Proof.
  intros Hunbuilt Hreg.
  destruct (built_cache_entries LiteGraph reg []) as [Hnd _].
  { apply NoDup_nil. done. }
  { intros t sig Hin. by apply elem_of_nil in Hin. }
  assert (ioCache (ensureIOCacheBuilt LiteGraph st)
          = Some (fold_left
                    (fun cache t =>
                       match safeCreateNode LiteGraph t with
                       | None => cache
                       | Some node => map_set t (signature_of node) cache
                       end) reg [])) as Hcache.
  { unfold ensureIOCacheBuilt. by rewrite Hunbuilt, Hreg. }
  rewrite (search_is_sorted_filter localeCompare _ _ graph oldNode Hcache).
  rewrite sort_perm.
  eapply sublist_NoDup; [exact Hnd|].
  apply (fmap_sublist fst), List_filter_sublist.
Qed.

(** C1 (amended).  Right after the IO cache has been built from the
    registry, the search returns exactly the registered node types, other
    than the node's own, whose signature (that of the node the factory
    makes) fits the current wiring, where the slots that constrain a
    candidate are the connected slots with a known (non-null) required
    type: the candidate must have such a slot's index and a compatible type
    there.  The result is in ascending order of the comparator and holds no
    type twice. *)
Theorem search_returns_fitting_types {engine : Engine} {Host : Type} `{!HostAPI Host}
  (localeCompare : string -> string -> Z)
  (cmp_total : forall x y, localeCompare x y <= 0 \/ localeCompare y x <= 0)
  (cmp_trans : forall x y z,
      localeCompare x y <= 0 -> localeCompare y z <= 0 -> localeCompare x z <= 0)
  (LiteGraph : option LiteGraphGlobal) (registered : list string) (st : TKP_STATE)
  (graph : World Host) (oldNode : LGraphNode)
  (Hunbuilt : (ioCacheBuilt st && bool_decide (is_Some (ioCache st)))%bool = false)
  (Hregistry : LiteGraph ≫= registered_node_types = Some registered) :
  let result :=
    getValidReplacementsFromConnections localeCompare
      (ensureIOCacheBuilt LiteGraph st) graph oldNode in
  returns_registered fits_wiring LiteGraph registered graph oldNode result
  /\ StronglySorted (ascending localeCompare) result
  /\ NoDup result.
Proof.
  intros result. split; [|split].
  - intros typeName. by apply search_over_registry.
  - subst result. unfold getValidReplacementsFromConnections.
    destruct (ioCache (ensureIOCacheBuilt LiteGraph st));
      [by apply sort_sorted|constructor].
  - by apply (search_over_registry_NoDup localeCompare LiteGraph registered).
Qed.

Section SearchWitness.
#[local] Existing Instance ascii_engine.

Example wide_candidates :
  getValidReplacementsFromConnections Example.ordinal_compare
    (ensureIOCacheBuilt Example.wide_LiteGraph TKP_INITIAL)
    Example.chain_world Example.old_node
  = ["Anything"; "Filter"].
Proof. vm_compute. reflexivity. Qed.

(** On the chain, with the registry of eight types: the theorem applies,
    and through it the signature of ["Filter"] fits the wiring of Old and
    those of ["Latent"] (a slot of another type) and ["Sink"] (no slot) do
    not. *)
Lemma search_returns_fitting_types_witness :
  (ioCacheBuilt TKP_INITIAL && bool_decide (is_Some (ioCache TKP_INITIAL)))%bool = false
  /\ Example.wide_LiteGraph ≫= registered_node_types = Some Example.wide_registry
  /\ returns_registered fits_wiring Example.wide_LiteGraph Example.wide_registry
       Example.chain_world Example.old_node
       (getValidReplacementsFromConnections Example.ordinal_compare
          (ensureIOCacheBuilt Example.wide_LiteGraph TKP_INITIAL)
          Example.chain_world Example.old_node)
  /\ fits_wiring Example.chain_world Example.old_node (signature_of Example.filter_node)
  /\ ~ fits_wiring Example.chain_world Example.old_node
         (signature_of (Example.node_of "Latent" [Some "LATENT"] [Some "LATENT"]))
  /\ ~ fits_wiring Example.chain_world Example.old_node
         (signature_of (Example.node_of "Sink" [] [])).
Proof.
  pose proof (proj1 (search_returns_fitting_types Example.ordinal_compare
                       ordinal_compare_total ordinal_compare_trans
                       Example.wide_LiteGraph Example.wide_registry TKP_INITIAL
                       Example.chain_world Example.old_node eq_refl eq_refl)) as Hexact.
  split; [reflexivity|]. split; [reflexivity|]. split; [exact Hexact|].
  rewrite wide_candidates in Hexact.
  split; [|split].
  - destruct (proj1 (Hexact "Filter")) as (_ & _ & node & Hnode & Hfit).
    + apply list_elem_of_In. simpl. tauto.
    + injection Hnode as <-. exact Hfit.
  - intros Hfit.
    assert ("Latent" ∈ ["Anything"; "Filter"]) as Hin.
    { apply (Hexact "Latent"). split; [|split; [discriminate|]].
      - apply list_elem_of_In. unfold Example.wide_registry. simpl. tauto.
      - eexists. split; [reflexivity|exact Hfit]. }
    apply elem_of_cons in Hin as [Hin|Hin%list_elem_of_singleton]; discriminate Hin.
  - intros Hfit.
    assert ("Sink" ∈ ["Anything"; "Filter"]) as Hin.
    { apply (Hexact "Sink"). split; [|split; [discriminate|]].
      - apply list_elem_of_In. unfold Example.wide_registry. simpl. tauto.
      - eexists. split; [reflexivity|exact Hfit]. }
    apply elem_of_cons in Hin as [Hin|Hin%list_elem_of_singleton]; discriminate Hin.
Defined.

(** C1 as stated fails, in two ways.  A connected slot for which no type is
    known imposes no slot count: the node's input 0 is linked to a source,
    neither end carries a type, and the registered type without any input
    slot is returned.  And a cache that is built stays as it is: built
    when ["Filter"], ["Broken"] and ["Ghost"] were registered, it does not
    hold ["Anything"], registered since, whose signature fits Old's wiring
    at every connected slot. *)
Lemma search_departs_from_statement :
  ~ returns_registered fits_wiring_every_connected_slot Example.sink_LiteGraph ["Sink"]
      Example.untyped_world Example.untyped_node
      (getValidReplacementsFromConnections Example.ordinal_compare
         (ensureIOCacheBuilt Example.sink_LiteGraph TKP_INITIAL)
         Example.untyped_world Example.untyped_node)
  /\ ~ returns_registered fits_wiring_every_connected_slot Example.wide_LiteGraph
         Example.wide_registry Example.chain_world Example.old_node
         (getValidReplacementsFromConnections Example.ordinal_compare
            (ensureIOCacheBuilt Example.wide_LiteGraph
               (ensureIOCacheBuilt Example.example_LiteGraph TKP_INITIAL))
            Example.chain_world Example.old_node).
Proof.
  split.
  - intros H. destruct (H "Sink") as [Hfwd _].
    destruct Hfwd as (_ & _ & node & Hnode & Hfit & _).
    + vm_compute. constructor.
    + injection Hnode as <-.
      destruct (Hfit O {| in_name := "in"; in_type := None; in_link := Some 7 |}
                  {| origin_id := 2; origin_slot := 0; target_id := 1; target_slot := 0 |}
                  eq_refl eq_refl) as [Hlen _].
      simpl in Hlen. lia.
  - intros H. destruct (H "Anything") as [_ Hback].
    assert ("Anything" ∈ ["Filter"]) as Hin; [|by apply list_elem_of_singleton in Hin].
    apply Hback. split; [|split; [discriminate|]].
    + apply list_elem_of_In. unfold Example.wide_registry. simpl. tauto.
    + eexists. split; [reflexivity|]. split.
      * intros [|i] inp link Hi Hlink; [|destruct i; discriminate Hi].
        injection Hi as <-. injection Hlink as <-.
        split; [simpl; lia|reflexivity].
      * intros [|j] out Hj Hconn; [|destruct j; discriminate Hj].
        injection Hj as <-. split; [simpl; lia|reflexivity].
Qed.
End SearchWitness.

(** *** The flow on the example graph *)

Section ChainExamples.
#[local] Existing Instance ascii_engine.

Example example_cache :
  ioCache (ensureIOCacheBuilt Example.example_LiteGraph TKP_INITIAL)
  = Some [("Filter", {| inTypes := [Some "IMAGE"]; outTypes := [Some "IMAGE"] |})].
Proof. reflexivity. Qed.

Example example_candidates :
  getValidReplacementsFromConnections Example.ordinal_compare
    (ensureIOCacheBuilt Example.example_LiteGraph TKP_INITIAL)
    Example.chain_world Example.old_node
  = ["Filter"].
Proof. vm_compute. reflexivity. Qed.

Example typeCompatible_examples :
  typeCompatible (Some "IMAGE") (Some "image") = true
  /\ typeCompatible (Some "IMAGE") (Some "LATENT") = false
  /\ typeCompatible (Some "Any") (Some "LATENT") = true
  /\ typeCompatible (Some "IMAGE") (Some "*") = true
  /\ typeCompatible None None = true
  /\ typeCompatible (Some "IMAGE") None = false.
Proof. repeat split. Qed.
End ChainExamples.

(** * Further properties of the sources *)

(** ** Sidebar: a sorted container stays put *)

Section QuiescentFacts.
Context {engine : Engine}.

Lemma sorted_labels (localeCompare : string -> string -> Z) (items : list Element) :
  map label (sort (compare_entries localeCompare) (entries_of items))
  = map (fun n => labelKey (tabLabel n)) (sorted_items localeCompare items).
Proof.
  unfold sorted_items. rewrite map_map. apply map_ext_in.
  intros e He%list_elem_of_In. rewrite sort_perm in He.
  by apply entries_of_elem in He as [-> _].
Qed.

Lemma sortOneContainer_hit (localeCompare : string -> string -> Z) (c : Container) :
  signature c = Some (signature_of_items (getSortableItems c)) ->
  sortOneContainer localeCompare c = (false, c).
Proof.
  intros Hhit. unfold sortOneContainer. cbv zeta.
  destruct (length (getSortableItems c) <? 2)%nat; [reflexivity|].
  by rewrite bool_decide_eq_true_2.
Qed.

Lemma sortOneContainer_again (localeCompare : string -> string -> Z)
  (container : Container)
  (Hdistinct : NoDup (map el_id (children container))) :
  sortOneContainer localeCompare (sortOneContainer localeCompare container).2
  = (false, (sortOneContainer localeCompare container).2).
Proof.
  destruct (decide (signature container
                    = Some (signature_of_items (getSortableItems container))))
    as [Hhit|Hmiss].
  { rewrite (sortOneContainer_hit localeCompare container Hhit). simpl.
    by apply sortOneContainer_hit. }
  unfold sortOneContainer at 2 3. cbv zeta.
  destruct (Nat.ltb_spec (length (getSortableItems container)) 2) as [Hshort|Hlong].
  { simpl. unfold sortOneContainer. cbv zeta.
    destruct (Nat.ltb_spec (length (getSortableItems container)) 2); [reflexivity|lia]. }
  rewrite bool_decide_eq_false_2 by exact Hmiss.
  fold (entries_of (getSortableItems container)).
  destruct (existsb (fun b => b) _) eqn:Echanged; cbn [negb snd].
  - apply sortOneContainer_hit. cbn [signature]. f_equal.
    rewrite (getSortableItems_after_move localeCompare container _ Hdistinct)
      by exact Hlong.
    unfold signature_of_items. f_equal. apply sorted_labels.
  - apply sortOneContainer_hit. reflexivity.
Qed.

(** X1.  Sorting is quiescent: on the container a call of
    [sortOneContainer] leaves behind, the next call returns [false] and
    changes nothing, neither the children nor the cached signature.  (The
    moves of a pass wake the mutation observer; this is what ends the
    loop.)  It holds for every comparator. *)
Theorem sortOneContainer_quiescent (localeCompare : string -> string -> Z)
  (container : Container)
  (Hdistinct : NoDup (map el_id (children container))) :
  sortOneContainer localeCompare (sortOneContainer localeCompare container).2
  = (false, (sortOneContainer localeCompare container).2).
Proof. by apply sortOneContainer_again. Qed.
End QuiescentFacts.

Section QuiescentWitness.
#[local] Existing Instance ascii_engine.

Lemma sortOneContainer_quiescent_witness :
  NoDup (map el_id (children Example.tab_bar))
  /\ sortOneContainer Example.ordinal_compare
       (sortOneContainer Example.ordinal_compare Example.tab_bar).2
     = (false, (sortOneContainer Example.ordinal_compare Example.tab_bar).2).
Proof.
  assert (NoDup (map el_id (children Example.tab_bar))) as Hnd.
  { apply (bool_decide_unpack _). vm_compute. exact I. }
  split; [exact Hnd|].
  exact (sortOneContainer_quiescent Example.ordinal_compare Example.tab_bar Hnd).
Defined.

End QuiescentWitness.

(** ** The search modal *)

Lemma List_filter_elem {A : Type} (f : A -> bool) (l : list A) (x : A) :
  x ∈ List.filter f l <-> x ∈ l /\ f x = true.
Proof. by rewrite !list_elem_of_In, filter_In. Qed.

Section ModalFacts.
Context {engine : Engine}.

Lemma render_elem (types : list string) (filterText x : string) :
  x ∈ render types filterText ->
  x ∈ types
  /\ (nonempty (filter_text filterText) = true ->
      includes (toLowerCase x) (filter_text filterText) = true).
Proof.
  unfold render. cbv zeta. intros Hx.
  destruct (nonempty (filter_text filterText)) eqn:Hft; simpl in Hx.
  - apply (subseteq_take 1500), List_filter_elem in Hx. tauto.
  - apply (subseteq_take 1500) in Hx. split; [exact Hx|discriminate].
Qed.

(** X4.  What the modal lists: a sublist of the offered types, in their
    order, of at most 1500 items; with a blank filter the first 1500 types;
    with a filter only types that contain it ignoring case, and all of them
    when no more than 1500 types are offered. *)
Theorem render_lists_matches (types : list string) (filterText : string) :
  sublist (render types filterText) types
  /\ (length (render types filterText) <= 1500)%nat
  /\ (nonempty (filter_text filterText) = false ->
      render types filterText = take 1500 types)
  /\ (forall x, x ∈ render types filterText ->
                nonempty (filter_text filterText) = true ->
                includes (toLowerCase x) (filter_text filterText) = true)
  /\ (forall x, (length types <= 1500)%nat -> x ∈ types ->
                includes (toLowerCase x) (filter_text filterText) = true ->
                x ∈ render types filterText).
Proof.
  split; [|split; [|split; [|split]]].
  - unfold render. cbv zeta. destruct (nonempty _); simpl.
    + etransitivity; [apply sublist_take|apply List_filter_sublist].
    + apply sublist_take.
  - unfold render. cbv zeta. rewrite length_take. lia.
  - intros Hblank. unfold render. cbv zeta. by rewrite Hblank.
  - intros x Hx. by apply (render_elem types filterText x).
  - intros x Hlen Hx Hinc. unfold render. cbv zeta.
    destruct (nonempty _); simpl.
    + rewrite take_ge.
      * by apply List_filter_elem.
      * pose proof (sublist_length _ _ (List_filter_sublist
                      (fun x => includes (toLowerCase x) (filter_text filterText)) types)).
        lia.
    + by rewrite take_ge.
Qed.

(** What the handlers keep true of the modal's state. *)
Lemma modal_step_keeps (types : list string) (m : Modal) (e : ModalEvent) :
  (shown m = render types (search_value m)
   /\ (forall c, chosen m = Some c ->
         c ∈ types
         /\ (nonempty c = true -> nonempty (filter_text (search_value m)) = true ->
             includes (toLowerCase c) (filter_text (search_value m)) = true))
   /\ (forall t, resolved m = Some (Some t) -> t ∈ types)) ->
  let m' := modal_step types m e in
  shown m' = render types (search_value m')
  /\ (forall c, chosen m' = Some c ->
        c ∈ types
        /\ (nonempty c = true -> nonempty (filter_text (search_value m')) = true ->
            includes (toLowerCase c) (filter_text (search_value m')) = true))
  /\ (forall t, resolved m' = Some (Some t) -> t ∈ types).
Proof.
  intros Hsame. pose proof Hsame as (Hshown & Hchosen & Hres).
  cbv zeta. unfold modal_step.
  destruct (resolved m) as [r|] eqn:Hr in |- *; [exact Hsame|].
  destruct e as [text|position|position|key| |].
  - cbn [search_value chosen shown resolved].
    split; [reflexivity|]. split; [|discriminate].
    intros c. destruct (chosen m) as [c0|] eqn:Hc in |- *; [|discriminate].
    destruct (Hchosen c0 Hc) as [Hin _].
    destruct (nonempty c0) eqn:Hc0, (nonempty (filter_text text)) eqn:Hft,
      (includes (toLowerCase c0) (filter_text text)) eqn:Hinc; cbn [andb negb];
      try discriminate; intros [= <-]; (split; [exact Hin|]); congruence.
  - destruct (shown m !! position) as [type|] eqn:Hpos in |- *; [|exact Hsame].
    cbn [search_value chosen shown resolved].
    split; [reflexivity|]. split; [|discriminate].
    intros c [= <-].
    destruct (render_elem types (search_value m) type) as [Hin Hinc].
    { rewrite <- Hshown. by eapply list_elem_of_lookup_2. }
    by split.
  - destruct (shown m !! position) as [type|] eqn:Hpos in |- *; [|exact Hsame].
    unfold resolve. cbn [search_value chosen shown resolved].
    split; [exact Hshown|]. split; [exact Hchosen|].
    intros t [= <-]. apply (render_elem types (search_value m)). rewrite <- Hshown.
    by eapply list_elem_of_lookup_2.
  - destruct (String.eqb key "Escape").
    { unfold resolve. cbn [search_value chosen shown resolved].
      split; [exact Hshown|]. split; [exact Hchosen|discriminate]. }
    destruct (String.eqb key "Enter"); [|exact Hsame].
    destruct (chosen m) as [c|] eqn:Hc in |- *; [|exact Hsame].
    destruct (nonempty c); [|exact Hsame].
    unfold resolve. cbn [search_value chosen shown resolved].
    split; [exact Hshown|]. split; [exact Hchosen|].
    intros t [= <-]. by apply Hchosen.
  - unfold resolve. cbn [search_value chosen shown resolved].
    split; [exact Hshown|]. split; [exact Hchosen|discriminate].
  - destruct (chosen m) as [c|] eqn:Hc in |- *; [|exact Hsame].
    destruct (nonempty c); [|exact Hsame].
    unfold resolve. cbn [search_value chosen shown resolved].
    split; [exact Hshown|]. split; [exact Hchosen|].
    intros t [= <-]. by apply Hchosen.
Qed.

Lemma modal_resolved_stays (types : list string) (events : list ModalEvent) (m : Modal) :
  is_Some (resolved m) -> fold_left (modal_step types) events m = m.
Proof.
  intros [r Hr]. induction events as [|e rest IH]; [reflexivity|].
  simpl. unfold modal_step at 2. by rewrite Hr.
Qed.

Lemma run_modal_keeps (types : list string) (initialQuery : string)
  (events : list ModalEvent) :
  let m := run_modal types initialQuery events in
  shown m = render types (search_value m)
  /\ (forall c, chosen m = Some c ->
        c ∈ types
        /\ (nonempty c = true -> nonempty (filter_text (search_value m)) = true ->
            includes (toLowerCase c) (filter_text (search_value m)) = true))
  /\ (forall t, resolved m = Some (Some t) -> t ∈ types).
Proof.
  unfold run_modal.
  assert (shown (open_modal types initialQuery)
          = render types (search_value (open_modal types initialQuery))
          /\ (forall c, chosen (open_modal types initialQuery) = Some c ->
                c ∈ types
                /\ (nonempty c = true ->
                    nonempty (filter_text (search_value (open_modal types initialQuery))) = true ->
                    includes (toLowerCase c)
                      (filter_text (search_value (open_modal types initialQuery))) = true))
          /\ (forall t, resolved (open_modal types initialQuery) = Some (Some t) ->
                t ∈ types)) as H0.
  { split; [reflexivity|]. split; discriminate. }
  revert H0. generalize (open_modal types initialQuery).
  induction events as [|e rest IH]; intros m0 H0; [exact H0|].
  simpl. apply IH. by apply modal_step_keeps.
Qed.

Lemma searchNodesModal_offered (types : list string) (initialQuery : string)
  (events : list ModalEvent) (t : string) :
  searchNodesModal types initialQuery events = Some (Some t) -> t ∈ types.
Proof. apply (run_modal_keeps types initialQuery events). Qed.

(** X5.  Whatever the user does in the modal: the drawn list is always the
    rendering of the current search text; a chosen type is one of the
    offered types and, unless it is the empty string, matches the current
    filter; the promise resolves, if at all, to null or to one of the
    offered types; and once it is resolved, further events change
    nothing. *)
Theorem searchNodesModal_resolves_to_offered (types : list string)
  (initialQuery : string) (events : list ModalEvent) :
  let m := run_modal types initialQuery events in
  shown m = render types (search_value m)
  /\ (forall c, chosen m = Some c ->
        c ∈ types
        /\ (nonempty c = true -> nonempty (filter_text (search_value m)) = true ->
            includes (toLowerCase c) (filter_text (search_value m)) = true))
  /\ (forall t, searchNodesModal types initialQuery events = Some (Some t) -> t ∈ types)
  /\ (forall later, is_Some (searchNodesModal types initialQuery events) ->
        run_modal types initialQuery (events ++ later) = m).
Proof.
  cbv zeta.
  destruct (run_modal_keeps types initialQuery events) as (H1 & H2 & H3).
  split; [exact H1|]. split; [exact H2|]. split; [exact H3|].
  intros later Hres. unfold run_modal. rewrite fold_left_app.
  by apply modal_resolved_stays.
Qed.

End ModalFacts.

Section ModalExamples.
#[local] Existing Instance ascii_engine.

Example modal_session :
  searchNodesModal ["KSampler"; "Load Image"; "Save Image"] ""
    [Input "image"; Click 1%nat; Input " SAVE "; KeyDown "Enter"; ClickCancel]
  = Some (Some "Save Image")
  /\ chosen (run_modal ["KSampler"; "Load Image"; "Save Image"] ""
               [Input "image"; Click 0%nat; Input "save"]) = None.
Proof. split; reflexivity. Qed.
End ModalExamples.

(** ** The replace flow *)

Lemma ensureIOCacheBuilt_isOpen (LiteGraph : option LiteGraphGlobal) (st : TKP_STATE) :
  isOpen (ensureIOCacheBuilt LiteGraph st) = isOpen st.
Proof.
  unfold ensureIOCacheBuilt.
  destruct (ioCacheBuilt st && bool_decide (is_Some (ioCache st)))%bool; [reflexivity|].
  by destruct (LiteGraph ≫= registered_node_types).
Qed.

Section FlowFacts.
Context {engine : Engine} {Host : Type} `{!HostAPI Host}.
Variable localeCompare : string -> string -> Z.
Variable StringToNumber : string -> number.
Variable ToString : value -> string.
Variable LiteGraph : option LiteGraphGlobal.
Variable redraw : World Host -> World Host.
Variable meanwhile : Run Host -> Run Host.

(** X6.  [runReplaceNodeFlow] is guarded by [isOpen]: entered while a modal
    is open it does nothing at all; otherwise it leaves [isOpen] false
    whenever it finishes, and holds it true, with the graph untouched,
    while it waits for the modal.  The only change it ever makes to the
    graph itself is one [replaceNode] of the node it was given (or of the
    single selected node) by a non-empty type that is among the
    replacements computed for that node and differs from the node's
    type. *)
Theorem runReplaceNodeFlow_guarded (app : AppView) (events : list ModalEvent)
  (st : TKP_STATE) (graph : Run Host) (node : option ref) :
  (isOpen st = true ->
   runReplaceNodeFlow localeCompare StringToNumber ToString LiteGraph redraw meanwhile
     app events st graph node = Finished st graph)
  /\ (isOpen st = false ->
      match runReplaceNodeFlow localeCompare StringToNumber ToString LiteGraph redraw
              meanwhile app events st graph node with
      | Waiting st' graph' => isOpen st' = true /\ graph' = graph
      | Finished st' graph' =>
          isOpen st' = false
          /\ (graph' = graph
              \/ graph' = meanwhile graph
              \/ exists n t,
                   (node = Some n \/ node = None /\ getSingleSelectedNode app = Some n)
                   /\ has_graph app = true
                   /\ t ∈ getValidReplacementsFromConnections localeCompare
                            (ensureIOCacheBuilt LiteGraph (set_open true st))
                            (world graph) (heap (world graph) !!! n)
                   /\ nonempty t = true
                   /\ t <> type (heap (world (meanwhile graph)) !!! n)
                   /\ graph' = redrawn redraw
                                 (replaceNode StringToNumber ToString LiteGraph
                                    (meanwhile graph) n t))
      end).
Proof.
  unfold runReplaceNodeFlow. split; intros Hopen; rewrite Hopen; [reflexivity|].
  cbv zeta.
  set (chosen_node := match node with Some n => Some n | None => getSingleSelectedNode app end).
  assert (forall n, chosen_node = Some n ->
            node = Some n \/ node = None /\ getSingleSelectedNode app = Some n) as Hnode.
  { intros n. unfold chosen_node. destruct node; [intros [= ->]; by left|by right]. }
  destruct chosen_node as [n|]; [|split; [reflexivity|by left]].
  destruct (has_graph app) eqn:Hgraph; cbn [negb]; [|split; [reflexivity|by left]].
  set (stc := ensureIOCacheBuilt LiteGraph (set_open true st)).
  assert (isOpen stc = true) as Hstc.
  { unfold stc. by rewrite ensureIOCacheBuilt_isOpen. }
  destruct (getValidReplacementsFromConnections localeCompare stc (world graph)
              (heap (world graph) !!! n)) as [|c0 cs] eqn:Hcands;
    [split; [reflexivity|by left]|].
  destruct (searchNodesModal (c0 :: cs) "" events) as [[t|]|] eqn:Hmodal;
    [| split; [reflexivity|right; by left] | by split ].
  destruct (nonempty t) eqn:Ht; cbn [negb orb]; [|split; [reflexivity|right; by left]].
  destruct (String.eqb t (type (heap (world (meanwhile graph)) !!! n))) eqn:Hsame;
    [split; [reflexivity|right; by left]|].
  split; [reflexivity|]. right; right. exists n, t.
  split; [by apply Hnode|]. split; [reflexivity|].
  split; [rewrite Hcands; by apply (searchNodesModal_offered _ "" events)|].
  split; [exact Ht|]. split; [|reflexivity].
  by apply String.eqb_neq.
Qed.

End FlowFacts.

Section FlowExamples.
#[local] Existing Instance ascii_engine.

Example flow_on_the_chain :
  let app := {| selected_nodes := Some [None; Some 2%nat]; current_node := None;
                graph_nodes := None; has_graph := true |} in
  let flow events :=
    runReplaceNodeFlow Example.ordinal_compare Example.no_StringToNumber
      Example.no_ToString Example.example_LiteGraph id id app events TKP_INITIAL
      Example.chain_run None in
  flow [Input "fil"]
  = Waiting (set_open true (ensureIOCacheBuilt Example.example_LiteGraph TKP_INITIAL))
      Example.chain_run
  /\ flow [Input "fil"; KeyDown "Escape"]
     = Finished (ensureIOCacheBuilt Example.example_LiteGraph TKP_INITIAL) Example.chain_run
  /\ flow [Input "fil"; DblClick 0%nat]
     = Finished (ensureIOCacheBuilt Example.example_LiteGraph TKP_INITIAL)
         (redrawn id (replaceNode Example.no_StringToNumber Example.no_ToString
                        Example.example_LiteGraph Example.chain_run 2%nat "Filter")).
Proof. cbv zeta. split; [|split]; vm_compute; reflexivity. Qed.

End FlowExamples.

(** ** The node context menu entry *)

Lemma findIndex_spec {A : Type} (p : A -> bool) (arr : list A) :
  match findIndex p arr with
  | Some i =>
      exists x, arr !! i = Some x /\ p x = true
                /\ Forall (fun y => p y = false) (take i arr)
  | None => Forall (fun y => p y = false) arr
  end.
Proof.
  induction arr as [|a rest IH]; simpl; [constructor|].
  destruct (p a) eqn:Hpa.
  - exists a. split; [reflexivity|]. split; [exact Hpa|constructor].
  - destruct (findIndex p rest) as [i|]; simpl.
    + destruct IH as (x & Hx & Hpx & Hbefore). exists x.
      split; [exact Hx|]. split; [exact Hpx|]. by constructor.
    + by constructor.
Qed.

Lemma mentions_replace_own (node : ref) : mentions_replace (replaceOption node) = true.
Proof. vm_compute. reflexivity. Qed.

(** X7.  The patched [getNodeMenuOptions] throws only when the function it
    wraps returned [null] or [undefined].  Otherwise it returns the
    original options (none, when there was no original function or that
    one threw) with a replace entry among them: untouched when one of them
    already mentions "replace node" in any letter case; else with the new
    entry and a separator put just before the first option object, or the
    new entry alone at the end when there is no option object.  The
    original entries keep their order, and a menu that went through the
    patch once goes through it again unchanged. *)
Theorem getNodeMenuOptions_adds_once
  (orig : option (ref -> outcome (option (list MenuEntry)))) (node : ref) :
  match getNodeMenuOptions orig node with
  | Threw => exists f, orig = Some f /\ f node = Returned None
  | Returned menu =>
      let options :=
        match orig with
        | Some f => match f node with Returned (Some o) => o | _ => [] end
        | None => []
        end in
      existsb mentions_replace menu = true
      /\ sublist options menu
      /\ (existsb mentions_replace options = true -> menu = options)
      /\ (existsb mentions_replace options = false ->
          exists before after,
            options = before ++ after
            /\ Forall (fun x => is_object x = false) before
            /\ match after with
               | [] => menu = before ++ [replaceOption node]
               | x :: _ =>
                   is_object x = true
                   /\ menu = before ++ replaceOption node :: Null :: after
               end)
      /\ (forall again, getNodeMenuOptions (Some (fun _ => Returned (Some menu))) again
                        = Returned menu)
  end.
Proof.
  assert (forall options,
            match getNodeMenuOptions (Some (fun _ => Returned (Some options))) node with
            | Threw => False
            | Returned menu =>
                existsb mentions_replace menu = true
                /\ sublist options menu
                /\ (existsb mentions_replace options = true -> menu = options)
                /\ (existsb mentions_replace options = false ->
                    exists before after,
                      options = before ++ after
                      /\ Forall (fun x => is_object x = false) before
                      /\ match after with
                         | [] => menu = before ++ [replaceOption node]
                         | x :: _ =>
                             is_object x = true
                             /\ menu = before ++ replaceOption node :: Null :: after
                         end)
                /\ (forall again,
                      getNodeMenuOptions (Some (fun _ => Returned (Some menu))) again
                      = Returned menu)
            end) as Harray.
  { intros options. unfold getNodeMenuOptions. cbv zeta.
    destruct (existsb mentions_replace options) eqn:Hhas.
    - split; [exact Hhas|]. split; [reflexivity|]. split; [reflexivity|].
      split; [discriminate|]. intros again. by rewrite Hhas.
    - pose proof (findIndex_spec is_object options) as Hfind.
      destruct (findIndex is_object options) as [i|].
      + destruct Hfind as (x & Hx & Hreal & Hbefore). unfold splice_in.
        assert (existsb mentions_replace
                  (take i options ++ [replaceOption node; Null] ++ drop i options)
                = true) as Hnow.
        { rewrite existsb_app. cbn [existsb app]. rewrite mentions_replace_own.
          by rewrite orb_true_r. }
        split; [exact Hnow|]. split.
        { rewrite <- (take_drop i options) at 1.
          apply sublist_app; [reflexivity|]. by do 2 apply sublist_cons. }
        split; [discriminate|]. split; [|intros again; by rewrite Hnow].
        intros _. exists (take i options), (drop i options).
        split; [by rewrite take_drop|]. split; [exact Hbefore|].
        rewrite (drop_S _ _ _ Hx). by split.
      + assert (existsb mentions_replace (options ++ [replaceOption node]) = true)
          as Hnow.
        { rewrite existsb_app. cbn [existsb app]. rewrite mentions_replace_own.
          by rewrite orb_true_r. }
        split; [exact Hnow|]. split; [by apply sublist_inserts_r|].
        split; [discriminate|]. split; [|intros again; by rewrite Hnow].
        intros _. exists options, []. split; [by rewrite app_nil_r|].
        by split. }
  destruct orig as [f|].
  - destruct (f node) as [[options|]|] eqn:Hf.
    + specialize (Harray options). unfold getNodeMenuOptions at 1.
      unfold getNodeMenuOptions at 1 in Harray. rewrite Hf. cbv zeta in *.
      revert Harray.
      match goal with |- match ?t with _ => _ end -> _ => destruct t end;
        [intros H; exact H|intros []].
    + unfold getNodeMenuOptions. rewrite Hf. by exists f.
    + specialize (Harray []). unfold getNodeMenuOptions at 1.
      unfold getNodeMenuOptions at 1 in Harray. rewrite Hf. cbv zeta in *.
      revert Harray.
      match goal with |- match ?t with _ => _ end -> _ => destruct t end;
        [intros H; exact H|intros []].
  - specialize (Harray []). unfold getNodeMenuOptions at 1.
    unfold getNodeMenuOptions at 1 in Harray. cbv zeta in *.
    revert Harray.
    match goal with |- match ?t with _ => _ end -> _ => destruct t end;
      [intros H; exact H|intros []].
Qed.

Example menu_of_a_node :
  getNodeMenuOptions
    (Some (fun _ => Returned (Some [Null; MenuOption (Some "Properties") (HostAction 0);
                                    MenuOption None (HostAction 1)]))) 7%nat
  = Returned [Null; replaceOption 7%nat; Null;
              MenuOption (Some "Properties") (HostAction 0);
              MenuOption None (HostAction 1)]
  /\ getNodeMenuOptions
       (Some (fun _ => Returned (Some [MenuOption (Some "REPLACE NODES") (HostAction 0)])))
       7%nat
     = Returned [MenuOption (Some "REPLACE NODES") (HostAction 0)]
  /\ getNodeMenuOptions (Some (fun _ => Threw)) 7%nat = Returned [replaceOption 7%nat]
  /\ getNodeMenuOptions (Some (fun _ => Returned None)) 7%nat = Threw.
Proof. repeat split; vm_compute; reflexivity. Qed.

(** ** The CivitAI filter lists *)

Lemma map_outcome_Returned {A B : Type} (f : A -> outcome B) (arr : list A)
  (out : list B) :
  map_outcome f arr = Returned out -> Forall2 (fun x y => f x = Returned y) arr out.
Proof.
  revert out. induction arr as [|x rest IH]; intros out; simpl.
  - intros [= <-]. constructor.
  - destruct (f x) as [y|] eqn:Hx; [|discriminate].
    destruct (map_outcome f rest) as [ys|]; [|discriminate].
    intros [= <-]. constructor; [exact Hx|by apply IH].
Qed.

Lemma map_outcome_Threw {A B : Type} (f : A -> outcome B) (arr : list A) :
  map_outcome f arr = Threw <-> exists x, x ∈ arr /\ f x = Threw.
Proof.
  induction arr as [|x rest IH]; simpl.
  - split; [discriminate|]. intros (x & Hx & _). by apply elem_of_nil in Hx.
  - destruct (f x) as [y|] eqn:Hx.
    + destruct (map_outcome f rest) as [ys|].
      * split; [discriminate|]. intros (x' & Hin & Hthrew).
        apply elem_of_cons in Hin as [->|Hin]; [congruence|].
        destruct IH as [_ IH]. discriminate IH. eauto.
      * split; [|reflexivity]. intros _. destruct IH as [IH _].
        destruct (IH eq_refl) as (x' & Hin & Hthrew). exists x'.
        split; [by right|exact Hthrew].
    + split; [|reflexivity]. intros _. exists x. split; [by left|exact Hx].
Qed.

Lemma map_outcome_strings {engine : Engine} (strs : list string) :
  map_outcome trimmed_text (VString <$> strs) = Returned (trim <$> strs).
Proof.
  induction strs as [|s rest IH]; [reflexivity|].
  cbn [fmap list_fmap map_outcome]. fold (fmap (M:=list) VString rest). rewrite IH.
  unfold trimmed_text. cbn [truthy]. by destruct s.
Qed.

Lemma trimmed_text_Threw {engine : Engine} (v : value) :
  trimmed_text v = Threw <-> truthy v = true /\ forall s, v <> VString s.
Proof.
  unfold trimmed_text. destruct (truthy v) eqn:Ht.
  - destruct v; split; try discriminate; try (intros _; split; [reflexivity|discriminate]);
      try reflexivity.
    intros [_ H]. by destruct (H s).
  - split; [discriminate|]. by intros [? _].
Qed.

Section FilterFacts.
Context {engine : Engine}.
Variable ToString : value -> string.
Variable lowerCase : string -> string.

Lemma item_text_of_string (s : string) : item_text ToString (VString s) = VString s.
Proof. reflexivity. Qed.

Lemma item_text_Threw (x : value) :
  trimmed_text (item_text ToString x) = Threw
  <-> (forall s, x <> VString s)
      /\ truthy (optional_get x "name") = true
      /\ forall s, optional_get x "name" <> VString s.
Proof.
  rewrite trimmed_text_Threw.
  destruct (match x with VString _ => true | _ => false end) eqn:Hstr.
  - destruct x as [| | | |s| |]; try discriminate. cbn [item_text].
    split; [intros [_ H]; by destruct (H s)|intros [H _]; by destruct (H s)].
  - assert (forall s, x <> VString s) as Hx by (intros s ->; discriminate).
    assert (item_text ToString x
            = if truthy (optional_get x "name") then optional_get x "name"
              else VString (if truthy x then ToString x else "")) as ->
      by (destruct x; try reflexivity; discriminate).
    destruct (truthy (optional_get x "name")) eqn:Hname.
    + split; [intros [_ H]; by repeat split|intros (_ & _ & H); by split].
    + split; [intros [_ H]; by destruct (H (if truthy x then ToString x else ""))
             |intros (_ & [=] & _)].
Qed.

Lemma asStringList_trimmed (arr : value) (out : list string) :
  _asStringList ToString arr = Returned out -> Forall trimmed out.
Proof.
  unfold _asStringList. destruct arr; try (intros [= <-]; constructor).
  destruct (map_outcome trimmed_text (item_text ToString <$> elems)) as [strings|] eqn:Hmap;
    [|discriminate].
  intros [= <-]. apply map_outcome_Returned in Hmap.
  apply Forall_forall. intros s Hs. apply List_filter_elem in Hs as [Hs Hne].
  split; [by apply nonempty_true|].
  apply list_elem_of_lookup in Hs as [i Hi].
  destruct (Forall2_lookup_r _ _ _ i s Hmap Hi) as (v & _ & Hv).
  unfold trimmed_text in Hv.
  destruct (if truthy v then v else VString "") as [| | | |text| |]; try discriminate.
  injection Hv as <-. apply trim_trim.
Qed.

(** X8.  [_asStringList] returns the empty list for anything that is not an
    array.  On an array it throws exactly when some element that is not a
    string has a truthy [name] that is not a string; otherwise it returns
    non-empty strings free of surrounding white space, and on an array of
    strings these are the trimmed elements, the blank ones left out, in the
    order of the array. *)
Theorem asStringList_cases (arr : value) :
  ((forall elems, arr <> VArray elems) -> _asStringList ToString arr = Returned [])
  /\ (forall elems, arr = VArray elems ->
        (_asStringList ToString arr = Threw
         <-> exists x, x ∈ elems
                       /\ (forall s, x <> VString s)
                       /\ truthy (optional_get x "name") = true
                       /\ forall s, optional_get x "name" <> VString s))
  /\ (forall out, _asStringList ToString arr = Returned out -> Forall trimmed out)
  /\ (forall strs, arr = VArray (VString <$> strs) ->
        _asStringList ToString arr = Returned (List.filter nonempty (trim <$> strs))).
Proof.
  split; [|split; [|split]].
  - intros Hnot. destruct arr; try reflexivity. by destruct (Hnot elems).
  - intros elems ->. unfold _asStringList.
    destruct (map_outcome trimmed_text (item_text ToString <$> elems)) as [strings|] eqn:Hmap.
    + split; [discriminate|]. intros (x & Hin & Hbad).
      assert (map_outcome trimmed_text (item_text ToString <$> elems) = Threw) as H.
      { apply map_outcome_Threw. exists (item_text ToString x).
        split; [by apply list_elem_of_fmap_2|by apply item_text_Threw]. }
      congruence.
    + split; [|reflexivity]. intros _.
      apply map_outcome_Threw in Hmap as (y & Hy & Hthrew).
      apply list_elem_of_fmap in Hy as (x & -> & Hx). exists x.
      split; [exact Hx|by apply item_text_Threw].
  - intros out. apply asStringList_trimmed.
  - intros strs ->. unfold _asStringList.
    assert (item_text ToString <$> (VString <$> strs) = VString <$> strs) as ->.
    { rewrite <- list_fmap_compose. by apply list_fmap_ext. }
    by rewrite map_outcome_strings.
Qed.

End FilterFacts.

Section TopFacts.
Context {engine : Engine}.
Variable ToString : value -> string.
Variable lowerCase : string -> string.

Lemma dedup_fold (out dedup : list string) (seen : gset string) :
  (forall k, k ∈ seen <-> k ∈ lowerCase <$> dedup) ->
  NoDup (lowerCase <$> dedup) ->
  let r := fold_left (dedup_step lowerCase) out (dedup, seen) in
  NoDup (lowerCase <$> r.1)
  /\ (exists more, r.1 = dedup ++ more /\ sublist more out)
  /\ (forall v, v ∈ dedup ++ out -> lowerCase v ∈ lowerCase <$> r.1).
Proof.
  revert dedup seen. induction out as [|v rest IH]; intros dedup seen Hseen Hnd; cbn [fold_left].
  - cbn. split; [exact Hnd|]. split.
    + exists []. by rewrite app_nil_r.
    + intros v. rewrite app_nil_r. apply list_elem_of_fmap_2.
  - change (dedup_step lowerCase (dedup, seen) v)
      with (if bool_decide (lowerCase v ∈ seen) then (dedup, seen)
            else (dedup ++ [v], {[ lowerCase v ]} ∪ seen)).
    case_bool_decide as Hkey.
    + destruct (IH dedup seen Hseen Hnd) as (H1 & (more & H2 & H3) & H4).
      split; [exact H1|]. split.
      * exists more. split; [exact H2|by apply sublist_cons].
      * intros v' Hin. apply elem_of_app in Hin as [Hin|Hin].
        { apply H4, elem_of_app. by left. }
        apply elem_of_cons in Hin as [->|Hin].
        { apply Hseen in Hkey. rewrite H2, fmap_app. apply elem_of_app. by left. }
        apply H4, elem_of_app. by right.
    + destruct (IH (dedup ++ [v]) ({[ lowerCase v ]} ∪ seen)) as (H1 & (more & H2 & H3) & H4).
      * intros k. rewrite elem_of_union, elem_of_singleton, fmap_app, elem_of_app, Hseen.
        cbn. rewrite list_elem_of_singleton. tauto.
      * rewrite fmap_app. apply NoDup_app. split; [exact Hnd|].
        split; [|apply NoDup_singleton].
        intros k Hk Hk'. cbn in Hk'. apply list_elem_of_singleton in Hk' as ->.
        by apply Hkey, Hseen.
      * split; [exact H1|]. split.
        { exists (v :: more). split; [by rewrite H2, <- app_assoc|by apply sublist_skip]. }
        intros v' Hin. apply H4. rewrite <- app_assoc. exact Hin.
Qed.

Lemma withAnyTop_parts (items : value) (out : list string) :
  _withAnyTop ToString lowerCase items = Returned out ->
  exists rest strs,
    out = "Any" :: rest
    /\ _asStringList ToString items = Returned strs
    /\ sublist rest strs
    /\ Forall trimmed rest
    /\ NoDup (lowerCase <$> rest)
    /\ Forall (fun x => lowerCase x <> "any") rest
    /\ (forall v, v ∈ strs -> lowerCase v <> "any" ->
          exists r, r ∈ rest /\ lowerCase r = lowerCase v).
Proof.
  unfold _withAnyTop.
  destruct (_asStringList ToString items) as [strs|] eqn:Hstrs; [|discriminate].
  cbv zeta. intros [= <-].
  destruct (dedup_fold strs [] ∅) as (Hnd & (more & Hmore & Hsub) & Hkeys).
  { intros k. cbn. rewrite elem_of_empty. split; [tauto|apply elem_of_nil]. }
  { constructor. }
  cbv zeta in *. cbn [app] in Hmore, Hkeys.
  set (dedup := (fold_left (dedup_step lowerCase) strs ([], ∅)).1) in *.
  set (keep := fun x => negb (String.eqb (lowerCase x) "any")).
  assert (sublist (List.filter keep dedup) strs) as Hrest.
  { etransitivity; [apply List_filter_sublist|]. by rewrite Hmore. }
  eexists _, strs. split; [reflexivity|]. split; [reflexivity|].
  split; [exact Hrest|]. split.
  { apply Forall_forall. intros s Hs. apply (sublist_subseteq _ _ Hrest) in Hs.
    revert s Hs. apply Forall_forall. by apply (asStringList_trimmed ToString items). }
  split.
  { apply (sublist_NoDup _ (lowerCase <$> dedup)); [exact Hnd|].
    apply (fmap_sublist lowerCase), List_filter_sublist. }
  split.
  { apply Forall_forall. intros s Hs. apply List_filter_elem in Hs as [_ Hs].
    unfold keep in Hs. apply negb_true_iff in Hs. by apply String.eqb_neq. }
  intros v Hv Hnot. apply Hkeys, list_elem_of_fmap in Hv as (r & Hr & Hin).
  exists r. split; [|by symmetry].
  apply List_filter_elem. split; [exact Hin|].
  unfold keep. apply negb_true_iff, String.eqb_neq. by rewrite <- Hr.
Qed.

(** X9.  What [_withAnyTop] returns: ["Any"] first, then entries of the
    string list in their order, each non-empty and free of surrounding
    white space, none of them "any" in any letter case, no two of them
    equal up to letter case; and every entry of the string list other
    than "any" is there up to letter case. *)
Theorem withAnyTop_shape (items : value) (out : list string) :
  _withAnyTop ToString lowerCase items = Returned out ->
  exists rest strs,
    out = "Any" :: rest
    /\ _asStringList ToString items = Returned strs
    /\ sublist rest strs
    /\ Forall trimmed rest
    /\ NoDup (lowerCase <$> rest)
    /\ Forall (fun x => lowerCase x <> "any") rest
    /\ (forall v, v ∈ strs -> lowerCase v <> "any" ->
          exists r, r ∈ rest /\ lowerCase r = lowerCase v).
Proof. apply withAnyTop_parts. Qed.

Lemma normalize_any_first (rest : list string) :
  NoDup ("Any" :: rest) -> Forall trimmed rest ->
  normalizeListWithAny ToString (VArray (VString <$> "Any" :: rest))
  = Returned ("Any" :: rest).
Proof.
  intros Hnd Hall. unfold normalizeListWithAny.
  change (VString <$> "Any" :: rest) with (VString "Any" :: (VString <$> rest)).
  cbn [fold_left].
  rewrite normalize_step_Any.
  destruct (normalize_strings ToString rest ["Any"] {[ "Any" ]}) as [seen2 ->];
    [| | |reflexivity].
  - intros s. by rewrite elem_of_singleton, list_elem_of_singleton.
  - exact Hnd.
  - exact Hall.
Qed.

(** X10.  The list [_withAnyTop] returns goes through [normalizeListWithAny]
    unchanged, so a dropdown filled from it by [fillSelect], as
    [loadFilters] does, offers exactly that list; its value is the one it
    had if that is asked for and still offered, and "Any" otherwise. *)
Theorem fillSelect_of_withAnyTop (items : value) (out : list string)
  (selectEl : Select) (keepValue : bool) :
  lowerCase "Any" = "any" ->
  _withAnyTop ToString lowerCase items = Returned out ->
  normalizeListWithAny ToString (VArray (VString <$> out)) = Returned out
  /\ fillSelect ToString selectEl (VArray (VString <$> out)) keepValue
     = Returned {| option_values := out;
                   selected :=
                     if (keepValue && bool_decide (selected selectEl ∈ out))%bool
                     then selected selectEl else "Any" |}.
Proof.
  intros Hany Hout.
  apply withAnyTop_parts in Hout as (rest & strs & -> & _ & _ & Hall & Hnd & Hnot & _).
  assert (normalizeListWithAny ToString (VArray (VString <$> "Any" :: rest))
          = Returned ("Any" :: rest)) as Hnorm.
  { apply normalize_any_first; [|exact Hall]. constructor.
    - intros Hin. rewrite Forall_forall in Hnot. by apply (Hnot "Any").
    - by apply (NoDup_fmap_1 lowerCase). }
  split; [exact Hnorm|]. unfold fillSelect. rewrite Hnorm.
  by destruct keepValue.
Qed.

(** X11.  After [fillSelect] has returned, the dropdown's value is one of
    its options, which start with "Any" and hold no duplicate; the value is
    the previous one when that was to be kept and is still an option, and
    "Any" in every other case; filling the dropdown again with the same
    values changes nothing. *)
Theorem fillSelect_value_offered (selectEl filled : Select) (values : value)
  (keepValue : bool) :
  fillSelect ToString selectEl values keepValue = Returned filled ->
  selected filled ∈ option_values filled
  /\ (exists rest, option_values filled = "Any" :: rest)
  /\ NoDup (option_values filled)
  /\ selected filled
     = (if (keepValue && bool_decide (selected selectEl ∈ option_values filled))%bool
        then selected selectEl else "Any")
  /\ fillSelect ToString filled values true = Returned filled.
Proof.
  unfold fillSelect.
  destruct (normalizeListWithAny ToString values) as [normalized|] eqn:Hnorm;
    [|discriminate].
  intros [= <-]. cbn [option_values selected].
  destruct (normalizeListWithAny_returned ToString values normalized Hnorm)
    as ([rest ->] & _ & Hnd & _).
  assert ((if (keepValue && bool_decide (selected selectEl ∈ "Any" :: rest))%bool
           then selected selectEl else "Any") ∈ "Any" :: rest) as Hin.
  { destruct keepValue; cbn [andb]; [|by left].
    case_bool_decide; [assumption|by left]. }
  split; [|split; [by exists rest|split; [exact Hnd|split; [by destruct keepValue|]]]].
  - destruct keepValue; exact Hin.
  - destruct keepValue; cbn [andb] in *; by rewrite (bool_decide_eq_true_2 _ Hin).
Qed.

End TopFacts.

Section FilterWitnesses.
#[local] Existing Instance ascii_engine.

Lemma withAnyTop_shape_witness :
  _withAnyTop Example.no_ToString toLowerCase
    (VArray [VString " LoRA "; VString "lora"; VString "ANY"; VNull;
             VObject [("name", VString "Checkpoint")]])
  = Returned ["Any"; "LoRA"; "Checkpoint"]
  /\ exists rest strs,
       ["Any"; "LoRA"; "Checkpoint"] = "Any" :: rest
       /\ _asStringList Example.no_ToString
            (VArray [VString " LoRA "; VString "lora"; VString "ANY"; VNull;
                     VObject [("name", VString "Checkpoint")]])
          = Returned strs
       /\ sublist rest strs
       /\ Forall trimmed rest
       /\ NoDup (toLowerCase <$> rest)
       /\ Forall (fun x => toLowerCase x <> "any") rest
       /\ (forall v, v ∈ strs -> toLowerCase v <> "any" ->
             exists r, r ∈ rest /\ toLowerCase r = toLowerCase v).
Proof.
  assert (_withAnyTop Example.no_ToString toLowerCase
            (VArray [VString " LoRA "; VString "lora"; VString "ANY"; VNull;
                     VObject [("name", VString "Checkpoint")]])
          = Returned ["Any"; "LoRA"; "Checkpoint"]) as Hrun.
  { vm_compute. reflexivity. }
  split; [exact Hrun|].
  exact (withAnyTop_shape Example.no_ToString toLowerCase _ _ Hrun).
Defined.

Lemma fillSelect_of_withAnyTop_witness :
  toLowerCase "Any" = "any"
  /\ _withAnyTop Example.no_ToString toLowerCase
       (VArray [VString " LoRA "; VString "lora"; VString "ANY"; VNull;
                VObject [("name", VString "Checkpoint")]])
     = Returned ["Any"; "LoRA"; "Checkpoint"]
  /\ fillSelect Example.no_ToString
       {| option_values := ["Any"; "Checkpoint"]; selected := "Checkpoint" |}
       (VArray (VString <$> ["Any"; "LoRA"; "Checkpoint"])) true
     = Returned {| option_values := ["Any"; "LoRA"; "Checkpoint"];
                   selected := "Checkpoint" |}.
Proof.
  assert (_withAnyTop Example.no_ToString toLowerCase
            (VArray [VString " LoRA "; VString "lora"; VString "ANY"; VNull;
                     VObject [("name", VString "Checkpoint")]])
          = Returned ["Any"; "LoRA"; "Checkpoint"]) as Hrun.
  { vm_compute. reflexivity. }
  split; [reflexivity|]. split; [exact Hrun|].
  etransitivity;
    [exact (proj2 (fillSelect_of_withAnyTop Example.no_ToString toLowerCase _ _
                     {| option_values := ["Any"; "Checkpoint"]; selected := "Checkpoint" |}
                     true eq_refl Hrun))|].
  vm_compute. reflexivity.
Defined.

Lemma fillSelect_value_offered_witness :
  fillSelect Example.no_ToString
    {| option_values := ["Any"; "SDXL"]; selected := "SDXL" |}
    (VArray [VString "Pony"; VString "Any"; VString " Pony"]) true
  = Returned {| option_values := ["Any"; "Pony"]; selected := "Any" |}
  /\ fillSelect Example.no_ToString
       {| option_values := ["Any"; "Pony"]; selected := "Any" |}
       (VArray [VString "Pony"; VString "Any"; VString " Pony"]) true
     = Returned {| option_values := ["Any"; "Pony"]; selected := "Any" |}.
Proof.
  assert (fillSelect Example.no_ToString
            {| option_values := ["Any"; "SDXL"]; selected := "SDXL" |}
            (VArray [VString "Pony"; VString "Any"; VString " Pony"]) true
          = Returned {| option_values := ["Any"; "Pony"]; selected := "Any" |}) as Hrun.
  { vm_compute. reflexivity. }
  split; [exact Hrun|].
  exact (proj2 (proj2 (proj2 (proj2
           (fillSelect_value_offered Example.no_ToString _ _ _ _ Hrun))))).
Defined.

End FilterWitnesses.

(** ** normalizeListWithAny on arrays of strings *)

Section NormalizeStrings.
Context {engine : Engine}.
Variable ToString : value -> string.

Lemma normalize_step_string (out : list string) (seen : gset string) (x : string) :
  normalize_step ToString (Returned (out, seen)) (VString x)
  = if negb (nonempty (trim x)) then Returned (out, seen)
    else if bool_decide (trim x ∈ seen) then Returned (out, seen)
         else Returned (out ++ [trim x], {[ trim x ]} ∪ seen).
Proof. by destruct x. Qed.

Lemma normalize_strings_fold (strs out : list string) (seen : gset string) :
  (forall s, s ∈ seen <-> s ∈ out) ->
  exists out' seen',
    fold_left (normalize_step ToString) (VString <$> strs) (Returned (out, seen))
    = Returned (out', seen')
    /\ (forall s, s ∈ out' <-> s ∈ out \/ (s <> "" /\ exists x, x ∈ strs /\ trim x = s)).
Proof.
  revert out seen. induction strs as [|x rest IH]; intros out seen Hseen.
  - exists out, seen. split; [reflexivity|]. intros s. split; [by left|].
    intros [H|(_ & x & Hx & _)]; [exact H|by apply elem_of_nil in Hx].
  - change (VString <$> x :: rest) with (VString x :: (VString <$> rest)).
    cbn [fold_left]. rewrite normalize_step_string.
    destruct (nonempty (trim x)) eqn:Hne; cbn [negb].
    + case_bool_decide as Hin.
      * destruct (IH out seen Hseen) as (out' & seen' & Hfold & Hmem).
        exists out', seen'. split; [exact Hfold|]. intros s. rewrite Hmem.
        split; intros [H|(Hs & y & Hy & Hty)]; try by left.
        { right. split; [exact Hs|]. exists y. split; [by right|exact Hty]. }
        apply elem_of_cons in Hy as [->|Hy].
        { left. rewrite <- Hty. by apply Hseen. }
        right. split; [exact Hs|]. by exists y.
      * destruct (IH (out ++ [trim x]) ({[ trim x ]} ∪ seen)) as (out' & seen' & Hfold & Hmem).
        { intros s. rewrite elem_of_union, elem_of_singleton, elem_of_app,
            list_elem_of_singleton, Hseen. tauto. }
        exists out', seen'. split; [exact Hfold|]. intros s. rewrite Hmem.
        rewrite elem_of_app, list_elem_of_singleton.
        split.
        { intros [[H| ->]|(Hs & y & Hy & Hty)].
          - by left.
          - right. split; [by apply nonempty_true|]. exists x. split; [by left|reflexivity].
          - right. split; [exact Hs|]. exists y. split; [by right|exact Hty]. }
        intros [H|(Hs & y & Hy & Hty)]; [by left; left|].
        apply elem_of_cons in Hy as [->|Hy]; [by left; right|].
        right. split; [exact Hs|]. by exists y.
    + destruct (IH out seen Hseen) as (out' & seen' & Hfold & Hmem).
      exists out', seen'. split; [exact Hfold|]. intros s. rewrite Hmem.
      split; intros [H|(Hs & y & Hy & Hty)]; try by left.
      { right. split; [exact Hs|]. exists y. split; [by right|exact Hty]. }
      apply elem_of_cons in Hy as [->|Hy].
      { destruct Hs. rewrite <- Hty. destruct (trim x); [reflexivity|discriminate]. }
      right. split; [exact Hs|]. by exists y.
Qed.

(** X12.  On an array of strings [normalizeListWithAny] always returns: a
    list that starts with ["Any"], holds no duplicate, and consists of
    ["Any"] and the non-blank elements of the array with their surrounding
    white space removed; normalizing that list again gives it back. *)
Theorem normalizeListWithAny_of_strings (strs : list string) :
  exists rest,
    normalizeListWithAny ToString (VArray (VString <$> strs)) = Returned ("Any" :: rest)
    /\ NoDup ("Any" :: rest)
    /\ (forall s, s ∈ "Any" :: rest
                  <-> s = "Any" \/ (s <> "" /\ exists x, x ∈ strs /\ trim x = s))
    /\ normalizeListWithAny ToString (VArray (VString <$> "Any" :: rest))
       = Returned ("Any" :: rest).
Proof.
  destruct (normalize_strings_fold strs ["Any"] {[ "Any" ]}) as (out & seen & Hfold & Hmem).
  { intros s. by rewrite elem_of_singleton, list_elem_of_singleton. }
  assert (normalizeListWithAny ToString (VArray (VString <$> strs)) = Returned out) as Hrun.
  { unfold normalizeListWithAny. by rewrite Hfold. }
  destruct (normalizeListWithAny_returned ToString _ _ Hrun) as ([rest ->] & _ & Hnd & Hagain).
  exists rest. split; [exact Hrun|]. split; [exact Hnd|]. split; [|exact Hagain].
  intros s. rewrite Hmem, list_elem_of_singleton. reflexivity.
Qed.

End NormalizeStrings.

Section StringsExamples.
#[local] Existing Instance ascii_engine.

Example normalizeListWithAny_strings :
  normalizeListWithAny Example.no_ToString
    (VArray (VString <$> [" SDXL"; "Any"; ""; "Pony "; "SDXL"; "any"]))
  = Returned ["Any"; "SDXL"; "Pony"; "any"].
Proof. vm_compute. reflexivity. Qed.

End StringsExamples.

(** ** The size slider and the stored preview size *)

Lemma number_of_small_integer (z : Z) :
  0 <= z <= 2048 -> number_of_integer z = number_of_Z z.
Proof.
  intros Hz. unfold number_of_integer.
  assert (2048 < 2 ^ 1024 - 2 ^ 970) as Hbig by (vm_compute; reflexivity).
  assert ((Z.abs z <? 2 ^ 1024 - 2 ^ 970) = true) as ->; [|reflexivity].
  apply Z.ltb_lt. eapply Z.le_lt_trans; [|exact Hbig].
  rewrite Z.abs_eq; lia.
Qed.

Section SliderFacts.
Context {engine : Engine}.
Variable ToString : value -> string.

Lemma stored_size_read_back (z : Z) (localStorage : gmap string string) :
  (forall z, 0 <= z <= 2048 -> ToString (VNumber (number_of_Z z)) = decimal z) ->
  128 <= z <= 2048 ->
  getPreviewSize (setPreviewSize ToString (number_of_Z z) localStorage) = number_of_Z z.
Proof.
  intros Hprint Hz. unfold setPreviewSize.
  rewrite (getPreviewSize_of_parse _ (decimal z)).
  - rewrite parseInt10_decimal, number_of_small_integer by lia.
    change (number_of_Z z) with (Finite (inject_Z z)) at 1. cbv iota beta.
    change (Finite (inject_Z z)) with (number_of_Z z).
    rewrite clamp_integer. f_equal. lia.
  - rewrite Hprint by lia. apply lookup_insert_eq.
  - apply decimal_nonempty. lia.
Qed.

(** X13.  Moving the size slider stores a size that [getPreviewSize] reads
    back as it was shown: whatever the slider's text, the size shown is an
    integer from 128 to 2048 and the next [getPreviewSize] returns it; only
    when the text has no leading integer is [NaN] shown and stored, which
    reads back as 256.  No other key of the storage is touched. *)
Theorem sizeSlider_round_trip (target_value : string)
  (localStorage : gmap string string) :
  ToString (VNumber NaN) = "NaN" ->
  (forall z, 0 <= z <= 2048 -> ToString (VNumber (number_of_Z z)) = decimal z) ->
  let shown := (sizeSlider_oninput ToString target_value localStorage).1 in
  let stored := (sizeSlider_oninput ToString target_value localStorage).2 in
  ((shown = NaN
    /\ parseInt10 (if nonempty target_value then target_value else "256") = NaN
    /\ getPreviewSize stored = number_of_Z 256)
   \/ exists z, 128 <= z <= 2048
                /\ shown = number_of_Z z
                /\ getPreviewSize stored = number_of_Z z)
  /\ (forall k, k <> LS_KEY_SIZE -> stored !! k = localStorage !! k).
Proof.
  intros HNaN Hprint. cbv zeta. unfold sizeSlider_oninput. cbn [fst snd].
  split; [|intros k Hk; unfold setPreviewSize; by rewrite lookup_insert_ne].
  set (text := if nonempty target_value then target_value else "256").
  destruct (parseInt10_cases text) as [Hparse|[[negative Hparse]|[z Hparse]]];
    rewrite Hparse.
  - left. split; [reflexivity|]. split; [reflexivity|].
    change (clamp NaN (number_of_Z 128) (number_of_Z 2048)) with NaN.
    unfold setPreviewSize. rewrite HNaN.
    rewrite (getPreviewSize_of_parse _ "NaN");
      [|apply lookup_insert_eq|discriminate].
    rewrite parseInt10_no_integer; [reflexivity|].
    rewrite trimStart_graphic by reflexivity.
    split; [intros c r [= <- _]; right; by apply Nat.ltb_lt|].
    intros c r [= <- _] [H|H]; discriminate H.
  - right. destruct negative.
    + exists 128. split; [lia|].
      change (clamp (Infinity true) (number_of_Z 128) (number_of_Z 2048))
        with (number_of_Z 128).
      split; [reflexivity|]. apply stored_size_read_back; [exact Hprint|lia].
    + exists 2048. split; [lia|].
      change (clamp (Infinity false) (number_of_Z 128) (number_of_Z 2048))
        with (number_of_Z 2048).
      split; [reflexivity|]. apply stored_size_read_back; [exact Hprint|lia].
  - right. rewrite clamp_integer. exists (Z.max 128 (Z.min 2048 z)).
    split; [lia|]. split; [reflexivity|].
    apply stored_size_read_back; [exact Hprint|lia].
Qed.

End SliderFacts.

Section SliderWitness.
#[local] Existing Instance ascii_engine.

Lemma sizeSlider_round_trip_witness :
  PanelExample.integer_ToString (VNumber NaN) = "NaN"
  /\ (forall z, 0 <= z <= 2048 ->
        PanelExample.integer_ToString (VNumber (number_of_Z z)) = decimal z)
  /\ ((sizeSlider_oninput PanelExample.integer_ToString "9000" ∅).1 = number_of_Z 2048
      /\ (sizeSlider_oninput PanelExample.integer_ToString "9000" ∅).2
         = {[ LS_KEY_SIZE := "2048" ]})
  /\ forall k, k <> LS_KEY_SIZE ->
               (sizeSlider_oninput PanelExample.integer_ToString "9000" ∅).2 !! k
               = (∅ : gmap string string) !! k.
Proof.
  split; [reflexivity|]. split; [intros z _; reflexivity|].
  split; [split; vm_compute; reflexivity|].
  exact (proj2 (sizeSlider_round_trip PanelExample.integer_ToString "9000" ∅
                  eq_refl (fun z _ => eq_refl))).
Defined.

End SliderWitness.

(** ** The Prompt Library search filter *)

Lemma prefix_spec (sub s : string) :
  String.prefix sub s = true <-> exists post, s = sub +:+ post.
Proof.
  revert s. induction sub as [|a sub IH]; intros s.
  - split; [intros _; by exists s|intros _; by destruct s].
  - destruct s as [|b s]; simpl; [split; [discriminate|by intros [post [=]]]|].
    destruct (ascii_dec a b) as [->|Hne].
    + rewrite IH. split; intros [post H]; exists post; [by rewrite H|by injection H].
    + split; [discriminate|]. intros [post [= -> _]]. by destruct Hne.
Qed.

Lemma string_app_assoc' (a b c : string) : (a +:+ b) +:+ c = a +:+ (b +:+ c).
Proof.
  induction a as [|x a IH]; [reflexivity|].
  change (String x ((a +:+ b) +:+ c) = String x (a +:+ (b +:+ c))). by f_equal.
Qed.

Lemma includes_spec (s sub : string) :
  includes s sub = true <-> exists pre post, s = pre +:+ sub +:+ post.
Proof.
  induction s as [|c s IH]; cbn [includes].
  - rewrite orb_false_r, prefix_spec. split.
    + intros [post H]. by exists "", post.
    + intros (pre & post & H). destruct pre; [by exists post|discriminate].
  - rewrite orb_true_iff, prefix_spec, IH. split.
    + intros [[post H]|(pre & post & H)].
      * by exists "", post.
      * exists (String c pre), post. by rewrite H.
    + intros (pre & post & H). destruct pre as [|c' pre].
      * left. by exists post.
      * right. injection H as -> H. by exists pre, post.
Qed.

Lemma includes_trans (a b c : string) :
  includes a b = true -> includes b c = true -> includes a c = true.
Proof.
  rewrite !includes_spec. intros (p & q & ->) (p' & q' & ->).
  exists (p +:+ p'), (q' +:+ q). by rewrite !string_app_assoc'.
Qed.

Lemma filter_outcome_Returned {A : Type} (p : A -> outcome bool) (arr kept : list A) :
  filter_outcome p arr = Returned kept ->
  exists keep : A -> bool,
    (forall x, x ∈ arr -> p x = Returned (keep x)) /\ kept = List.filter keep arr.
Proof.
  revert kept. induction arr as [|x rest IH]; intros kept; simpl.
  - intros [= <-]. exists (fun _ => false). split; [|reflexivity].
    intros x Hx. by apply elem_of_nil in Hx.
  - destruct (p x) as [k|] eqn:Hx; [|discriminate].
    destruct (filter_outcome p rest) as [kept'|]; [|discriminate].
    intros [= <-]. destruct (IH kept' eq_refl) as (keep & Hkeep & ->).
    exists (fun y => match p y with Returned b => b | Threw => false end).
    split.
    + intros y Hy. apply elem_of_cons in Hy as [->|Hy]; [by rewrite Hx|].
      by rewrite (Hkeep y Hy).
    + cbn [List.filter]. rewrite Hx.
      assert (List.filter keep rest
              = List.filter (fun y => match p y with Returned b => b | Threw => false end)
                  rest) as ->; [|reflexivity].
      apply List.filter_ext_in. intros y Hy%list_elem_of_In. by rewrite (Hkeep y Hy).
Qed.

Lemma List_filter_sublist_impl {A : Type} (f g : A -> bool) (l : list A) :
  (forall x, x ∈ l -> f x = true -> g x = true) ->
  sublist (List.filter f l) (List.filter g l).
Proof.
  induction l as [|x rest IH]; intros Himpl; simpl; [constructor|].
  assert (sublist (List.filter f rest) (List.filter g rest)) as Hrest.
  { apply IH. intros y Hy. apply Himpl. by right. }
  destruct (f x) eqn:Hf.
  - rewrite (Himpl x ltac:(by left) Hf). by constructor.
  - destruct (g x); [by constructor|exact Hrest].
Qed.

Section FilterNarrows.
Context {engine : Engine}.
Variable ToString : value -> string.
Variable lowerCase : string -> string.

Lemma matches_narrow (q1 q2 : string) (it : value) (b1 : bool) :
  includes q2 q1 = true ->
  matches ToString lowerCase q1 it = Returned b1 ->
  matches ToString lowerCase q2 it = Returned true ->
  b1 = true.
Proof.
  intros Hq. unfold matches. destruct (nullish it); [discriminate|].
  destruct (lowered lowerCase (optional_get it "title")) as [t|]; [|discriminate].
  destruct (lowered lowerCase (optional_get it "category")) as [c|]; [|discriminate].
  destruct (lowered lowerCase (optional_get it "id")) as [id|]; [|discriminate].
  cbv zeta. intros [= <-] [= H].
  repeat (apply orb_true_iff in H as [H|H]);
    rewrite (includes_trans _ _ _ H Hq); by rewrite ?orb_true_r.
Qed.

(** X14.  The Prompt Library search: a blank query returns all items; any
    returned list is the items that match, in their order; and a query
    that contains an earlier one, as when the user types on, returns a
    sublist of what the earlier one returned. *)
Theorem applySearchFilter_narrows (searchValue : string) (allItems : list value) :
  (nonempty (lowerCase (trim searchValue)) = false ->
   applySearchFilter ToString lowerCase searchValue allItems = Returned allItems)
  /\ (forall found,
        applySearchFilter ToString lowerCase searchValue allItems = Returned found ->
        sublist found allItems
        /\ (nonempty (lowerCase (trim searchValue)) = true ->
            forall it, it ∈ found
                       <-> it ∈ allItems
                           /\ matches ToString lowerCase (lowerCase (trim searchValue)) it
                              = Returned true))
  /\ (forall longer found found',
        applySearchFilter ToString lowerCase searchValue allItems = Returned found ->
        applySearchFilter ToString lowerCase longer allItems = Returned found' ->
        includes (lowerCase (trim longer)) (lowerCase (trim searchValue)) = true ->
        sublist found' found).
Proof.
  assert (forall text found,
            applySearchFilter ToString lowerCase text allItems = Returned found ->
            sublist found allItems) as Hsub.
  { intros text found. unfold applySearchFilter. cbv zeta.
    destruct (nonempty (lowerCase (trim text))); cbn [negb]; [|by intros [= <-]].
    intros (keep & _ & ->)%filter_outcome_Returned. apply List_filter_sublist. }
  split; [|split].
  - intros Hblank. unfold applySearchFilter. cbv zeta. by rewrite Hblank.
  - intros found Hfound. split; [by apply (Hsub searchValue)|].
    intros Hq it. unfold applySearchFilter in Hfound. cbv zeta in Hfound.
    rewrite Hq in Hfound. cbn [negb] in Hfound.
    apply filter_outcome_Returned in Hfound as (keep & Hkeep & ->).
    rewrite List_filter_elem. split.
    + intros [Hin Hk]. split; [exact Hin|]. by rewrite (Hkeep it Hin), Hk.
    + intros [Hin Hm]. split; [exact Hin|]. rewrite (Hkeep it Hin) in Hm. congruence.
  - intros longer found found' Hfound Hfound' Hq.
    pose proof (Hsub longer found' Hfound') as Hsub'.
    unfold applySearchFilter in Hfound, Hfound'. cbv zeta in Hfound, Hfound'.
    destruct (nonempty (lowerCase (trim searchValue))) eqn:Hq1; cbn [negb] in Hfound;
      [|by injection Hfound as <-].
    destruct (nonempty (lowerCase (trim longer))) eqn:Hq2; cbn [negb] in Hfound'.
    + apply filter_outcome_Returned in Hfound as (keep & Hkeep & ->).
      apply filter_outcome_Returned in Hfound' as (keep' & Hkeep' & ->).
      apply List_filter_sublist_impl. intros it Hin Hk.
      apply (matches_narrow _ _ it (keep it) Hq); [by apply Hkeep|].
      by rewrite (Hkeep' it Hin), Hk.
    + apply nonempty_true in Hq1. destruct Hq1.
      destruct (lowerCase (trim longer)); [|discriminate].
      apply includes_spec in Hq as (pre & post & Hq).
      destruct pre; [|discriminate].
      by destruct (lowerCase (trim searchValue)).
Qed.

End FilterNarrows.

Section FilterExamples.
#[local] Existing Instance ascii_engine.

Example applySearchFilter_titles :
  let items := [VObject [("id", VString "sunset"); ("title", VString "Golden Sunset")];
                VObject [("id", VString "portrait"); ("tags", VArray [VString "sun"; VNull])];
                VObject [("id", VString "night")]] in
  applySearchFilter Example.no_ToString toLowerCase " SUN" items = Returned (take 2 items)
  /\ applySearchFilter Example.no_ToString toLowerCase "suns" items = Returned (take 1 items)
  /\ applySearchFilter Example.no_ToString toLowerCase "  " (VNull :: items)
     = Returned (VNull :: items)
  /\ applySearchFilter Example.no_ToString toLowerCase "sun" (VNull :: items) = Threw.
Proof. cbv zeta. repeat split; vm_compute; reflexivity. Qed.

End FilterExamples.

(** ** What the cache holds *)

(** X15.  A build of the IO cache, from a state whose cache is not built,
    leaves [isOpen] alone, marks the cache built, and fills it with one
    entry for each registered type the factory could instantiate, holding
    the signature of that instance, and nothing else; without a registry
    the cache is built empty. *)
Theorem ensureIOCacheBuilt_contents (LiteGraph : option LiteGraphGlobal)
  (st : TKP_STATE) :
  (ioCacheBuilt st && bool_decide (is_Some (ioCache st)))%bool = false ->
  isOpen (ensureIOCacheBuilt LiteGraph st) = isOpen st
  /\ ioCacheBuilt (ensureIOCacheBuilt LiteGraph st) = true
  /\ exists cache,
       ioCache (ensureIOCacheBuilt LiteGraph st) = Some cache
       /\ NoDup (map fst cache)
       /\ (LiteGraph ≫= registered_node_types = None -> cache = [])
       /\ forall t sig,
            (t, sig) ∈ cache
            <-> (exists reg, LiteGraph ≫= registered_node_types = Some reg /\ t ∈ reg)
                /\ exists node, safeCreateNode LiteGraph t = Some node
                                /\ sig = signature_of node.
Proof.
  intros Hunbuilt. split; [apply ensureIOCacheBuilt_isOpen|].
  split; [apply ensureIOCacheBuilt_builds|].
  unfold ensureIOCacheBuilt. rewrite Hunbuilt.
  destruct (LiteGraph ≫= registered_node_types) as [reg|] eqn:Hreg; cbn [ioCache].
  - destruct (built_cache_entries LiteGraph reg []) as [Hnd Hentries].
    { apply NoDup_nil. done. }
    { intros t sig Hin. by apply elem_of_nil in Hin. }
    eexists. split; [reflexivity|]. split; [exact Hnd|]. split; [discriminate|].
    intros t sig. rewrite Hentries. split.
    + intros [[Hin|Hin] Hnode]; [by apply elem_of_nil in Hin|].
      split; [by exists reg|exact Hnode].
    + intros [(reg' & [= <-] & Hin) Hnode]. split; [by right|exact Hnode].
  - exists []. split; [reflexivity|]. split; [apply NoDup_nil; done|].
    split; [reflexivity|]. intros t sig. split.
    + intros Hin. by apply elem_of_nil in Hin.
    + intros [(reg & [=] & _) _].
Qed.

Lemma ensureIOCacheBuilt_contents_witness :
  (ioCacheBuilt TKP_INITIAL && bool_decide (is_Some (ioCache TKP_INITIAL)))%bool = false
  /\ ioCacheBuilt (ensureIOCacheBuilt Example.example_LiteGraph TKP_INITIAL) = true
  /\ ioCache (ensureIOCacheBuilt Example.example_LiteGraph TKP_INITIAL)
     = Some [("Filter", {| inTypes := [Some "IMAGE"]; outTypes := [Some "IMAGE"] |})].
Proof.
  split; [reflexivity|]. split; [|reflexivity].
  exact (proj1 (proj2 (ensureIOCacheBuilt_contents Example.example_LiteGraph
                         TKP_INITIAL eq_refl))).
Defined.

(** ** Sidebar: the debounced sort *)

Lemma debounce_invariant (events : list DebounceEvent) (d : Debounce) :
  pending d = (if scheduled d then 1 else 0)%nat ->
  pending (fold_left debounce_step events d)
  = (if scheduled (fold_left debounce_step events d) then 1 else 0)%nat
  /\ (passes d <= passes (fold_left debounce_step events d))%nat.
Proof.
  revert d. induction events as [|e rest IH]; intros d Hd; [by split|].
  cbn [fold_left].
  assert (pending (debounce_step d e) = (if scheduled (debounce_step d e) then 1 else 0)%nat
          /\ (passes d <= passes (debounce_step d e))%nat) as [Hstep Hpass].
  { destruct e; unfold debounce_step.
    - destruct (scheduled d) eqn:Hs; [by rewrite Hs|]. cbn. rewrite Hd. by split.
    - destruct (pending d) as [|n] eqn:Hp; [by rewrite Hp|]. cbn.
      destruct (scheduled d); [|discriminate]. injection Hd as ->. split; [reflexivity|lia]. }
  destruct (IH _ Hstep) as [H1 H2]. split; [exact H1|lia].
Qed.

Lemma debounce_fired (later : list DebounceEvent) (d : Debounce) :
  pending d = 1%nat -> scheduled d = true ->
  scheduled (fold_left debounce_step later d) = false ->
  (passes d < passes (fold_left debounce_step later d))%nat.
Proof.
  revert d. induction later as [|e rest IH]; intros d Hp Hs Hidle.
  - cbn in Hidle. congruence.
  - cbn [fold_left] in *. destruct e.
    + assert (debounce_step d CallScheduleSort = d) as Hsame
        by (unfold debounce_step; by rewrite Hs).
      rewrite Hsame in *. by apply IH.
    + assert (debounce_step d TimerFires
              = {| scheduled := false; pending := 0; passes := S (passes d) |}) as Hfire
        by (unfold debounce_step; by rewrite Hp).
      rewrite Hfire in *.
      destruct (debounce_invariant rest
                  {| scheduled := false; pending := 0; passes := S (passes d) |}
                  eq_refl) as [_ Hle].
      cbn [passes] in Hle. lia.
Qed.

Lemma observed_spec (mutations : list MutationRecord) :
  observed false mutations = true
  <-> exists m, m ∈ mutations
                /\ (m = Attributes
                    \/ exists added removed,
                         m = ChildList added removed /\ (added <> 0 \/ removed <> 0)%nat).
Proof.
  induction mutations as [|m rest IH]; cbn [observed].
  - split; [discriminate|]. intros (m & Hm & _). by apply elem_of_nil in Hm.
  - destruct m as [added removed| |].
    + destruct (Nat.eqb_spec added 0) as [->|Ha]; cbn [negb orb].
      * destruct (Nat.eqb_spec removed 0) as [->|Hr]; cbn [negb].
        -- rewrite IH. split; intros (m & Hm & Hrel).
           ++ exists m. split; [by right|exact Hrel].
           ++ apply elem_of_cons in Hm as [->|Hm]; [|by exists m].
              destruct Hrel as [[=]|(a & r & [= <- <-] & [H|H])]; by destruct H.
        -- split; [|reflexivity]. intros _. exists (ChildList 0 removed).
           split; [by left|]. right. exists 0%nat, removed. split; [reflexivity|by right].
      * split; [|reflexivity]. intros _. exists (ChildList added removed).
        split; [by left|]. right. exists added, removed. split; [reflexivity|by left].
    + split; [|reflexivity]. intros _. exists Attributes. split; [by left|by left].
    + rewrite IH. split; intros (m & Hm & Hrel).
      * exists m. split; [by right|exact Hrel].
      * apply elem_of_cons in Hm as [->|Hm]; [|by exists m].
        by destruct Hrel as [[=]|(a & r & [=] & _)].
Qed.

(** X16.  The sort is debounced.  However calls of [scheduleSort] and
    firings of its timer interleave, at most one timer is pending, and one
    is pending exactly while [scheduled] is set; a burst of calls followed
    by the timer's firing runs one pass and leaves nothing pending; and no
    call is lost: once the timer has fired after a call, a pass has run
    since that call.  The observer schedules a sort for a batch of
    mutations exactly when no reordering is under way and some record is
    an attribute change or a child-list change with added or removed
    nodes. *)
Theorem scheduleSort_debounces (events : list DebounceEvent) :
  let d := fold_left debounce_step events idle in
  pending d = (if scheduled d then 1 else 0)%nat
  /\ (forall n,
        scheduled d = false ->
        fold_left debounce_step (repeat CallScheduleSort (S n) ++ [TimerFires]) d
        = {| scheduled := false; pending := 0; passes := S (passes d) |})
  /\ (forall later,
        let d' :=
          fold_left debounce_step (CallScheduleSort :: later ++ [TimerFires]) d in
        (passes d < passes d')%nat /\ scheduled d' = false /\ pending d' = 0%nat)
  /\ (forall isReordering mutations,
        let relevant :=
          isReordering = false
          /\ exists m, m ∈ mutations
                       /\ (m = Attributes
                           \/ exists added removed,
                                m = ChildList added removed
                                /\ (added <> 0 \/ removed <> 0)%nat) in
        (relevant ->
         observer_callback isReordering mutations d = debounce_step d CallScheduleSort)
        /\ (~ relevant -> observer_callback isReordering mutations d = d)).
Proof.
  cbv zeta. destruct (debounce_invariant events idle eq_refl) as [Hinv _].
  set (d := fold_left debounce_step events idle) in *.
  split; [exact Hinv|]. split; [|split].
  - intros n Hidle. rewrite Hidle in Hinv. rewrite fold_left_app.
    assert (fold_left debounce_step (repeat CallScheduleSort (S n)) d
            = {| scheduled := true; pending := 1; passes := passes d |}) as ->.
    { cbn [repeat fold_left]. unfold debounce_step at 2. rewrite Hidle, Hinv.
      induction n as [|n IH]; [reflexivity|exact IH]. }
    reflexivity.
  - intros later. cbn [fold_left]. rewrite fold_left_app. cbn [fold_left].
    set (d1 := debounce_step d CallScheduleSort).
    assert (pending d1 = 1%nat /\ scheduled d1 = true /\ passes d1 = passes d)
      as (Hp1 & Hs1 & Hpass1).
    { unfold d1, debounce_step. destruct (scheduled d) eqn:Hs.
      - by rewrite Hs.
      - cbn. by rewrite Hinv. }
    destruct (debounce_invariant later d1) as [Hinv2 Hmono]; [by rewrite Hp1, Hs1|].
    set (d2 := fold_left debounce_step later d1) in *.
    unfold debounce_step. destruct (pending d2) as [|k] eqn:Hp2.
    + destruct (scheduled d2) eqn:Hs2; [discriminate|].
      split; [|by split].
      pose proof (debounce_fired later d1 Hp1 Hs1 Hs2) as Hlt. fold d2 in Hlt. lia.
    + cbn. destruct (scheduled d2); [|discriminate]. injection Hinv2 as ->.
      split; [lia|by split].
  - intros isReordering mutations. unfold observer_callback. split.
    + intros [-> Hrel]. by rewrite (proj2 (observed_spec mutations) Hrel).
    + intros Hnot. destruct isReordering; [by destruct mutations|].
      destruct (observed false mutations) eqn:Hobs; [|reflexivity].
      destruct Hnot. split; [reflexivity|by apply observed_spec].
Qed.

Example sidebar_burst :
  fold_left debounce_step
    [CallScheduleSort; CallScheduleSort; TimerFires; TimerFires; CallScheduleSort] idle
  = {| scheduled := true; pending := 1; passes := 1 |}
  /\ observed false [CharacterData; ChildList 0 0; ChildList 0 2] = true
  /\ observed true [Attributes] = false.
Proof. repeat split. Qed.

(** ** clamp *)

Lemma Qle_bool_false (a b : Q) : Qle_bool a b = false -> Qle b a.
Proof.
  intros H. apply Qlt_le_weak, Qnot_le_lt. intros Hle.
  apply Qle_bool_iff in Hle. congruence.
Qed.

(** X17.  [clamp(n, lo, hi)] with finite bounds [lo <= hi]: [NaN] stays
    [NaN]; any other number, the infinities included, gives [n] itself or
    one of the bounds, a value from [lo] to [hi], and a value equal to [n]
    when [n] already lies between the bounds. *)
Theorem clamp_within (n : number) (lo hi : Q) :
  Qle lo hi ->
  (n = NaN -> clamp n (Finite lo) (Finite hi) = NaN)
  /\ (n <> NaN ->
      (clamp n (Finite lo) (Finite hi) = n
       \/ clamp n (Finite lo) (Finite hi) = Finite lo
       \/ clamp n (Finite lo) (Finite hi) = Finite hi)
      /\ number_le (Finite lo) (clamp n (Finite lo) (Finite hi)) = true
      /\ number_le (clamp n (Finite lo) (Finite hi)) (Finite hi) = true
      /\ (number_le (Finite lo) n = true -> number_le n (Finite hi) = true ->
          number_le (clamp n (Finite lo) (Finite hi)) n = true
          /\ number_le n (clamp n (Finite lo) (Finite hi)) = true)).
Proof.
  intros Hbounds.
  assert (Qle_bool lo hi = true) as Hlohi by (by apply Qle_bool_iff).
  assert (Qle_bool lo lo = true) as Hlo by (apply Qle_bool_iff, Qle_refl).
  assert (Qle_bool hi hi = true) as Hhi by (apply Qle_bool_iff, Qle_refl).
  split; [by intros ->|]. intros Hn.
  destruct n as [|negative|q]; [by destruct Hn| |].
  - destruct negative; unfold clamp, Math_min, Math_max; cbn [number_le].
    + cbn [number_le]. split; [by right; left|]. split; [exact Hlo|].
      split; [exact Hlohi|]. discriminate.
    + rewrite Hlohi. cbn [number_le]. split; [by right; right|].
      split; [exact Hlohi|]. split; [exact Hhi|]. discriminate.
  - unfold clamp, Math_min. cbn [number_le].
    destruct (Qle_bool hi q) eqn:Hhq; unfold Math_max; cbn [number_le].
    + rewrite Hlohi. cbn [number_le]. split; [by right; right|].
      split; [exact Hlohi|]. split; [exact Hhi|]. intros _ Hqh. by split.
    + destruct (Qle_bool lo q) eqn:Hlq; cbn [number_le].
      * split; [by left|]. split; [exact Hlq|].
        split; [by apply Qle_bool_iff, Qle_bool_false|].
        intros _ _. assert (Qle_bool q q = true) as -> by apply Qle_bool_iff, Qle_refl.
        by split.
      * split; [by right; left|]. split; [exact Hlo|]. split; [exact Hlohi|].
        discriminate.
Qed.

Lemma clamp_within_witness :
  Qle (inject_Z 128) (inject_Z 2048)
  /\ clamp (Infinity false) (number_of_Z 128) (number_of_Z 2048) = number_of_Z 2048
  /\ number_le (number_of_Z 128)
       (clamp (Finite (5 # 2)) (number_of_Z 128) (number_of_Z 2048)) = true.
Proof.
  assert (Qle (inject_Z 128) (inject_Z 2048)) as Hbounds by (unfold Qle; simpl; lia).
  split; [exact Hbounds|]. split; [reflexivity|].
  exact (proj1 (proj2 (proj2 (clamp_within (Finite (5 # 2)) (inject_Z 128)
                                (inject_Z 2048) Hbounds) ltac:(discriminate)))).
Defined.
